(** * Environments of the kernel: table, identifiers, loader, dispatch

    A shallow embedding of [kern/env.c].  The environment table, the free
    list, [curenv] and the static stack watermark form an explicit state;
    functions that may pass control away for good ([sched_yield],
    [env_pop_tf]) or dereference a null pointer run in a small outcome
    monad.  Machine integers are [Z] with the wrap-around written out. *)

From Stdlib Require Import ZArith Lia Bool List.
From Stdlib Require Import Strings.Byte.
From stdpp Require Import base option list.

Local Open Scope Z_scope.

(** ** Machine integers *)

(** Reduction of a mathematical integer to an unsigned [w]-bit value. *)
Definition wrap (w : Z) (z : Z) : Z := z mod 2 ^ w.

Definition u16 (z : Z) : Z := wrap 16 z.
Definition u32 (z : Z) : Z := wrap 32 z.
Definition u64 (z : Z) : Z := wrap 64 z.

(** Reduction to a signed 32-bit value ([int32_t], [envid_t]); signed
    overflow is taken to wrap in two's complement, as the hardware does. *)
Definition sint32 (z : Z) : Z := (z + 2 ^ 31) mod 2 ^ 32 - 2 ^ 31.

(** [ENVGENSHIFT], defined in [kern/env.c]. *)
Definition ENVGENSHIFT : Z := 12.

(** ** Data model *)

(** Modelled from the spec: the [enum] of the environment status is
    declared in a header that is not part of the source tree; the values
    and their order are those of the name table that [env_run] indexes by
    status. *)
Inductive EnvStatus : Type :=
| ENV_FREE
| ENV_DYING
| ENV_RUNNABLE
| ENV_RUNNING
| ENV_NOT_RUNNABLE.

#[global] Instance EnvStatus_eq_dec : EqDecision EnvStatus.
Proof. solve_decision. Defined.

(** Modelled from the spec: [struct PushRegs] is declared in a header
    that is not part of the source tree; these are the general-purpose
    registers that [env_pop_tf] restores. *)
Record PushRegs : Type := mkPushRegs {
  reg_r15 : Z; reg_r14 : Z; reg_r13 : Z; reg_r12 : Z;
  reg_r11 : Z; reg_r10 : Z; reg_r9 : Z; reg_r8 : Z;
  reg_rsi : Z; reg_rdi : Z; reg_rbp : Z; reg_rdx : Z;
  reg_rcx : Z; reg_rbx : Z; reg_rax : Z
}.

(** Modelled from the spec: [struct Trapframe] is declared in a header
    that is not part of the source tree.  The saved machine context has the
    fields that [kern/env.c] names: the general-purpose registers, the
    instruction pointer, the segment selectors, the flags and the stack
    pointer. *)
Record Trapframe : Type := mkTrapframe {
  tf_regs : PushRegs;
  tf_es : Z;
  tf_ds : Z;
  tf_rip : Z;
  tf_cs : Z;
  tf_rflags : Z;
  tf_rsp : Z;
  tf_ss : Z
}.

(** A pointer to a slot of the table is the index of the slot; [None] is
    the null pointer. *)
Definition EnvPtr : Type := option nat.

(** Modelled from the spec: [struct Env] is declared in a header that is
    not part of the source tree.  An environment has the fields that
    [kern/env.c] names: the trap frame, the link of the free list, the
    identifier, the parent identifier, the type, the status and the run
    counter (32 bits, unsigned). *)
Record Env : Type := mkEnv {
  env_tf : Trapframe;
  env_link : EnvPtr;
  env_id : Z;
  env_parent_id : Z;
  env_type : Z;
  env_status : EnvStatus;
  env_runs : Z
}.

(** The result of [memset(&tf, 0, sizeof tf)]. *)
Definition zero_regs : PushRegs := mkPushRegs 0 0 0 0 0 0 0 0 0 0 0 0 0 0 0.
Definition zero_tf : Trapframe := mkTrapframe zero_regs 0 0 0 0 0 0 0.

(** Field updates. *)
Definition set_env_tf (tf : Trapframe) (e : Env) : Env :=
  mkEnv tf (env_link e) (env_id e) (env_parent_id e) (env_type e) (env_status e) (env_runs e).
Definition set_env_link (l : EnvPtr) (e : Env) : Env :=
  mkEnv (env_tf e) l (env_id e) (env_parent_id e) (env_type e) (env_status e) (env_runs e).
Definition set_env_id (i : Z) (e : Env) : Env :=
  mkEnv (env_tf e) (env_link e) i (env_parent_id e) (env_type e) (env_status e) (env_runs e).
Definition set_env_parent_id (p : Z) (e : Env) : Env :=
  mkEnv (env_tf e) (env_link e) (env_id e) p (env_type e) (env_status e) (env_runs e).
Definition set_env_type (t : Z) (e : Env) : Env :=
  mkEnv (env_tf e) (env_link e) (env_id e) (env_parent_id e) t (env_status e) (env_runs e).
Definition set_env_status (s : EnvStatus) (e : Env) : Env :=
  mkEnv (env_tf e) (env_link e) (env_id e) (env_parent_id e) (env_type e) s (env_runs e).
Definition set_env_runs (r : Z) (e : Env) : Env :=
  mkEnv (env_tf e) (env_link e) (env_id e) (env_parent_id e) (env_type e) (env_status e) r.

Definition set_tf_es (v : Z) (tf : Trapframe) : Trapframe :=
  mkTrapframe (tf_regs tf) v (tf_ds tf) (tf_rip tf) (tf_cs tf) (tf_rflags tf) (tf_rsp tf) (tf_ss tf).
Definition set_tf_ds (v : Z) (tf : Trapframe) : Trapframe :=
  mkTrapframe (tf_regs tf) (tf_es tf) v (tf_rip tf) (tf_cs tf) (tf_rflags tf) (tf_rsp tf) (tf_ss tf).
Definition set_tf_rip (v : Z) (tf : Trapframe) : Trapframe :=
  mkTrapframe (tf_regs tf) (tf_es tf) (tf_ds tf) v (tf_cs tf) (tf_rflags tf) (tf_rsp tf) (tf_ss tf).
Definition set_tf_cs (v : Z) (tf : Trapframe) : Trapframe :=
  mkTrapframe (tf_regs tf) (tf_es tf) (tf_ds tf) (tf_rip tf) v (tf_rflags tf) (tf_rsp tf) (tf_ss tf).
Definition set_tf_rflags (v : Z) (tf : Trapframe) : Trapframe :=
  mkTrapframe (tf_regs tf) (tf_es tf) (tf_ds tf) (tf_rip tf) (tf_cs tf) v (tf_rsp tf) (tf_ss tf).
Definition set_tf_rsp (v : Z) (tf : Trapframe) : Trapframe :=
  mkTrapframe (tf_regs tf) (tf_es tf) (tf_ds tf) (tf_rip tf) (tf_cs tf) (tf_rflags tf) v (tf_ss tf).
Definition set_tf_ss (v : Z) (tf : Trapframe) : Trapframe :=
  mkTrapframe (tf_regs tf) (tf_es tf) (tf_ds tf) (tf_rip tf) (tf_cs tf) (tf_rflags tf) (tf_rsp tf) v.

(** The globals of [kern/env.c]: the table [envs] (an alias of
    [env_array]), [env_free_list], [curenv], and the static local
    [stack_top] of [env_alloc]. *)
Record State : Type := mkState {
  envs : list Env;
  env_free_list : EnvPtr;
  curenv : EnvPtr;
  stack_top : Z
}.

Definition set_envs (l : list Env) (s : State) : State :=
  mkState l (env_free_list s) (curenv s) (stack_top s).
Definition set_env_free_list (p : EnvPtr) (s : State) : State :=
  mkState (envs s) p (curenv s) (stack_top s).
Definition set_curenv (p : EnvPtr) (s : State) : State :=
  mkState (envs s) (env_free_list s) p (stack_top s).
Definition set_stack_top (v : Z) (s : State) : State :=
  mkState (envs s) (env_free_list s) (curenv s) v.

(** Modelled from the spec: the error codes are defined in a header that
    is not part of the source tree; these are the ones [kern/env.c]
    returns (negated, in C). *)
Inductive Error : Type :=
| E_BAD_ENV
| E_NO_FREE_ENV
| E_INVALID_EXE.

(** An [int] return value: [0], or [-E] for an error code [E]. *)
Inductive Ret : Type :=
| Success
| Failure (e : Error).

(** ** Outcome monad

    A call either returns to its caller with a value and a state, or hands
    the processor to [sched_yield()] or to [env_pop_tf()], neither of which
    returns, or dereferences a pointer that is null or outside the table. *)
Inductive Outcome (A : Type) : Type :=
| Returns (a : A) (s : State)
| Yields (s : State)
| Resumes (tf : Trapframe) (s : State)
| Faults.

Arguments Returns {A} a s.
Arguments Yields {A} s.
Arguments Resumes {A} tf s.
Arguments Faults {A}.

Definition M (A : Type) : Type := State -> Outcome A.

Definition ret {A} (a : A) : M A := fun s => Returns a s.

Definition bind {A B} (m : M A) (k : A -> M B) : M B :=
  fun s =>
    match m s with
    | Returns a s' => k a s'
    | Yields s' => Yields s'
    | Resumes tf s' => Resumes tf s'
    | Faults => Faults
    end.

Declare Scope kern_scope.
Delimit Scope kern_scope with kern.
Notation "'let*' x ':=' m 'in' k" := (bind m (fun x => k))
  (at level 10, x name, m at level 100, k at level 200) : kern_scope.
Notation "'do*' m 'in' k" := (bind m (fun _ => k))
  (at level 10, m at level 100, k at level 200) : kern_scope.
Local Open Scope kern_scope.

Definition gets {A} (f : State -> A) : M A := fun s => Returns (f s) s.
Definition modify (f : State -> State) : M unit := fun s => Returns tt (f s).
Definition fault {A} : M A := fun _ => Faults.

(** Reading the slot a pointer into the table designates. *)
Definition read_env (i : nat) : M Env :=
  fun s =>
    match envs s !! i with
    | Some e => Returns e s
    | None => Faults
    end.

(** Updating in place the slot a pointer into the table designates. *)
Definition update_env (i : nat) (f : Env -> Env) : M unit :=
  fun s =>
    match envs s !! i with
    | Some e => Returns tt (set_envs (<[i := f e]> (envs s)) s)
    | None => Faults
    end.

(** The slot a pointer designates; a null pointer cannot be followed. *)
Definition deref (p : EnvPtr) : M nat :=
  match p with
  | Some i => ret i
  | None => fault
  end.

(** Modelled from the spec: [sched_yield()] belongs to the scheduler,
    which is not part of the source tree; the call hands control to the
    scheduler and does not return. *)
Definition sched_yield {A} : M A := fun s => Yields s.

(** [env_pop_tf(tf)]: the registers of [tf] are restored and [iretq]
    leaves the kernel; it does not return. *)
Definition env_pop_tf {A} (tf : Trapframe) : M A := fun s => Resumes tf s.

Definition ptr_eqb (p q : EnvPtr) : bool :=
  match p, q with
  | Some i, Some j => Nat.eqb i j
  | None, None => true
  | _, _ => false
  end.

Section Kernel.

(** Constants of headers that are outside the file; the development holds
    for every value of them. *)
Variable LOG2NENV : Z.
Variable GD_KT GD_KD : Z.
Variable FL_IF FL_IOPL_0 : Z.
Variable USTACKSIZE : Z.

(** Modelled from the spec: the macros [NENV] and [ENVX] are defined in a
    header that is not part of the source tree.  The capacity of the table
    is a power of two, [1 << LOG2NENV], and [ENVX] extracts the slot index
    with the low-bit mask [NENV - 1]. *)
Definition NENV : Z := Z.shiftl 1 LOG2NENV.
Definition ENVX (envid : Z) : Z := Z.land envid (NENV - 1).

(** The generation part of an identifier: the bits above the slot index. *)
Definition generation_of (envid : Z) : Z := Z.land envid (Z.lnot (NENV - 1)).

(** *** envid2env *)

Definition envid2env (envid : Z) (need_check_perm : bool) : M (Ret * EnvPtr) :=
  if envid =? 0 then
    let* cur := gets curenv in
    ret (Success, cur)
  else
    let i := Z.to_nat (ENVX envid) in
    let* env := read_env i in
    if bool_decide (env_status env = ENV_FREE) || negb (env_id env =? envid) then
      ret (Failure E_BAD_ENV, None)
    else
      let* cur := gets curenv in
      if need_check_perm && negb (ptr_eqb (Some i) cur) then
        let* c := deref cur in
        let* cenv := read_env c in
        if negb (env_parent_id env =? env_id cenv) then
          ret (Failure E_BAD_ENV, None)
        else ret (Success, Some i)
      else ret (Success, Some i).

(** *** env_init *)

(** The loop of [env_init], for [i] from [n - 1] down to [0]. *)
Fixpoint env_init_loop (n : nat) : M unit :=
  match n with
  | O => ret tt
  | S i =>
      let* fl := gets env_free_list in
      do* update_env i (set_env_link fl) in
      do* update_env i (set_env_id 0) in
      do* modify (set_env_free_list (Some i)) in
      env_init_loop i
  end.

Definition env_init : M unit :=
  do* modify (set_env_free_list None) in
  env_init_loop (Z.to_nat NENV).

(** The zero-initialised statics the kernel starts from. *)
Definition zero_env : Env := mkEnv zero_tf None 0 0 0 ENV_FREE 0.
Definition boot_state : State :=
  mkState (replicate (Z.to_nat NENV) zero_env) None None 0x2000000.

(** *** env_alloc *)

(** The identifier computed for a slot whose previous identifier is
    [old_id] ([int32_t] arithmetic). *)
Definition next_generation (old_id : Z) : Z :=
  let generation := Z.land (sint32 (old_id + Z.shiftl 1 ENVGENSHIFT)) (Z.lnot (NENV - 1)) in
  if generation <=? 0 then Z.shiftl 1 ENVGENSHIFT else generation.

Definition next_env_id (old_id : Z) (slot : nat) : Z :=
  sint32 (Z.lor (next_generation old_id) (Z.of_nat slot)).

(** The trap frame [env_alloc] builds when the watermark is [st]. *)
Definition fresh_tf (st : Z) : Trapframe :=
  set_tf_rflags (u64 (Z.lor FL_IF FL_IOPL_0))
    (set_tf_rsp st
      (set_tf_cs (u16 (Z.lor GD_KT 0))
        (set_tf_ss (u16 (Z.lor GD_KD 0))
          (set_tf_es (u16 (Z.lor GD_KD 0))
            (set_tf_ds (u16 (Z.lor GD_KD 0)) zero_tf))))).

(** On success the value is the slot stored in [*newenv_store]; on failure
    [*newenv_store] is not written. *)
Definition env_alloc (parent_id : Z) (type : Z) : M (Error + nat) :=
  let* fl := gets env_free_list in
  match fl with
  | None => ret (inl E_NO_FREE_ENV)
  | Some i =>
      let* env := read_env i in
      do* update_env i (set_env_id (next_env_id (env_id env) i)) in
      do* update_env i (set_env_parent_id parent_id) in
      do* update_env i (set_env_type type) in
      do* update_env i (set_env_status ENV_RUNNABLE) in
      do* update_env i (set_env_runs 0) in
      do* update_env i (set_env_tf zero_tf) in
      let* st := gets stack_top in
      do* update_env i (set_env_tf (fresh_tf st)) in
      do* modify (set_stack_top (u64 (st - USTACKSIZE))) in
      let* env' := read_env i in
      do* modify (set_env_free_list (env_link env')) in
      ret (inr i)
  end.

(** *** env_free, env_destroy *)

Definition env_free (e : nat) : M unit :=
  do* update_env e (set_env_status ENV_FREE) in
  let* fl := gets env_free_list in
  do* update_env e (set_env_link fl) in
  modify (set_env_free_list (Some e)).

Definition env_destroy (e : nat) : M unit :=
  do* update_env e (set_env_status ENV_DYING) in
  let* cur := gets curenv in
  if ptr_eqb (Some e) cur then
    do* env_free e in
    sched_yield
  else ret tt.

(** *** env_run *)

Definition env_run (e : nat) : M unit :=
  let* _ := read_env e in
  let* cur := gets curenv in
  do* match cur with
      | Some c =>
          let* cenv := read_env c in
          if bool_decide (env_status cenv = ENV_DYING) then
            do* env_free c in
            if ptr_eqb (Some c) (Some e) then sched_yield else ret tt
          else if bool_decide (env_status cenv = ENV_RUNNING) then
            update_env c (set_env_status ENV_RUNNABLE)
          else ret tt
      | None => ret tt
      end in
  do* modify (set_curenv (Some e)) in
  do* update_env e (set_env_status ENV_RUNNING) in
  let* env := read_env e in
  do* update_env e (set_env_runs (u32 (env_runs env + 1))) in
  let* env' := read_env e in
  env_pop_tf (env_tf env').

End Kernel.

(** ** Memory

    The address space is flat: the image buffer, the loaded segments and
    the bound slots all live in one byte-addressed memory.  Addresses are
    64-bit and pointer arithmetic wraps modulo [2 ^ 64]. *)
Definition Mem : Type := Z -> byte.

Definition byte_of_Z (z : Z) : byte :=
  match Byte.of_N (Z.to_N (z mod 256)) with
  | Some b => b
  | None => x00
  end.

Definition load8 (m : Mem) (a : Z) : Z := Z.of_N (Byte.to_N (m (u64 a))).

(** Little-endian read of [n] bytes at [a]. *)
Fixpoint load (n : nat) (m : Mem) (a : Z) : Z :=
  match n with
  | O => 0
  | S k => load8 m a + 256 * load k m (a + 1)
  end.

(** Modelled from the spec: the string library is not part of the
    source tree.  [memcpy(dst, src, n)] has its standard meaning: the [n]
    bytes at [dst] become the [n] bytes that were at [src]. *)
Definition memcpy (m : Mem) (dst src n : Z) : Mem :=
  fun a =>
    let off := u64 (a - dst) in
    if off <? n then m (u64 (src + off)) else m a.

(** Modelled from the spec: [memset(dst, c, n)], of the same library,
    sets the [n] bytes at [dst] to [c]. *)
Definition memset (m : Mem) (dst : Z) (c : byte) (n : Z) : Mem :=
  fun a => if u64 (a - dst) <? n then c else m a.

(** [memcpy(dst, &v, n)] for an integer [v] held in a local variable:
    its [n] low bytes are stored at [dst], least significant first. *)
Definition store (n : Z) (m : Mem) (dst v : Z) : Mem :=
  fun a =>
    let off := u64 (a - dst) in
    if off <? n then byte_of_Z (Z.shiftr v (8 * off)) else m a.

(** Modelled from the spec: [strcmp], of the same library.
    [strcmp(lit, p) == 0] for a literal [lit] without interior NUL holds
    when the bytes at [p] are those of [lit] followed by the terminator. *)
Fixpoint strcmp_eq (lit : list Z) (m : Mem) (p : Z) : bool :=
  match lit with
  | [] => load8 m p =? 0
  | c :: t => (load8 m p =? c) && strcmp_eq t m (p + 1)
  end.

(** The literal [".strtab"]. *)
Definition dot_strtab : list Z := [46; 115; 116; 114; 116; 97; 98].

(** ** ELF structures *)

(** Modelled from the spec: the header [inc/elf.h], with the structures
    [Elf], [Secthdr], [Proghdr], [Elf64_Sym] and the constants below, is not
    part of the source tree; the layout is the one of the standard 64-bit
    little-endian ELF format.  Each accessor reads the field of the
    structure at address [p] from the current memory. *)
Module Elf.
Definition ELF_MAGIC : Z := 0x464C457F.
Definition ET_EXEC : Z := 2.
Definition ELF_PROG_LOAD : Z := 1.
Definition ELF_SHT_SYMTAB : Z := 2.
Definition ELF_SHT_STRTAB : Z := 3.
Definition STB_GLOBAL : Z := 1.
Definition STT_OBJECT : Z := 1.
Definition STV_DEFAULT : Z := 0.
Definition ELF64_ST_BIND (info : Z) : Z := Z.shiftr info 4.
Definition ELF64_ST_TYPE (info : Z) : Z := Z.land info 0xf.

Definition sizeof_Elf : Z := 64.
Definition sizeof_Secthdr : Z := 64.
Definition sizeof_Proghdr : Z := 56.
Definition sizeof_Sym : Z := 24.
Definition sizeof_ptr : Z := 8.

Definition e_magic (m : Mem) (p : Z) : Z := load 4 m p.
Definition e_elf (k : Z) (m : Mem) (p : Z) : Z := load8 m (p + 4 + k).
Definition e_type (m : Mem) (p : Z) : Z := load 2 m (p + 16).
Definition e_machine (m : Mem) (p : Z) : Z := load 2 m (p + 18).
Definition e_entry (m : Mem) (p : Z) : Z := load 8 m (p + 24).
Definition e_phoff (m : Mem) (p : Z) : Z := load 8 m (p + 32).
Definition e_shoff (m : Mem) (p : Z) : Z := load 8 m (p + 40).
Definition e_ehsize (m : Mem) (p : Z) : Z := load 2 m (p + 52).
Definition e_phentsize (m : Mem) (p : Z) : Z := load 2 m (p + 54).
Definition e_phnum (m : Mem) (p : Z) : Z := load 2 m (p + 56).
Definition e_shentsize (m : Mem) (p : Z) : Z := load 2 m (p + 58).
Definition e_shnum (m : Mem) (p : Z) : Z := load 2 m (p + 60).
Definition e_shstrndx (m : Mem) (p : Z) : Z := load 2 m (p + 62).

Definition sh_name (m : Mem) (p : Z) : Z := load 4 m p.
Definition sh_type (m : Mem) (p : Z) : Z := load 4 m (p + 4).
Definition sh_offset (m : Mem) (p : Z) : Z := load 8 m (p + 24).
Definition sh_size (m : Mem) (p : Z) : Z := load 8 m (p + 32).
Definition sh_entsize (m : Mem) (p : Z) : Z := load 8 m (p + 56).

Definition p_type (m : Mem) (p : Z) : Z := load 4 m p.
Definition p_offset (m : Mem) (p : Z) : Z := load 8 m (p + 8).
Definition p_va (m : Mem) (p : Z) : Z := load 8 m (p + 16).
Definition p_filesz (m : Mem) (p : Z) : Z := load 8 m (p + 32).
Definition p_memsz (m : Mem) (p : Z) : Z := load 8 m (p + 40).

Definition st_name (m : Mem) (p : Z) : Z := load 4 m p.
Definition st_info (m : Mem) (p : Z) : Z := load8 m (p + 4).
Definition st_other (m : Mem) (p : Z) : Z := load8 m (p + 5).
Definition st_value (m : Mem) (p : Z) : Z := load 8 m (p + 8).
Definition st_size (m : Mem) (p : Z) : Z := load 8 m (p + 16).
End Elf.
Import Elf.

(** Address of the [i]-th element of an array of structures of [sz] bytes
    at [base]. *)
Definition elem (base sz i : Z) : Z := u64 (base + sz * i).

(** ** Loops with early exit *)

(** What an iteration does to the rest of the function: go on with the
    next iteration, leave the loop, or leave the function with a return
    value.  [OutOfFuel] is the model's own: the loop has not ended within
    the iterations the model was given. *)
Inductive Flow (S : Type) : Type :=
| Next (s : S)
| Break (s : S)
| Return (r : Ret) (s : S)
| OutOfFuel.

Arguments Next {S} s.
Arguments Break {S} s.
Arguments Return {S} r s.
Arguments OutOfFuel {S}.

(** [for (i = start; i < bound; i++) body], the bound being evaluated
    again before each iteration, run for at most [fuel] iterations.
    [Next s] is the end of the loop, by its condition or by [break]. *)
Fixpoint for_loop {S : Type} (fuel : nat) (bound : S -> Z)
    (body : Z -> S -> Flow S) (i : Z) (s : S) : Flow S :=
  if i <? bound s then
    match fuel with
    | O => OutOfFuel
    | S fuel' =>
        match body i s with
        | Next s' => for_loop fuel' bound body (i + 1) s'
        | Break s' => Next s'
        | Return r s' => Return r s'
        | OutOfFuel => OutOfFuel
        end
    end
  else Next s.

Section Loader.

Variable UTOP : Z.

(** [find_function(name)], of the debug-symbol resolver: the address of
    the kernel function whose name is the string at [name], or [0]. *)
Variable find_function : Mem -> Z -> Z.

(** *** bind_functions *)

(** The search for the section named [".strtab"]; the state is the local
    variable [strtab], [-1UL] until a section is found. *)
Definition strtab_none : Z := u64 (-1).

Definition find_strtab_body (m : Mem) (binary sh shstr : Z) (i : Z) (strtab : Z) : Flow Z :=
  if sh_name m (elem sh sizeof_Secthdr i) >? sh_size m (elem sh sizeof_Secthdr (e_shstrndx m binary)) then
    Return (Failure E_INVALID_EXE) strtab
  else if (sh_type m (elem sh sizeof_Secthdr i) =? ELF_SHT_STRTAB)
          && strcmp_eq dot_strtab m (u64 (shstr + sh_name m (elem sh sizeof_Secthdr i))) then
    Break i
  else Next strtab.

Definition find_strtab (fuel : nat) (m : Mem) (binary sh shstr : Z) : Flow Z :=
  for_loop fuel (fun _ => e_shnum m binary) (find_strtab_body m binary sh shstr) 0 strtab_none.

(** The body of the loop over the symbols of one table, for the symbol at
    index [j]; [strings] and [strtab_hdr] are the string table and its
    section header. *)
Definition bind_symbol (syms strings strtab_hdr image_start image_end : Z)
    (j : Z) (m : Mem) : Flow Mem :=
  let sym := elem syms sizeof_Sym j in
  if (ELF64_ST_BIND (st_info m sym) =? STB_GLOBAL)
     && (ELF64_ST_TYPE (st_info m sym) =? STT_OBJECT)
     && (st_other m sym =? STV_DEFAULT)
     && (st_size m sym =? sizeof_ptr) then
    let name := u64 (strings + st_name m sym) in
    if name >? u64 (strings + sh_size m strtab_hdr) then
      Return (Failure E_INVALID_EXE) m
    else if (st_value m sym <? image_start) || (st_value m sym >? image_end) then
      Return (Failure E_INVALID_EXE) m
    else
      let addr := find_function m name in
      if negb (addr =? 0) then
        Next (store sizeof_ptr m (st_value m sym) addr)
      else Next m
  else Next m.

(** The body of the loop over the sections, for section [i]. *)
Definition bind_section (binary size sh strings strtab_hdr image_start image_end : Z)
    (i : Z) (m : Mem) : Flow Mem :=
  let shi := elem sh sizeof_Secthdr i in
  if sh_type m shi =? ELF_SHT_SYMTAB then
    let syms := u64 (binary + sh_offset m shi) in
    if u64 (sh_offset m shi + sh_size m shi) >? size then
      Return (Failure E_INVALID_EXE) m
    else if negb (sh_entsize m shi =? sizeof_Sym) then
      Return (Failure E_INVALID_EXE) m
    else
      let nsyms := sh_size m shi / sizeof_Sym in
      for_loop (Z.to_nat nsyms) (fun _ => nsyms)
        (bind_symbol syms strings strtab_hdr image_start image_end) 0 m
  else Next m.

(** The loops over the sections run for at most [fuel] iterations; a
    section count is below [2 ^ 16]. *)
Definition bind_functions (fuel : nat) (m : Mem) (binary size image_start image_end : Z) : Flow Mem :=
  let elf := binary in
  let sh := u64 (binary + e_shoff m elf) in
  let shstr := u64 (binary + sh_offset m (elem sh sizeof_Secthdr (e_shstrndx m elf))) in
  if u64 (shstr + sh_size m (elem sh sizeof_Secthdr (e_shstrndx m elf))) >? u64 (binary + size) then
    Return (Failure E_INVALID_EXE) m
  else
    match find_strtab fuel m binary sh shstr with
    | OutOfFuel => OutOfFuel
    | Return r _ => Return r m
    | Break strtab | Next strtab =>
        if strtab =? strtab_none then Return Success m
        else
          let strtab_hdr := elem sh sizeof_Secthdr strtab in
          let strings := u64 (binary + sh_offset m strtab_hdr) in
          if u64 (strings + sh_size m strtab_hdr) >? u64 (binary + size) then
            Return (Failure E_INVALID_EXE) m
          else if sh_size m strtab_hdr =? 0 then
            Return (Failure E_INVALID_EXE) m
          else if negb (load8 m (u64 (binary + u64 (sh_offset m strtab_hdr + sh_size m strtab_hdr - 1))) =? 0) then
            Return (Failure E_INVALID_EXE) m
          else
            match for_loop fuel (fun m' => e_shnum m' elf)
                    (bind_section binary size sh strings strtab_hdr image_start image_end) 0 m with
            | Next m' | Break m' => Return Success m'
            | Return r m' => Return r m'
            | OutOfFuel => OutOfFuel
            end
    end.

(** *** load_icode *)

(** The state of the loop over the program headers: the memory and the
    locals [min_addr] and [max_addr]. *)
Record Span : Type := mkSpan {
  span_mem : Mem;
  min_addr : Z;
  max_addr : Z
}.

(** The body of the loop over the program headers, for entry [i]. *)
Definition load_segment (binary size ph : Z) (i : Z) (s : Span) : Flow Span :=
  let m := span_mem s in
  let phi := elem ph sizeof_Proghdr i in
  if p_type m phi =? ELF_PROG_LOAD then
    let min_addr' := Z.min (min_addr s) (p_va m phi) in
    let max_addr' := Z.max (max_addr s) (u64 (p_va m phi + p_memsz m phi)) in
    let src := u64 (binary + p_offset m phi) in
    let dst := p_va m phi in
    let memsz := p_memsz m phi in
    let filesz := Z.min (p_filesz m phi) memsz in
    if u64 (src + filesz) >? u64 (binary + size) then
      Return (Failure E_INVALID_EXE) (mkSpan m min_addr' max_addr')
    else if u64 (dst + memsz) >? UTOP then
      Return (Failure E_INVALID_EXE) (mkSpan m min_addr' max_addr')
    else
      Next (mkSpan (memset (memcpy m dst src filesz) (u64 (dst + filesz)) x00 (memsz - filesz))
                   min_addr' max_addr')
  else Next s.

Definition load_segments (fuel : nat) (m : Mem) (binary size ph : Z) : Flow Span :=
  for_loop fuel (fun s => e_phnum (span_mem s) binary)
    (load_segment binary size ph) 0 (mkSpan m UTOP 0).

(** The checks of [load_icode] that precede the loop over the program
    headers; [true] when one of them returns [-E_INVALID_EXE]. *)
Definition bad_header (m : Mem) (binary size : Z) : bool :=
  let elf := binary in
  if size <? sizeof_Elf then true
  else if negb (e_magic m elf =? ELF_MAGIC)
          || negb (e_elf 0 m elf =? 2)
          || negb (e_elf 1 m elf =? 1)
          || negb (e_elf 2 m elf =? 1)
          || negb (e_type m elf =? ET_EXEC)
          || negb (e_machine m elf =? 0x3E) then true
  else if e_ehsize m elf <? sizeof_Elf then true
  else if negb (e_shentsize m elf =? sizeof_Secthdr) then true
  else if negb (e_phentsize m elf =? sizeof_Proghdr) then true
  else if e_shstrndx m elf >=? e_shnum m elf then true
  else
    let sh := u64 (binary + e_shoff m elf) in
    let shstr_hdr := elem sh sizeof_Secthdr (e_shstrndx m elf) in
    if elem sh sizeof_Secthdr (e_shnum m elf) >? u64 (binary + size) then true
    else if negb (sh_type m shstr_hdr =? ELF_SHT_STRTAB) then true
    else if u64 (sh_offset m shstr_hdr + sh_size m shstr_hdr) >? size then true
    else if sh_size m shstr_hdr =? 0 then true
    else if negb (load8 m (u64 (binary + u64 (sh_offset m shstr_hdr + sh_size m shstr_hdr - 1))) =? 0) then true
    else
      let ph := u64 (binary + e_phoff m elf) in
      elem ph sizeof_Proghdr (e_phnum m elf) >? u64 (binary + size).

(** [load_icode(env, binary, size)]: the return value, the environment
    and the memory it leaves.  The loops over the program headers and the
    sections run for at most [fuel] iterations each, and the result is
    [None] if that does not suffice; the counts are below [2 ^ 16]. *)
Definition load_icode (fuel : nat) (env : Env) (m : Mem) (binary size : Z) : option (Ret * Env * Mem) :=
  let elf := binary in
  if bad_header m binary size then Some (Failure E_INVALID_EXE, env, m)
  else
    let ph := u64 (binary + e_phoff m elf) in
    match load_segments fuel m binary size ph with
    | OutOfFuel => None
    | Return _ s => Some (Failure E_INVALID_EXE, env, span_mem s)
    | Next s | Break s =>
        let m1 := span_mem s in
        if (max_addr s <=? min_addr s) || (max_addr s >=? UTOP) then
          Some (Failure E_INVALID_EXE, env, m1)
        else if (e_entry m1 elf >=? max_addr s) || (e_entry m1 elf <? min_addr s) then
          Some (Failure E_INVALID_EXE, env, m1)
        else
          let env' := set_env_tf (set_tf_rip (e_entry m1 elf) (env_tf env)) env in
          match bind_functions fuel m1 binary size (min_addr s) (max_addr s) with
          | OutOfFuel => None
          | Return Success m2 | Next m2 | Break m2 => Some (Success, env', m2)
          | Return (Failure _) m2 => Some (Failure E_INVALID_EXE, env', m2)
          end
    end.

End Loader.

(** ** Vocabulary of the statements *)

(** The identifier of the current environment, when there is one. *)
Definition curenv_id (s : State) : option Z :=
  match curenv s with
  | Some c =>
      match envs s !! c with
      | Some cenv => Some (env_id cenv)
      | None => None
      end
  | None => None
  end.

(** What [env_free] leaves in a slot when the free list is [fl]. *)
Definition freed_env (fl : EnvPtr) (env : Env) : Env :=
  set_env_link fl (set_env_status ENV_FREE env).

(** What the commit step of [env_run] leaves in the target slot. *)
Definition running_env (env : Env) : Env :=
  set_env_runs (u32 (env_runs env + 1)) (set_env_status ENV_RUNNING env).

(** The reasons for which [envid2env] rejects a nonzero identifier that
    decodes to the slot holding [env]. *)
Definition rejected (L : Z) (s : State) (envid : Z) (need_check_perm : bool) (env : Env) : Prop :=
  env_status env = ENV_FREE
  \/ env_id env <> envid
  \/ (need_check_perm = true
      /\ curenv s <> Some (Z.to_nat (ENVX L envid))
      /\ curenv_id s <> Some (env_parent_id env)).

(** The state in which [env_run] leaves the previously current
    environment before it commits the target: a DYING one is freed, a
    RUNNING one becomes RUNNABLE, any other is left alone. *)
Definition retire_current (s : State) : State :=
  match curenv s with
  | Some c =>
      match envs s !! c with
      | Some cenv =>
          match env_status cenv with
          | ENV_DYING =>
              mkState (<[c := freed_env (env_free_list s) cenv]> (envs s))
                      (Some c) (curenv s) (stack_top s)
          | ENV_RUNNING =>
              set_envs (<[c := set_env_status ENV_RUNNABLE cenv]> (envs s)) s
          | _ => s
          end
      | None => s
      end
  | None => s
  end.

(** ** Runs of the kernel used as examples *)

(** Continuing an outcome with a further call, when it has returned. *)
Definition and_then {A B} (o : Outcome A) (k : A -> M B) : Outcome B :=
  match o with
  | Returns a s => k a s
  | Yields s => Yields s
  | Resumes tf s => Resumes tf s
  | Faults => Faults
  end.

(** The usual values of the constants of the headers: 1024 slots, the
    selectors the comments of the descriptor table give, the interrupt
    flag of the processor, and a stack of two pages. *)
Definition alloc10 (parent_id type : Z) : M (Error + nat) :=
  env_alloc 10 0x08 0x10 0x200 0 0x2000 parent_id type.

(** The table after [env_init] and a first allocation: slot 0 is handed
    out. *)
Definition first_boot_alloc : Outcome (Error + nat) :=
  and_then (env_init 10 (boot_state 10)) (fun _ => alloc10 0 0).

(** Slot 0 freed and allocated again. *)
Definition reuse_slot0 (o : Outcome (Error + nat)) : Outcome (Error + nat) :=
  and_then o (fun _ => bind (env_free 0) (fun _ => alloc10 0 0)).

(** ** Images used as examples *)

(** The [n] low bytes of [v], least significant first. *)
Definition le_bytes (n : nat) (v : Z) : list byte :=
  map (fun k => byte_of_Z (Z.shiftr v (8 * Z.of_nat k))) (seq 0 n).

(** A memory that holds [image] at [base] and the byte [fill] elsewhere. *)
Definition mem_of_image (base : Z) (image : list byte) (fill : byte) : Mem :=
  fun a =>
    if (base <=? a) && (a <? base + Z.of_nat (length image))
    then nth (Z.to_nat (a - base)) image x00
    else fill.

(** The bytes of an ELF header, a program header, a section header and a
    symbol, in the layout of [Elf]. *)
Definition elf_header (entry phoff shoff phnum shnum shstrndx : Z) : list byte :=
  le_bytes 4 ELF_MAGIC ++ [x02; x01; x01] ++ repeat x00 9
  ++ le_bytes 2 ET_EXEC ++ le_bytes 2 0x3E ++ le_bytes 4 1
  ++ le_bytes 8 entry ++ le_bytes 8 phoff ++ le_bytes 8 shoff ++ le_bytes 4 0
  ++ le_bytes 2 sizeof_Elf ++ le_bytes 2 sizeof_Proghdr ++ le_bytes 2 phnum
  ++ le_bytes 2 sizeof_Secthdr ++ le_bytes 2 shnum ++ le_bytes 2 shstrndx.

Definition prog_header (type offset va filesz memsz : Z) : list byte :=
  le_bytes 4 type ++ le_bytes 4 0 ++ le_bytes 8 offset ++ le_bytes 8 va
  ++ le_bytes 8 va ++ le_bytes 8 filesz ++ le_bytes 8 memsz ++ le_bytes 8 0x1000.

Definition sect_header (name type offset size entsize : Z) : list byte :=
  le_bytes 4 name ++ le_bytes 4 type ++ le_bytes 8 0 ++ le_bytes 8 0
  ++ le_bytes 8 offset ++ le_bytes 8 size ++ le_bytes 4 0 ++ le_bytes 4 0
  ++ le_bytes 8 1 ++ le_bytes 8 entsize.

Definition symbol (name info other value size : Z) : list byte :=
  le_bytes 4 name ++ le_bytes 1 info ++ le_bytes 1 other ++ le_bytes 2 1
  ++ le_bytes 8 value ++ le_bytes 8 size.

(** An address ceiling and the address of the image buffer, in the
    kernel part of the address space. *)
Definition UTOP0 : Z := 0x8000000000.
Definition binary0 : Z := 0x8041600000.

(** A resolver that knows one function, [sys_yield]. *)
Definition sys_yield_name : list Z := [115; 121; 115; 95; 121; 105; 101; 108; 100].
Definition sys_yield_addr : Z := 0x8041234560.
Definition find_function0 (m : Mem) (name : Z) : Z :=
  if strcmp_eq sys_yield_name m name then sys_yield_addr else 0.

(** The minimal image: one loadable segment of file size [0x40] and
    memory size [0x1000] at [0x1000000], which is also the entry point; one
    section, the section-name string table, holding the empty name. *)
Definition minimal_image : list byte :=
  elf_header 0x1000000 0x40 0x78 1 1 0
  ++ prog_header ELF_PROG_LOAD 0 0x1000000 0x40 0x1000
  ++ sect_header 0 ELF_SHT_STRTAB 0xB8 1 0
  ++ [x00].

Definition minimal_mem : Mem := mem_of_image binary0 minimal_image xff.
Definition minimal_size : Z := Z.of_nat (length minimal_image).

(** The minimal image with a second loadable segment, of memory size
    [0x1000] at [0xFFFFFFFFFFFFF000]: its end, [2 ^ 64], is [0] in 64-bit
    arithmetic. *)
Definition wrapping_image : list byte :=
  elf_header 0x1000000 0x40 0xB0 2 1 0
  ++ prog_header ELF_PROG_LOAD 0 0x1000000 0x40 0x1000
  ++ prog_header ELF_PROG_LOAD 0 0xFFFFFFFFFFFFF000 0 0x1000
  ++ sect_header 0 ELF_SHT_STRTAB 0xF0 1 0
  ++ [x00].

Definition wrapping_mem : Mem := mem_of_image binary0 wrapping_image xff.
Definition wrapping_size : Z := Z.of_nat (length wrapping_image).

(** An image with a string table and a symbol table.  The strings are
    the empty name, [sys_yield] and [nosuch]; the symbols are the null
    symbol, a global pointer-sized object [sys_yield] inside the segment,
    one named [nosuch], and one named [sys_yield] placed at the very end
    of the segment. *)
Definition shstrtab_bytes : list byte :=
  map byte_of_Z (0 :: dot_strtab ++ [0]).
Definition strtab_bytes : list byte :=
  map byte_of_Z (0 :: sys_yield_name ++ [0; 110; 111; 115; 117; 99; 104; 0]).

Definition symbol_image : list byte :=
  elf_header 0x1000000 0x40 0x78 1 3 0
  ++ prog_header ELF_PROG_LOAD 0 0x1000000 0x1B8 0x1000
  ++ sect_header 0 ELF_SHT_STRTAB 0x138 9 0
  ++ sect_header 1 ELF_SHT_STRTAB 0x141 18 0
  ++ sect_header 0 ELF_SHT_SYMTAB 0x158 96 sizeof_Sym
  ++ shstrtab_bytes
  ++ strtab_bytes
  ++ repeat x00 5
  ++ symbol 0 0 0 0 0
  ++ symbol 1 0x11 0 0x1000100 8
  ++ symbol 11 0x11 0 0x1000108 8
  ++ symbol 1 0x11 0 0x1001000 8.

Definition symbol_mem : Mem := mem_of_image binary0 symbol_image xff.
Definition symbol_size : Z := Z.of_nat (length symbol_image).

(** What a run of [load_icode] lets one see: the return value, the saved
    instruction pointer, and the bytes of the final memory at the given
    addresses. *)
Definition observe (r : option (Ret * Env * Mem)) (addrs : list Z) : option (Ret * Z * list byte) :=
  match r with
  | Some (ret, env, m) => Some (ret, tf_rip (env_tf env), map m addrs)
  | None => None
  end.

(** The addresses [a], [a + 1], ..., [a + n - 1]. *)
Definition addr_range (a : Z) (n : nat) : list Z :=
  map (fun k => a + Z.of_nat k) (seq 0 n).

(** What a run of the loop over the program headers lets one see: the
    span and the bytes of the memory at the given addresses, when the loop
    ends normally. *)
Definition observe_span (f : Flow Span) (addrs : list Z) : option (Z * Z * list byte) :=
  match f with
  | Next s => Some (min_addr s, max_addr s, map (span_mem s) addrs)
  | _ => None
  end.

(** The symbols [bind_functions] handles: global binding, object type,
    default visibility, the size of a pointer. *)
Definition bindable (m : Mem) (sym : Z) : bool :=
  (ELF64_ST_BIND (st_info m sym) =? STB_GLOBAL)
  && (ELF64_ST_TYPE (st_info m sym) =? STT_OBJECT)
  && (st_other m sym =? STV_DEFAULT)
  && (st_size m sym =? sizeof_ptr).

(** ** Binding, as a list of symbols

    What follows is written from the words of the specification and not
    from [bind_functions]: the symbols of an image, and what binding does
    with one of them. *)

(** The indices [i], [i + 1], ..., [i + n - 1]. *)
Fixpoint zseq (i : Z) (n : nat) : list Z :=
  match n with
  | O => []
  | S k => i :: zseq (i + 1) k
  end.

(** The section header of index [i]. *)
Definition shdr (m : Mem) (binary i : Z) : Z :=
  elem (u64 (binary + e_shoff m binary)) sizeof_Secthdr i.

(** The symbols of the section of index [i], when it is a symbol table:
    the entries of [sizeof_Sym] bytes its size has room for, in the order
    of the table. *)
Definition section_symbols (m : Mem) (binary i : Z) : list Z :=
  if sh_type m (shdr m binary i) =? ELF_SHT_SYMTAB then
    map (elem (u64 (binary + sh_offset m (shdr m binary i))) sizeof_Sym)
        (zseq 0 (Z.to_nat (sh_size m (shdr m binary i) / sizeof_Sym)))
  else [].

(** The symbols of the image, in the order of the section headers. *)
Definition image_symbols (m : Mem) (binary : Z) : list Z :=
  flat_map (section_symbols m binary) (zseq 0 (Z.to_nat (e_shnum m binary))).

(** The string table of the section of index [t], and the name of a
    symbol in it. *)
Definition strtab_strings (m : Mem) (binary t : Z) : Z :=
  u64 (binary + sh_offset m (shdr m binary t)).
Definition symbol_name (m : Mem) (binary t sym : Z) : Z :=
  u64 (strtab_strings m binary t + st_name m sym).

(** Binding the symbol [sym] of the image in [m] when the memory has
    become [mm]: a symbol that is a global object of default visibility
    and pointer size, and whose name the resolver resolves, has the slot
    at its value overwritten with the address; any other symbol is passed
    over. *)
Definition bind_one (find_function : Mem -> Z -> Z) (m : Mem) (binary t : Z)
    (mm : Mem) (sym : Z) : Mem :=
  if bindable m sym then
    let addr := find_function mm (symbol_name m binary t sym) in
    if addr =? 0 then mm else store sizeof_ptr mm (st_value m sym) addr
  else mm.

(** Binding every symbol of the image, in order. *)
Definition bind_all (find_function : Mem -> Z -> Z) (m : Mem) (binary t : Z) : Mem :=
  fold_left (bind_one find_function m binary t) (image_symbols m binary) m.

(** The two memories hold the same bytes outside [lo, hi). *)
Definition same_outside (lo hi : Z) (m mm : Mem) : Prop :=
  forall a, 0 <= a < 2 ^ 64 -> a < lo \/ hi <= a -> mm a = m a.

(** The image in the buffer can be bound into the span from [image_start]
    to [image_end]: the buffer holds the header and the section headers
    and lies outside the span and the eight bytes after it; the
    section-name string table is within the buffer; the section of index
    [t] is the first one of type STRTAB named [".strtab"], the names of
    the sections up to it being within the section-name table; this
    string table is within the buffer, not empty, and ends with a NUL;
    and every symbol table is within the buffer, with entries of
    [sizeof_Sym] bytes. *)
Definition binder_layout (m : Mem) (binary size image_start image_end t : Z) : Prop :=
  let shstr_hdr := shdr m binary (e_shstrndx m binary) in
  let shstr := u64 (binary + sh_offset m shstr_hdr) in
  let strtab_hdr := shdr m binary t in
  (0 <= binary /\ sizeof_Elf <= size /\ binary + size < 2 ^ 64)
  /\ (image_end + 8 <= 2 ^ 64
      /\ (binary + size <= image_start \/ image_end + 8 <= binary))
  /\ e_shoff m binary + sizeof_Secthdr * e_shnum m binary <= size
  /\ u64 (shstr + sh_size m shstr_hdr) <= u64 (binary + size)
  /\ 0 <= t < e_shnum m binary
  /\ (forall i, 0 <= i <= t -> sh_name m (shdr m binary i) <= sh_size m shstr_hdr)
  /\ (sh_type m strtab_hdr = ELF_SHT_STRTAB
      /\ strcmp_eq dot_strtab m (u64 (shstr + sh_name m strtab_hdr)) = true)
  /\ (forall i, 0 <= i < t ->
        sh_type m (shdr m binary i) = ELF_SHT_STRTAB ->
        strcmp_eq dot_strtab m (u64 (shstr + sh_name m (shdr m binary i))) = false)
  /\ (u64 (strtab_strings m binary t + sh_size m strtab_hdr) <= u64 (binary + size)
      /\ sh_size m strtab_hdr <> 0
      /\ load8 m (u64 (binary + u64 (sh_offset m strtab_hdr + sh_size m strtab_hdr - 1))) = 0)
  /\ (forall i, 0 <= i < e_shnum m binary ->
        sh_type m (shdr m binary i) = ELF_SHT_SYMTAB ->
        sh_offset m (shdr m binary i) + sh_size m (shdr m binary i) <= size
        /\ sh_entsize m (shdr m binary i) = sizeof_Sym).

(** The name offset of a symbol is within the string table of index [t];
    the value of a symbol is within the span, both ends included. *)
Definition name_in_table (m : Mem) (binary t sym : Z) : Prop :=
  symbol_name m binary t sym
  <= u64 (strtab_strings m binary t + sh_size m (shdr m binary t)).
Definition value_in_span (m : Mem) (image_start image_end sym : Z) : Prop :=
  image_start <= st_value m sym <= image_end.

(** A table of four slots ([LOG2NENV] is 2): the current environment,
    a child of it, a freed slot that held the identifier 8194, and a
    grandchild. *)
Definition demo_env (id parent_id : Z) (status : EnvStatus) : Env :=
  mkEnv zero_tf None id parent_id 0 status 0.

Definition demo_state : State :=
  mkState [demo_env 4096 0 ENV_RUNNING; demo_env 4097 4096 ENV_RUNNABLE;
           demo_env 8194 0 ENV_FREE; demo_env 4099 4097 ENV_RUNNABLE]
          (Some 2%nat) (Some 0%nat) 0x2000000.

(** The places of the symbol image: its symbol table, its string table
    and the section header of the latter, and the span of its segment. *)
Definition symbol_syms : Z := binary0 + 0x158.
Definition symbol_strings : Z := binary0 + 0x141.
Definition symbol_strtab_hdr : Z := binary0 + 0x78 + 64.
Definition symbol_start : Z := 0x1000000.
Definition symbol_end : Z := 0x1001000.

(** ** The callers in [kern/env.c] *)

(** A call of [panic] halts the kernel; otherwise the call has one of the
    outcomes of the monad. *)
Inductive Halting (A : Type) : Type :=
| Panics
| Continues (o : Outcome A).

Arguments Panics {A}.
Arguments Continues {A} o.

(** [csys_exit()]. *)
Definition csys_exit (s : State) : Halting unit :=
  match curenv s with
  | None => Panics
  | Some c => Continues (env_destroy c s)
  end.

(** [csys_yield(tf)]: the frame [tf] points to is copied into the current
    environment. *)
Definition csys_yield (tf : Trapframe) : M unit :=
  let* cur := gets curenv in
  let* c := deref cur in
  do* update_env c (set_env_tf tf) in
  sched_yield.


Section Create.

Variable LOG2NENV : Z.
Variable GD_KT GD_KD : Z.
Variable FL_IF FL_IOPL_0 : Z.
Variable USTACKSIZE : Z.
Variable UTOP : Z.
Variable find_function : Mem -> Z -> Z.


(** [n] calls of [env_alloc] in a row, with their results. *)
Fixpoint alloc_many (parent_id type : Z) (n : nat) : M (list (Error + nat)) :=
  match n with
  | O => ret []
  | S k =>
      let* r := env_alloc LOG2NENV GD_KT GD_KD FL_IF FL_IOPL_0 USTACKSIZE parent_id type in
      let* rs := alloc_many parent_id type k in
      ret (r :: rs)
  end.

End Create.

(** ** The free list as a list of slots *)

(** [free_chain l p fl]: following [env_link] from the pointer [p] in the
    table [l] visits the slots [fl], in this order, and ends on the null
    pointer. *)
Inductive free_chain (l : list Env) : EnvPtr -> list nat -> Prop :=
| free_chain_nil : free_chain l None []
| free_chain_cons (i : nat) (e : Env) (rest : list nat) :
    l !! i = Some e ->
    free_chain l (env_link e) rest ->
    free_chain l (Some i) (i :: rest).

(** The free list is well formed: it ends, visits no slot twice, and
    every slot on it is FREE. *)
Definition free_list_ok (s : State) (fl : list nat) : Prop :=
  free_chain (envs s) (env_free_list s) fl
  /\ NoDup fl
  /\ forall i, i ∈ fl -> exists e, envs s !! i = Some e /\ env_status e = ENV_FREE.

(** No environment but the current one is RUNNING. *)
Definition only_current_runs (s : State) : Prop :=
  forall i e, envs s !! i = Some e -> env_status e = ENV_RUNNING -> curenv s = Some i.

(** ** The real-time clock ([kern/kclock.c])

    The functions of [kern/kclock.c] only talk to the ports of the clock.
    A function is the tree of its port accesses: the value an [inb]
    reads is chosen by the device, and what follows may depend on it. *)

Definition u8 (z : Z) : Z := wrap 8 z.

Inductive PortIO (A : Type) : Type :=
| Done (a : A)
| Outb (port data : Z) (k : PortIO A)
| Inb (port : Z) (k : Z -> PortIO A)
| NmiDisable (k : PortIO A)
| NmiEnable (k : PortIO A).

Arguments Done {A} a.
Arguments Outb {A} port data k.
Arguments Inb {A} port k.
Arguments NmiDisable {A} k.
Arguments NmiEnable {A} k.

Fixpoint io_bind {A B} (p : PortIO A) (k : A -> PortIO B) : PortIO B :=
  match p with
  | Done a => k a
  | Outb port data p' => Outb port data (io_bind p' k)
  | Inb port f => Inb port (fun v => io_bind (f v) k)
  | NmiDisable p' => NmiDisable (io_bind p' k)
  | NmiEnable p' => NmiEnable (io_bind p' k)
  end.

Declare Scope io_scope.
Delimit Scope io_scope with io.
Notation "'let*' x ':=' m 'in' k" := (io_bind m (fun x => k))
  (at level 10, x name, m at level 100, k at level 200) : io_scope.
Notation "'do*' m 'in' k" := (io_bind m (fun _ => k))
  (at level 10, m at level 100, k at level 200) : io_scope.

(** Modelled from the spec: [outb] and [inb] are defined in [inc/x86.h],
    which is not part of the source tree; they write and read one byte at
    a port. *)
Definition outb (port data : Z) : PortIO unit := Outb port (u8 data) (Done tt).
Definition inb (port : Z) : PortIO Z := Inb port (fun v => Done (u8 v)).

(** Modelled from the spec: [nmi_disable] and [nmi_enable] are defined in
    a header that is not part of the source tree; a call is recorded and
    not interpreted. *)
Definition nmi_disable : PortIO unit := NmiDisable (Done tt).
Definition nmi_enable : PortIO unit := NmiEnable (Done tt).

(** What is seen at the ports. *)
Inductive Event : Type :=
| EvNmiDisable
| EvNmiEnable
| EvOutb (port data : Z)
| EvInb (port data : Z).

(** The events of a function when the device answers the reads with
    [inputs], in this order, and the value returned, if the device has
    answered every read. *)
Fixpoint run_io {A} (p : PortIO A) (inputs : list Z) : list Event * option A :=
  match p with
  | Done a => ([], Some a)
  | Outb port data k =>
      let (tr, r) := run_io k inputs in (EvOutb port data :: tr, r)
  | Inb port k =>
      match inputs with
      | [] => ([], None)
      | v :: rest =>
          let (tr, r) := run_io (k v) rest in (EvInb port v :: tr, r)
      end
  | NmiDisable k => let (tr, r) := run_io k inputs in (EvNmiDisable :: tr, r)
  | NmiEnable k => let (tr, r) := run_io k inputs in (EvNmiEnable :: tr, r)
  end.

(** An access to the data port: the register selected, if any, and the
    byte read or written. *)
Inductive Access : Type :=
| RegRead (selected : option Z) (data : Z)
| RegWrite (selected : option Z) (data : Z).

Section Clock.

(** Constants of [kern/kclock.h], which is outside the file. *)
Variable IO_RTC_CMND IO_RTC_DATA : Z.
Variable RTC_AREG RTC_BREG RTC_CREG : Z.
Variable RTC_PIE NMI_LOCK : Z.

Local Open Scope io_scope.

Definition rtc_init : PortIO unit :=
  do* nmi_disable in
  do* outb IO_RTC_CMND (Z.lor RTC_AREG NMI_LOCK) in
  let* reg_a := inb IO_RTC_DATA in
  let reg_a := u8 (Z.lor reg_a 0x0F) in
  do* outb IO_RTC_CMND (Z.lor RTC_AREG NMI_LOCK) in
  do* outb IO_RTC_DATA reg_a in
  do* outb IO_RTC_CMND (Z.lor RTC_BREG NMI_LOCK) in
  let* reg_b := inb IO_RTC_DATA in
  let reg_b := u8 (Z.lor reg_b RTC_PIE) in
  do* outb IO_RTC_CMND (Z.lor RTC_BREG NMI_LOCK) in
  do* outb IO_RTC_DATA reg_b in
  nmi_enable.

Definition rtc_check_status : PortIO Z :=
  do* outb IO_RTC_CMND (Z.lor RTC_CREG NMI_LOCK) in
  let* status := inb IO_RTC_DATA in
  do* nmi_enable in
  Done status.

(** A write to the command port carries the bits of [NMI_LOCK]. *)
Definition nmi_locked (ev : Event) : bool :=
  match ev with
  | EvOutb port data =>
      if port =? IO_RTC_CMND then Z.land data NMI_LOCK =? NMI_LOCK else true
  | _ => true
  end.

(** Every access to the data port comes right after a write to the
    command port, which selects the register accessed. *)
Fixpoint data_follows_select (selected : bool) (tr : list Event) : bool :=
  match tr with
  | [] => true
  | EvOutb port _ :: tr' =>
      if port =? IO_RTC_CMND then data_follows_select true tr'
      else if port =? IO_RTC_DATA then selected && data_follows_select false tr'
      else data_follows_select false tr'
  | EvInb port _ :: tr' =>
      if port =? IO_RTC_DATA then selected && data_follows_select false tr'
      else data_follows_select false tr'
  | _ :: tr' => data_follows_select false tr'
  end.

(** The accesses to the data port, each with the byte written last to
    the command port, which selects the register accessed. *)
Fixpoint data_accesses (selected : option Z) (tr : list Event) : list Access :=
  match tr with
  | [] => []
  | EvOutb port data :: tr' =>
      if port =? IO_RTC_CMND then data_accesses (Some data) tr'
      else if port =? IO_RTC_DATA then RegWrite selected data :: data_accesses selected tr'
      else data_accesses selected tr'
  | EvInb port data :: tr' =>
      if port =? IO_RTC_DATA then RegRead selected data :: data_accesses selected tr'
      else data_accesses selected tr'
  | _ :: tr' => data_accesses selected tr'
  end.

End Clock.

Definition is_nmi_event (ev : Event) : bool :=
  match ev with
  | EvNmiDisable | EvNmiEnable => true
  | _ => false
  end.

(** * Properties *)

(** ** The outcome monad on known slots *)

Lemma read_env_Some (i : nat) (s : State) (e : Env) :
  envs s !! i = Some e -> read_env i s = Returns e s.
Proof. intros H. unfold read_env. now rewrite H. Qed.

Lemma update_env_Some (i : nat) (f : Env -> Env) (s : State) (e : Env) :
  envs s !! i = Some e ->
  update_env i f s = Returns tt (set_envs (<[i := f e]> (envs s)) s).
Proof. intros H. unfold update_env. now rewrite H. Qed.

Lemma lookup_set_envs_eq (i : nat) (x : Env) (s : State) :
  (i < length (envs s))%nat ->
  envs (set_envs (<[i := x]> (envs s)) s) !! i = Some x.
Proof. intros H. simpl. now apply list_lookup_insert_eq. Qed.

Lemma bind_Returns {A B} (m : M A) (k : A -> M B) (s s' : State) (a : A) :
  m s = Returns a s' -> bind m k s = k a s'.
Proof. intros H. unfold bind. now rewrite H. Qed.

(** Two successive updates of one slot amount to one. *)
Lemma update_env_twice (i : nat) (f g : Env -> Env) (s : State) (e : Env) :
  envs s !! i = Some e ->
  bind (update_env i f) (fun _ => update_env i g) s
  = Returns tt (set_envs (<[i := g (f e)]> (envs s)) s).
Proof.
  intros H. pose proof (lookup_lt_Some _ _ _ H) as Hlt.
  rewrite (bind_Returns _ _ _ _ _ (update_env_Some i f s e H)).
  rewrite (update_env_Some i g _ (f e)) by now apply lookup_set_envs_eq.
  unfold set_envs; simpl. now rewrite list_insert_insert_eq.
Qed.

(** ** Identifier arithmetic *)

Lemma NENV_pow (L : Z) : 0 <= L -> NENV L = 2 ^ L.
Proof. intros H. unfold NENV. now rewrite Z.shiftl_1_l. Qed.

Lemma NENV_pos (L : Z) : 0 <= L -> 0 < NENV L.
Proof. intros H. rewrite NENV_pow by assumption. now apply Z.pow_pos_nonneg. Qed.

Lemma ENVX_mod (L envid : Z) : 0 <= L -> ENVX L envid = envid mod NENV L.
Proof.
  intros H. unfold ENVX. rewrite NENV_pow by assumption.
  replace (2 ^ L - 1) with (Z.ones L) by (rewrite Z.ones_equiv; lia).
  now apply Z.land_ones.
Qed.

Lemma ENVX_range (L envid : Z) : 0 <= L -> 0 <= ENVX L envid < NENV L.
Proof.
  intros H. rewrite ENVX_mod by assumption.
  apply Z.mod_pos_bound. now apply NENV_pos.
Qed.

Lemma ENVX_slot_lt (L envid : Z) (l : list Env) :
  0 <= L -> length l = Z.to_nat (NENV L) ->
  (Z.to_nat (ENVX L envid) < length l)%nat.
Proof.
  intros H Hl. pose proof (ENVX_range L envid H). rewrite Hl. lia.
Qed.

(** ** envid2env *)

(** C9.  The identifier 0 never fails: whatever the state and whether or
    not permission checking is requested, [envid2env] returns 0 and stores
    [curenv], which is the null pointer when no environment is current. *)
Theorem envid2env_zero (L : Z) (need_check_perm : bool) (s : State) :
  envid2env L 0 need_check_perm s = Returns (Success, curenv s) s.
Proof. reflexivity. Qed.

(** C1.  In a table of [NENV] slots a nonzero identifier is resolved to
    the slot of its low index bits.  The lookup returns [-E_BAD_ENV] and
    stores the null pointer when the slot is FREE, or holds another
    identifier, or when permission checking is requested and the slot is
    neither the current environment nor one whose parent identifier is the
    identifier of the current environment; in every other case it returns
    0 and stores the slot.  Where the permission check is reached a current
    environment has to exist, since the code reads its identifier. *)
Theorem envid2env_nonzero (L : Z) (s : State) (envid : Z) (need_check_perm : bool) :
  0 <= L ->
  length (envs s) = Z.to_nat (NENV L) ->
  envid <> 0 ->
  (forall env, envs s !! Z.to_nat (ENVX L envid) = Some env ->
               need_check_perm = true -> env_status env <> ENV_FREE ->
               env_id env = envid -> is_Some (curenv_id s)) ->
  exists env, envs s !! Z.to_nat (ENVX L envid) = Some env
    /\ ((rejected L s envid need_check_perm env
         /\ envid2env L envid need_check_perm s = Returns (Failure E_BAD_ENV, None) s)
        \/ (~ rejected L s envid need_check_perm env
            /\ envid2env L envid need_check_perm s
               = Returns (Success, Some (Z.to_nat (ENVX L envid))) s)).
Proof.
  intros HL Hlen Hnz Hcur.
  destruct (lookup_lt_is_Some_2 (envs s) _ (ENVX_slot_lt L envid _ HL Hlen)) as [env Henv].
  exists env. split; [assumption|].
  specialize (Hcur env Henv).
  unfold envid2env, rejected.
  destruct (Z.eqb_spec envid 0) as [|_]; [contradiction|].
  cbv zeta. rewrite (bind_Returns _ _ _ _ _ (read_env_Some _ _ _ Henv)).
  destruct (decide (env_status env = ENV_FREE)) as [Hfree|Hfree].
  { left. rewrite bool_decide_eq_true_2 by assumption. simpl. auto. }
  rewrite bool_decide_eq_false_2 by assumption. simpl.
  destruct (Z.eqb_spec (env_id env) envid) as [Hid|Hid]; simpl.
  2:{ left. auto. }
  unfold bind, gets.
  destruct need_check_perm; simpl.
  2:{ right. split; [|reflexivity]. intros [?|[?|[? _]]]; congruence. }
  destruct (Hcur eq_refl Hfree Hid) as [cid Hcid]. unfold curenv_id in *.
  destruct (curenv s) as [c|] eqn:Hc; [|discriminate].
  destruct (envs s !! c) as [cenv|] eqn:Hcenv; [|discriminate].
  injection Hcid as Hcid.
  destruct (Nat.eqb_spec (Z.to_nat (ENVX L envid)) c) as [Heq|Hne]; simpl.
  { right. split; [|reflexivity]. intros [?|[?|(_ & Hn & _)]]; try congruence. }
  unfold read_env. rewrite Hcenv.
  destruct (Z.eqb_spec (env_parent_id env) (env_id cenv)) as [Hp|Hp]; simpl.
  - right. split; [|reflexivity]. intros [?|[?|(_ & _ & Hn)]]; try congruence.
  - left. split; [|reflexivity]. right. right. repeat split; congruence.
Qed.

(** ** env_alloc *)

(** Runs the updates of one slot that follow each other in a function
    body, once the slot is known to exist. *)
Ltac run_slot Hlt :=
  unfold bind, gets, modify, read_env, update_env, ret; simpl;
  repeat (rewrite list_lookup_insert_eq by (rewrite ?length_insert; exact Hlt); simpl);
  rewrite ?list_insert_insert_eq.


(** The net effect of [env_alloc]. *)
Lemma env_alloc_closed_form (L KT KD IF IOPL USS parent type : Z) (s : State) :
  env_alloc L KT KD IF IOPL USS parent type s
  = match env_free_list s with
    | None => Returns (inl E_NO_FREE_ENV) s
    | Some i =>
        match envs s !! i with
        | Some env =>
            Returns (inr i)
              (mkState
                 (<[i := mkEnv (fresh_tf KT KD IF IOPL (stack_top s)) (env_link env)
                           (next_env_id L (env_id env) i) parent type ENV_RUNNABLE 0]>
                    (envs s))
                 (env_link env) (curenv s) (u64 (stack_top s - USS)))
        | None => Faults
        end
    end.
Proof.
  unfold env_alloc. unfold bind at 1, gets at 1.
  destruct (env_free_list s) as [i|]; [|reflexivity].
  destruct (envs s !! i) as [env|] eqn:Henv.
  2:{ unfold bind, read_env. now rewrite Henv. }
  pose proof (lookup_lt_Some _ _ _ Henv) as Hlt.
  unfold bind at 1. rewrite (read_env_Some _ _ _ Henv).
  unfold bind at 1. rewrite (update_env_Some _ _ _ _ Henv).
  run_slot Hlt. reflexivity.
Qed.


(** ** env_free, env_destroy *)

Lemma env_free_Some (e : nat) (s : State) (env : Env) :
  envs s !! e = Some env ->
  env_free e s
  = Returns tt (mkState (<[e := freed_env (env_free_list s) env]> (envs s))
                        (Some e) (curenv s) (stack_top s)).
Proof.
  intros Henv. pose proof (lookup_lt_Some _ _ _ Henv) as Hlt.
  unfold env_free. unfold bind at 1. rewrite (update_env_Some _ _ _ _ Henv).
  run_slot Hlt. reflexivity.
Qed.

Lemma ptr_eqb_eq (p q : EnvPtr) : ptr_eqb p q = true <-> p = q.
Proof.
  destruct p as [i|], q as [j|]; simpl; try (split; congruence).
  rewrite Nat.eqb_eq. split; congruence.
Qed.

Lemma ptr_eqb_decide (p q : EnvPtr) :
  ptr_eqb p q = if decide (p = q) then true else false.
Proof.
  destruct (decide (p = q)) as [H|H].
  - now apply ptr_eqb_eq.
  - destruct (ptr_eqb p q) eqn:E; [|reflexivity]. now apply ptr_eqb_eq in E.
Qed.

(** C7.  [env_destroy] first sets the status of its target to DYING.  If
    the target is the current environment it is then freed and control goes
    to [sched_yield], which does not return.  Otherwise the call returns,
    the target is left DYING and nothing else has changed: every other slot,
    the current environment among them, the free list, [curenv] and the
    watermark are as before. *)
Theorem env_destroy_spec (e : nat) (s : State) (env : Env) :
  envs s !! e = Some env ->
  let dying := set_envs (<[e := set_env_status ENV_DYING env]> (envs s)) s in
  let freed :=
    mkState (<[e := freed_env (env_free_list s) (set_env_status ENV_DYING env)]> (envs s))
            (Some e) (curenv s) (stack_top s) in
  update_env e (set_env_status ENV_DYING) s = Returns tt dying
  /\ envs dying !! e = Some (set_env_status ENV_DYING env)
  /\ env_free e dying = Returns tt freed
  /\ env_destroy e s
     = (if decide (curenv s = Some e) then Yields freed else Returns tt dying)
  /\ (forall c, c <> e -> envs dying !! c = envs s !! c).
Proof.
  intros Henv dying freed. pose proof (lookup_lt_Some _ _ _ Henv) as Hlt.
  assert (Hd : envs dying !! e = Some (set_env_status ENV_DYING env))
    by (now apply lookup_set_envs_eq).
  assert (Hf : env_free e dying = Returns tt freed).
  { rewrite (env_free_Some _ _ _ Hd). unfold freed, dying; simpl.
    now rewrite list_insert_insert_eq. }
  split; [now apply update_env_Some|]. split; [exact Hd|]. split; [exact Hf|]. split.
  - unfold env_destroy. unfold bind at 1. rewrite (update_env_Some _ _ _ _ Henv).
    fold dying. unfold bind at 1, gets. change (curenv dying) with (curenv s).
    rewrite ptr_eqb_decide.
    repeat case_decide; try congruence.
    + unfold bind. now rewrite Hf.
    + reflexivity.
  - intros c Hne. simpl. now apply list_lookup_insert_ne.
Qed.

(** ** env_run *)

(** What becomes of the previously current environment: DYING it is
    freed, RUNNING it becomes RUNNABLE, and any other status is kept. *)
Lemma retire_current_status (s : State) (c : nat) (cenv : Env) :
  curenv s = Some c ->
  envs s !! c = Some cenv ->
  exists cenv',
    envs (retire_current s) !! c = Some cenv'
    /\ env_status cenv'
       = match env_status cenv with
         | ENV_DYING => ENV_FREE
         | ENV_RUNNING => ENV_RUNNABLE
         | st => st
         end.
Proof.
  intros Hc Hcenv. pose proof (lookup_lt_Some _ _ _ Hcenv) as Hlt.
  unfold retire_current. rewrite Hc, Hcenv.
  destruct (env_status cenv) eqn:Hst; simpl;
    try (exists cenv; split; [assumption|now rewrite Hst]);
    (eexists; split; [now apply list_lookup_insert_eq|reflexivity]).
Qed.

(** C8.  [env_run] first settles the previously current environment: a
    DYING one is freed, a RUNNING one becomes RUNNABLE, one in any other
    status (NOT_RUNNABLE for instance) is left as it is.  If the freed
    environment is the target itself, control goes to [sched_yield]: the
    target is not made current ([curenv] is not assigned), it is FREE and
    its run counter is not incremented.  In every other case the target is
    recorded in [curenv], its status becomes RUNNING, its run counter is
    incremented, and its trap frame is handed to [env_pop_tf]. *)
Theorem env_run_spec (e : nat) (s : State) (env : Env) :
  envs s !! e = Some env ->
  (forall c, curenv s = Some c -> is_Some (envs s !! c)) ->
  let s1 := retire_current s in
  if decide (curenv s = Some e /\ env_status env = ENV_DYING) then
    env_run e s = Yields s1
    /\ curenv s1 = curenv s
    /\ envs s1 !! e = Some (freed_env (env_free_list s) env)
    /\ env_status (freed_env (env_free_list s) env) = ENV_FREE
    /\ env_runs (freed_env (env_free_list s) env) = env_runs env
  else
    exists env1,
      envs s1 !! e = Some env1
      /\ env_run e s
         = Resumes (env_tf env1)
             (mkState (<[e := running_env env1]> (envs s1))
                      (env_free_list s1) (Some e) (stack_top s1))
      /\ env_status (running_env env1) = ENV_RUNNING
      /\ env_runs (running_env env1) = u32 (env_runs env1 + 1)
      /\ env_tf (running_env env1) = env_tf env1.
Proof.
  intros Henv Hcur s1.
  pose proof (lookup_lt_Some _ _ _ Henv) as Hlt.
  remember (env_run e s) as R eqn:HR.
  unfold env_run in HR. rewrite (bind_Returns _ _ _ _ _ (read_env_Some _ _ _ Henv)) in HR.
  rewrite (bind_Returns (gets curenv) _ s s (curenv s) eq_refl) in HR.
  match type of HR with context [bind _ ?k s] => set (K := k) in HR end.
  assert (HK : forall (s' : State) (env1 : Env), envs s' !! e = Some env1 ->
             K tt s' = Resumes (env_tf env1)
                         (mkState (<[e := running_env env1]> (envs s'))
                                  (env_free_list s') (Some e) (stack_top s'))).
  { intros s' env1 H1. pose proof (lookup_lt_Some _ _ _ H1) as Hlt1.
    unfold K. unfold bind at 1, modify at 1.
    unfold bind at 1.
    rewrite (update_env_Some _ _ (set_curenv (Some e) s') env1) by exact H1.
    run_slot Hlt1. reflexivity. }
  clearbody K. subst s1. unfold retire_current.
  destruct (curenv s) as [c|] eqn:Hc.
  2:{ rewrite decide_False by (intros [? _]; discriminate).
      exists env. split; [assumption|]. split; [|now repeat split].
      subst R. unfold bind, ret. now apply HK. }
  destruct (Hcur c eq_refl) as [cenv Hcenv]. rewrite Hcenv.
  pose proof (lookup_lt_Some _ _ _ Hcenv) as Hltc.
  unfold bind at 1 in HR. rewrite (bind_Returns _ _ _ _ _ (read_env_Some _ _ _ Hcenv)) in HR.
  destruct (decide (c = e)) as [->|Hne].
  - assert (cenv = env) as -> by congruence.
    destruct (env_status env) eqn:Hst; simpl in HR.
    + rewrite decide_False by (intros [_ ?]; discriminate).
      exists env. split; [assumption|]. split; [|now repeat split].
      subst R. now apply HK.
    + rewrite decide_True by (split; congruence).
      unfold bind in HR. rewrite (env_free_Some _ _ _ Henv), Hc in HR.
      rewrite Nat.eqb_refl in HR.
      unfold sched_yield in HR. split; [exact HR|]. split; [reflexivity|].
      split; [|now split]. simpl. now apply list_lookup_insert_eq.
    + rewrite decide_False by (intros [_ ?]; discriminate).
      exists env. split; [assumption|]. split; [|now repeat split].
      subst R. now apply HK.
    + rewrite decide_False by (intros [_ ?]; discriminate).
      rewrite (update_env_Some _ _ _ _ Henv) in HR.
      exists (set_env_status ENV_RUNNABLE env).
      split; [now apply lookup_set_envs_eq|]. split; [|now repeat split].
      subst R. apply HK. now apply lookup_set_envs_eq.
    + rewrite decide_False by (intros [_ ?]; discriminate).
      exists env. split; [assumption|]. split; [|now repeat split].
      subst R. now apply HK.
  - rewrite decide_False by (intros [? _]; congruence).
    destruct (env_status cenv) eqn:Hst; simpl in HR.
    + exists env. split; [assumption|]. split; [|now repeat split].
      subst R. now apply HK.
    + unfold bind in HR. rewrite (env_free_Some _ _ _ Hcenv), Hc in HR.
      rewrite (proj2 (Nat.eqb_neq c e) Hne) in HR.
      unfold ret in HR.
      exists env. split; [simpl; now rewrite list_lookup_insert_ne|].
      split; [|now repeat split].
      subst R. apply HK. simpl. now rewrite list_lookup_insert_ne.
    + exists env. split; [assumption|]. split; [|now repeat split].
      subst R. now apply HK.
    + rewrite (update_env_Some _ _ _ _ Hcenv) in HR.
      exists env. split; [simpl; now rewrite list_lookup_insert_ne|].
      split; [|now repeat split].
      subst R. apply HK. simpl. now rewrite list_lookup_insert_ne.
    + exists env. split; [assumption|]. split; [|now repeat split].
      subst R. now apply HK.
Qed.

(** ** Generations *)

Lemma sint32_range (x : Z) : - 2 ^ 31 <= sint32 x < 2 ^ 31.
Proof.
  unfold sint32. pose proof (Z.mod_pos_bound (x + 2 ^ 31) (2 ^ 32) eq_refl). lia.
Qed.

Lemma sint32_small (x : Z) : - 2 ^ 31 <= x < 2 ^ 31 -> sint32 x = x.
Proof. intros H. unfold sint32. rewrite Z.mod_small; lia. Qed.

Lemma sint32_overflow (x : Z) : 2 ^ 31 <= x < 2 ^ 32 -> sint32 x = x - 2 ^ 32.
Proof.
  intros H. unfold sint32.
  replace (x + 2 ^ 31) with ((x - 2 ^ 31) + 1 * 2 ^ 32) by lia.
  rewrite Z.mod_add by lia. rewrite Z.mod_small; lia.
Qed.

(** Masking with [~(NENV - 1)] clears the slot-index bits. *)
Lemma mask_generation (L x : Z) :
  0 <= L -> Z.land x (Z.lnot (NENV L - 1)) = x - x mod NENV L.
Proof.
  intros HL. rewrite NENV_pow by assumption.
  replace (2 ^ L - 1) with (Z.ones L) by (rewrite Z.ones_equiv; lia).
  rewrite <- Z.ldiff_land, Z.ldiff_ones_r by assumption.
  rewrite Z.shiftl_mul_pow2, Z.shiftr_div_pow2 by assumption.
  pose proof (Z.div_mod x (2 ^ L)). pose proof (Z.pow_pos_nonneg 2 L). lia.
Qed.

(** A generation and a slot index have no bit in common. *)
Lemma lor_generation_slot (L g i : Z) :
  0 <= L -> g mod 2 ^ L = 0 -> 0 <= i < 2 ^ L -> Z.lor g i = g + i.
Proof.
  intros HL Hg Hi.
  assert (Hdisj : Z.land g i = 0).
  { apply Z.bits_inj'. intros n Hn. rewrite Z.land_spec, Z.bits_0.
    destruct (Z.lt_ge_cases n L) as [Hlt|Hge].
    - rewrite <- (Z.mod_pow2_bits_low g L n) by lia. rewrite Hg, Z.bits_0. reflexivity.
    - rewrite <- (Z.mod_small i (2 ^ L)) by lia.
      rewrite Z.mod_pow2_bits_high by lia. apply andb_false_r. }
  rewrite <- Z.lxor_lor by assumption. symmetry. now apply Z.add_nocarry_lxor.
Qed.

Lemma stride_value : Z.shiftl 1 ENVGENSHIFT = 4096.
Proof. reflexivity. Qed.

(** The stride is a multiple of the table size when
    [LOG2NENV <= ENVGENSHIFT]. *)
Lemma stride_mod_NENV (L : Z) : 0 <= L <= ENVGENSHIFT -> 4096 mod NENV L = 0.
Proof.
  intros HL. rewrite NENV_pow by lia. unfold ENVGENSHIFT in HL.
  replace 4096 with (2 ^ (12 - L) * 2 ^ L).
  - apply Z.mod_mul. pose proof (Z.pow_pos_nonneg 2 L). lia.
  - rewrite <- Z.pow_add_r by lia. now replace (12 - L + L) with 12 by lia.
Qed.

Lemma NENV_le_stride (L : Z) : 0 <= L <= ENVGENSHIFT -> NENV L <= 4096.
Proof.
  intros HL. rewrite NENV_pow by lia. unfold ENVGENSHIFT in HL.
  change 4096 with (2 ^ 12). apply Z.pow_le_mono_r; lia.
Qed.

(** The generation computed by [env_alloc] is a positive multiple of the
    table size that fits, with any slot index, in an [int32_t]. *)
Lemma next_generation_bounds (L old : Z) :
  0 <= L <= ENVGENSHIFT ->
  0 < next_generation L old <= 2 ^ 31 - NENV L
  /\ next_generation L old mod NENV L = 0.
Proof.
  intros HL. unfold next_generation. rewrite stride_value.
  rewrite mask_generation by lia.
  pose proof (NENV_pos L (proj1 HL)) as HN.
  pose proof (NENV_le_stride L HL) as HN'.
  set (v := sint32 (old + 4096)).
  pose proof (sint32_range (old + 4096)) as Hv. fold v in Hv.
  pose proof (Z.mod_pos_bound v (NENV L) HN) as Hm.
  destruct (Z.leb_spec (v - v mod NENV L) 0) as [Hle|Hgt].
  - split; [lia|]. now apply stride_mod_NENV.
  - assert (Hmul : (v - v mod NENV L) mod NENV L = 0).
    { rewrite Zminus_mod, Z.mod_mod, Z.sub_diag by lia. apply Z.mod_0_l. lia. }
    split; [|exact Hmul].
    split; [lia|].
    (* a multiple of NENV below 2^31 is at most 2^31 - NENV *)
    assert (H31 : (2 ^ 31) mod NENV L = 0).
    { rewrite NENV_pow by lia. unfold ENVGENSHIFT in HL.
      replace (2 ^ 31) with (2 ^ (31 - L) * 2 ^ L).
      - apply Z.mod_mul. pose proof (Z.pow_pos_nonneg 2 L). lia.
      - rewrite <- Z.pow_add_r by lia. now replace (31 - L + L) with 31 by lia. }
    apply Z.mod_divide in Hmul; [|lia]. apply Z.mod_divide in H31; [|lia].
    destruct Hmul as [a Ha], H31 as [b Hb]. rewrite Ha, Hb.
    assert (a < b) by nia. nia.
Qed.

(** The identifier of a reallocated slot. *)
Lemma next_env_id_value (L old : Z) (i : nat) :
  0 <= L <= ENVGENSHIFT -> Z.of_nat i < NENV L ->
  next_env_id L old i = next_generation L old + Z.of_nat i
  /\ 0 < next_env_id L old i < 2 ^ 31
  /\ ENVX L (next_env_id L old i) = Z.of_nat i
  /\ generation_of L (next_env_id L old i) = next_generation L old.
Proof.
  intros HL Hi.
  destruct (next_generation_bounds L old HL) as [Hb Hm].
  pose proof (NENV_pos L (proj1 HL)) as HN.
  assert (Hval : next_env_id L old i = next_generation L old + Z.of_nat i).
  { unfold next_env_id. rewrite NENV_pow in * by lia.
    rewrite (lor_generation_slot L) by lia. apply sint32_small. lia. }
  rewrite Hval. split; [reflexivity|]. split; [lia|].
  assert (Hmod : (next_generation L old + Z.of_nat i) mod NENV L = Z.of_nat i).
  { rewrite Zplus_mod, Hm, Z.add_0_l, Z.mod_mod by lia. apply Z.mod_small. lia. }
  split.
  - rewrite ENVX_mod by lia. exact Hmod.
  - unfold generation_of. rewrite mask_generation by lia. rewrite Hmod. lia.
Qed.

(** Without the reset the generation grows by the stride. *)
Lemma next_generation_step (L old : Z) :
  0 <= L <= ENVGENSHIFT -> - 2 ^ 31 <= old < 2 ^ 31 ->
  0 < Z.land (sint32 (old + Z.shiftl 1 ENVGENSHIFT)) (Z.lnot (NENV L - 1)) ->
  next_generation L old = generation_of L old + Z.shiftl 1 ENVGENSHIFT.
Proof.
  intros HL Hold Hpos. unfold next_generation, generation_of.
  destruct (Z.leb_spec (Z.land (sint32 (old + Z.shiftl 1 ENVGENSHIFT)) (Z.lnot (NENV L - 1))) 0);
    [lia|].
  rewrite stride_value in *. rewrite !mask_generation in * by lia.
  pose proof (NENV_pos L (proj1 HL)) as HN.
  pose proof (Z.mod_pos_bound (sint32 (old + 4096)) (NENV L) HN).
  assert (Hno : old + 4096 < 2 ^ 31).
  { destruct (Z.lt_ge_cases (old + 4096) (2 ^ 31)); [assumption|].
    rewrite sint32_overflow in * by lia. lia. }
  rewrite sint32_small by lia.
  rewrite Zplus_mod, (stride_mod_NENV L HL), Z.add_0_r, Z.mod_mod by lia. lia.
Qed.

(** The new identifier differs from the one the slot held. *)
Lemma next_env_id_fresh (L old : Z) (i : nat) :
  0 <= L <= ENVGENSHIFT -> Z.of_nat i < NENV L -> - 2 ^ 31 <= old < 2 ^ 31 ->
  next_env_id L old i <> old.
Proof.
  intros HL Hi Hold Heq.
  destruct (next_env_id_value L old i HL Hi) as (Hval & Hpos & _ & Hgen).
  pose proof (NENV_pos L (proj1 HL)) as HN.
  pose proof (NENV_le_stride L HL) as HN'.
  destruct (Z.lt_ge_cases 0 (Z.land (sint32 (old + Z.shiftl 1 ENVGENSHIFT)) (Z.lnot (NENV L - 1))))
    as [Hstep|Hreset].
  - pose proof (next_generation_step L old HL Hold Hstep) as Hs.
    rewrite Heq in Hgen. rewrite stride_value in Hs. lia.
  - assert (Hg : next_generation L old = 4096).
    { unfold next_generation.
      destruct (Z.leb_spec (Z.land (sint32 (old + Z.shiftl 1 ENVGENSHIFT)) (Z.lnot (NENV L - 1))) 0);
        [reflexivity|lia]. }
    rewrite Hg in Hval. rewrite stride_value, mask_generation in Hreset by lia.
    assert (Hold' : old = 4096 + Z.of_nat i) by lia.
    rewrite sint32_small in Hreset by lia.
    pose proof (Z.mod_pos_bound (old + 4096) (NENV L) HN).
    assert ((old + 4096) mod NENV L <= old + 4096 - 1); [|lia].
    lia.
Qed.

(** A nonzero identifier that the slot it decodes to does not hold is
    rejected, before any permission check. *)
Lemma envid2env_stale (L : Z) (s : State) (envid : Z) (need_check_perm : bool) (env : Env) :
  envid <> 0 ->
  envs s !! Z.to_nat (ENVX L envid) = Some env ->
  env_id env <> envid ->
  envid2env L envid need_check_perm s = Returns (Failure E_BAD_ENV, None) s.
Proof.
  intros Hnz Henv Hid. unfold envid2env.
  destruct (Z.eqb_spec envid 0) as [|_]; [contradiction|].
  cbv zeta. rewrite (bind_Returns _ _ _ _ _ (read_env_Some _ _ _ Henv)).
  destruct (Z.eqb_spec (env_id env) envid) as [|_]; [contradiction|].
  now rewrite orb_true_r.
Qed.

(** C2, as the code has it.  When a freed slot is allocated again, the
    new generation is the previous identifier plus the stride
    [1 << ENVGENSHIFT] with the slot-index bits masked off, or the stride
    itself when that is not positive.  The stored identifier is strictly
    positive and decodes to the slot; unless the reset applies, its
    generation is the previous one plus the stride; it differs from the
    identifier the slot held; and after the allocation the lookup of any
    other nonzero identifier of the slot, the previous one among them,
    returns [-E_BAD_ENV]. *)
Theorem env_alloc_reuse (L KT KD IF IOPL USS parent type : Z) (s : State)
    (i : nat) (env : Env) :
  0 <= L <= ENVGENSHIFT ->
  length (envs s) = Z.to_nat (NENV L) ->
  env_free_list s = Some i ->
  envs s !! i = Some env ->
  - 2 ^ 31 <= env_id env < 2 ^ 31 ->
  let stride := Z.shiftl 1 ENVGENSHIFT in
  let sum := Z.land (sint32 (env_id env + stride)) (Z.lnot (NENV L - 1)) in
  let new_id := next_env_id L (env_id env) i in
  exists s' env',
    env_alloc L KT KD IF IOPL USS parent type s = Returns (inr i) s'
    /\ envs s' !! i = Some env'
    /\ env_id env' = new_id
    /\ next_generation L (env_id env) = (if sum <=? 0 then stride else sum)
    /\ new_id = next_generation L (env_id env) + Z.of_nat i
    /\ 0 < new_id
    /\ ENVX L new_id = Z.of_nat i
    /\ generation_of L new_id = next_generation L (env_id env)
    /\ (0 < sum -> generation_of L new_id = generation_of L (env_id env) + stride)
    /\ new_id <> env_id env
    /\ (forall envid need_check_perm,
          envid <> 0 -> envid <> new_id -> Z.to_nat (ENVX L envid) = i ->
          envid2env L envid need_check_perm s' = Returns (Failure E_BAD_ENV, None) s').
Proof.
  intros HL Hlen Hfl Henv Hold stride sum new_id.
  pose proof (lookup_lt_Some _ _ _ Henv) as Hlt.
  assert (Hi : Z.of_nat i < NENV L).
  { rewrite Hlen in Hlt. pose proof (NENV_pos L (proj1 HL)). lia. }
  destruct (next_env_id_value L (env_id env) i HL Hi) as (Hval & Hpos & Hx & Hgen).
  pose proof (env_alloc_closed_form L KT KD IF IOPL USS parent type s) as Hrun.
  rewrite Hfl, Henv in Hrun.
  eexists _, _. split; [exact Hrun|].
  split; [simpl; now apply list_lookup_insert_eq|].
  split; [reflexivity|]. split; [reflexivity|]. split; [exact Hval|].
  split; [lia|]. split; [exact Hx|]. split; [exact Hgen|].
  split.
  { intros Hsum. fold new_id in Hgen. rewrite Hgen.
    now apply next_generation_step. }
  split; [now apply next_env_id_fresh|].
  intros envid chk Hnz Hne Hslot.
  eapply envid2env_stale; [assumption| |].
  - rewrite Hslot. simpl. now apply list_lookup_insert_eq.
  - simpl. fold new_id. congruence.
Qed.

(** Slot 0 after [k] reuses that follow its first allocation: it is
    allocated, and its identifier has advanced by [k] strides. *)
Lemma reuse_slot0_identifier (k : N) :
  (k <= 524286)%N ->
  exists s env,
    N.iter k reuse_slot0 first_boot_alloc = Returns (inr 0%nat) s
    /\ envs s !! 0%nat = Some env
    /\ env_id env = 4096 * (Z.of_N k + 1)
    /\ env_status env = ENV_RUNNABLE.
Proof.
  induction k as [|k IH] using N.peano_ind; intros Hk.
  - eexists _, _. split; [vm_compute; reflexivity|]. repeat split.
  - destruct IH as (s & env & Hrun & Henv & Hid & _); [lia|].
    rewrite N.iter_succ, Hrun. unfold reuse_slot0, and_then, alloc10.
    unfold bind. rewrite (env_free_Some _ _ _ Henv).
    rewrite env_alloc_closed_form. simpl.
    pose proof (lookup_lt_Some _ _ _ Henv) as Hlt.
    rewrite list_lookup_insert_eq by exact Hlt.
    eexists _, _. split; [reflexivity|]. simpl.
    rewrite list_lookup_insert_eq by (rewrite length_insert; exact Hlt).
    split; [reflexivity|]. split; [|reflexivity]. simpl.
    rewrite Hid. unfold next_env_id, next_generation.
    rewrite stride_value, mask_generation by lia.
    change (NENV 10) with 1024.
    assert (Hk' : 0 <= Z.of_N k <= 524285) by lia.
    assert (H31 : 2 ^ 31 = 2147483648) by reflexivity.
    rewrite (sint32_small (4096 * (Z.of_N k + 1) + 4096)) by lia.
    replace ((4096 * (Z.of_N k + 1) + 4096) mod 1024) with 0
      by (symmetry; replace (4096 * (Z.of_N k + 1) + 4096) with ((4 * (Z.of_N k + 2)) * 1024) by lia;
          apply Z.mod_mul; lia).
    rewrite Z.sub_0_r.
    destruct (Z.leb_spec (4096 * (Z.of_N k + 1) + 4096) 0); [lia|].
    change (Z.of_nat 0) with 0. rewrite Z.lor_0_r, sint32_small by lia. lia.
Qed.

(** Counterexample to C2 as stated, over the wraparound.  After [env_init], slot 0
    is allocated and receives the identifier 4096.  It is then freed and
    allocated again 524287 times; the last allocation resets the
    generation, the slot is given 4096 once more, and the lookup of that
    identifier, issued for the slot at the first allocation, succeeds. *)
Lemma reissued_identifier_resolves :
  exists s1 env1 s2 env2,
    first_boot_alloc = Returns (inr 0%nat) s1
    /\ envs s1 !! 0%nat = Some env1
    /\ env_id env1 = 4096
    /\ N.iter 524287 reuse_slot0 first_boot_alloc = Returns (inr 0%nat) s2
    /\ envs s2 !! 0%nat = Some env2
    /\ env_id env2 = 4096
    /\ envid2env 10 4096 false s2 = Returns (Success, Some 0%nat) s2.
Proof.
  destruct (reuse_slot0_identifier 524286) as (s & env & Hrun & Henv & Hid & _); [lia|].
  pose proof (lookup_lt_Some _ _ _ Henv) as Hlt.
  eexists _, _, _, _. split; [vm_compute; reflexivity|].
  split; [reflexivity|]. split; [reflexivity|].
  replace 524287%N with (N.succ 524286) by reflexivity.
  rewrite N.iter_succ, Hrun. unfold reuse_slot0, and_then, alloc10.
  unfold bind. rewrite (env_free_Some _ _ _ Henv).
  rewrite env_alloc_closed_form. simpl.
  rewrite list_lookup_insert_eq by exact Hlt.
  split; [reflexivity|]. simpl.
  rewrite list_lookup_insert_eq by (rewrite length_insert; exact Hlt).
  split; [reflexivity|]. simpl. rewrite Hid.
  split; [vm_compute; reflexivity|].
  unfold envid2env. change (4096 =? 0) with false. cbv iota.
  change (Z.to_nat (ENVX 10 4096)) with 0%nat. cbv zeta.
  unfold bind, read_env. simpl.
  rewrite list_lookup_insert_eq by (rewrite length_insert; exact Hlt).
  change (next_env_id 10 (4096 * (524286 + 1)) 0) with 4096. reflexivity.
Qed.

(** ** Memory *)

Lemma u64_range (z : Z) : 0 <= u64 z < 2 ^ 64.
Proof. unfold u64, wrap. now apply Z.mod_pos_bound. Qed.

Lemma u64_small (z : Z) : 0 <= z < 2 ^ 64 -> u64 z = z.
Proof. intros H. unfold u64, wrap. now apply Z.mod_small. Qed.

Lemma u64_negative (z : Z) : - 2 ^ 64 <= z < 0 -> u64 z = z + 2 ^ 64.
Proof.
  intros H. unfold u64, wrap. symmetry.
  apply (Z.mod_unique z (2 ^ 64) (-1)); lia.
Qed.

(** The offset from [d] of the address [d + k]. *)
Lemma u64_offset (d k : Z) : u64 (u64 (d + k) - d) = u64 k.
Proof.
  unfold u64, wrap. rewrite Zminus_mod_idemp_l. f_equal. lia.
Qed.

Lemma byte_of_Z_value (z : Z) : Z.of_N (Byte.to_N (byte_of_Z z)) = z mod 256.
Proof.
  unfold byte_of_Z. pose proof (Z.mod_pos_bound z 256 eq_refl) as Hb.
  destruct (Byte.of_N (Z.to_N (z mod 256))) as [b|] eqn:E.
  - apply Byte.to_of_N in E. rewrite E. lia.
  - apply Byte.of_N_None_iff in E. lia.
Qed.

Lemma load8_range (m : Mem) (a : Z) : 0 <= load8 m a < 256.
Proof.
  unfold load8. pose proof (Byte.to_N_bounded (m (u64 a))). lia.
Qed.

Lemma load_range (n : nat) (m : Mem) (a : Z) : 0 <= load n m a < 2 ^ (8 * Z.of_nat n).
Proof.
  revert a. induction n as [|n IH]; intros a.
  - simpl. lia.
  - cbn [load]. pose proof (load8_range m a). pose proof (IH (a + 1)).
    replace (8 * Z.of_nat (S n)) with (8 + 8 * Z.of_nat n) by lia.
    rewrite Z.pow_add_r by lia. change (2 ^ 8) with 256. nia.
Qed.

Lemma memset_inside (m : Mem) (dst : Z) (c : byte) (n k : Z) :
  0 <= k < n -> n <= 2 ^ 64 -> memset m dst c n (u64 (dst + k)) = c.
Proof.
  intros Hk Hn. unfold memset. rewrite u64_offset, u64_small by lia.
  destruct (Z.ltb_spec k n); [reflexivity|lia].
Qed.

Lemma memset_outside (m : Mem) (dst : Z) (c : byte) (n a : Z) :
  n <= u64 (a - dst) -> memset m dst c n a = m a.
Proof.
  intros H. unfold memset. destruct (Z.ltb_spec (u64 (a - dst)) n); [lia|reflexivity].
Qed.

Lemma memcpy_inside (m : Mem) (dst src n k : Z) :
  0 <= k < n -> n <= 2 ^ 64 -> memcpy m dst src n (u64 (dst + k)) = m (u64 (src + k)).
Proof.
  intros Hk Hn. unfold memcpy. rewrite u64_offset, u64_small by lia.
  destruct (Z.ltb_spec k n); [reflexivity|lia].
Qed.

Lemma memcpy_outside (m : Mem) (dst src n a : Z) :
  n <= u64 (a - dst) -> memcpy m dst src n a = m a.
Proof.
  intros H. unfold memcpy. destruct (Z.ltb_spec (u64 (a - dst)) n); [lia|reflexivity].
Qed.

Lemma store_inside (n : Z) (m : Mem) (dst v k : Z) :
  0 <= k < n -> n <= 2 ^ 64 ->
  store n m dst v (u64 (dst + k)) = byte_of_Z (Z.shiftr v (8 * k)).
Proof.
  intros Hk Hn. unfold store. rewrite u64_offset, u64_small by lia.
  destruct (Z.ltb_spec k n); [reflexivity|lia].
Qed.

Lemma store_outside (n : Z) (m : Mem) (dst v a : Z) :
  n <= u64 (a - dst) -> store n m dst v a = m a.
Proof.
  intros H. unfold store. destruct (Z.ltb_spec (u64 (a - dst)) n); [lia|reflexivity].
Qed.

(** Reading back part of a stored integer. *)
Lemma load_store_part (n : Z) (m : Mem) (dst v : Z) (k : nat) (j : Z) :
  0 <= j -> j + Z.of_nat k <= n -> n <= 2 ^ 64 ->
  load k (store n m dst v) (dst + j) = Z.shiftr v (8 * j) mod 2 ^ (8 * Z.of_nat k).
Proof.
  revert j. induction k as [|k IH]; intros j Hj Hjk Hn.
  - simpl. now rewrite Z.mod_1_r.
  - cbn [load]. unfold load8 at 1. rewrite store_inside by lia.
    rewrite byte_of_Z_value.
    replace (dst + j + 1) with (dst + (j + 1)) by lia.
    rewrite IH by lia.
    replace (8 * Z.of_nat (S k)) with (8 + 8 * Z.of_nat k) by lia.
    rewrite Z.pow_add_r by lia. change (2 ^ 8) with 256.
    rewrite Z.rem_mul_r by (try lia; apply Z.pow_nonzero; lia).
    replace (8 * (j + 1)) with (8 * j + 8) by lia.
    rewrite <- Z.shiftr_shiftr by lia.
    rewrite (Z.shiftr_div_pow2 (Z.shiftr v (8 * j)) 8) by lia.
    reflexivity.
Qed.

(** A stored pointer reads back as the pointer. *)
Lemma load_store_ptr (m : Mem) (dst v : Z) :
  load 8 (store 8 m dst v) dst = u64 v.
Proof.
  replace dst with (dst + 0) at 2 by lia.
  rewrite (load_store_part 8 m dst v 8 0) by lia.
  now rewrite Z.shiftr_0_r.
Qed.

(** ** Loops *)



(** A loop whose iterations all go on without changing the state goes
    through. *)
Lemma for_loop_idle {S : Type} (b : Z) (body : Z -> S -> Flow S)
    (fuel : nat) (i : Z) (s : S) :
  (forall i', i <= i' < b -> body i' s = Next s) ->
  b - i <= Z.of_nat fuel ->
  for_loop fuel (fun _ => b) body i s = Next s.
Proof.
  revert i. induction fuel as [|fuel IH]; intros i Hbody Hf; simpl.
  - destruct (Z.ltb_spec i b); [lia|reflexivity].
  - destruct (Z.ltb_spec i b); [|reflexivity].
    rewrite Hbody by lia. apply IH; [|lia]. intros i' Hi'. apply Hbody. lia.
Qed.

(** A loop that has ended within its iterations ends the same way when
    given more. *)
Lemma for_loop_more_fuel {S : Type} (bound : S -> Z) (body : Z -> S -> Flow S)
    (fuel fuel' : nat) (i : Z) (s : S) :
  (fuel <= fuel')%nat ->
  for_loop fuel bound body i s <> OutOfFuel ->
  for_loop fuel' bound body i s = for_loop fuel bound body i s.
Proof.
  revert fuel' i s. induction fuel as [|fuel IH]; intros fuel' i s Hle Hend.
  - simpl in *. destruct (i <? bound s) eqn:E; [congruence|].
    destruct fuel'; simpl; now rewrite E.
  - destruct fuel' as [|fuel']; [lia|]. simpl in *.
    destruct (i <? bound s); [|reflexivity].
    destruct (body i s); try reflexivity. apply IH; [lia|assumption].
Qed.

Lemma load2_lt (m : Mem) (a : Z) : load 2 m a <= 65535.
Proof. pose proof (load_range 2 m a). change (2 ^ (8 * Z.of_nat 2)) with 65536 in *. lia. Qed.

(** ** load_icode: what holds of every run *)

Section LoaderProperties.

Variable UTOP : Z.
Variable find_function : Mem -> Z -> Z.

(** A loadable entry that passes the two checks of the loop body is
    loaded: the first [min (p_filesz, p_memsz)] bytes of the destination
    are those found at the file offset, the rest up to [p_memsz] is zero,
    and no other byte changes.  The checks compare the ends of the ranges
    as 64-bit sums. *)
Lemma load_segment_accepted (binary size ph i : Z) (s s' : Span) :
  let m := span_mem s in
  let phi := elem ph sizeof_Proghdr i in
  let src := u64 (binary + p_offset m phi) in
  let dst := p_va m phi in
  let memsz := p_memsz m phi in
  let filesz := Z.min (p_filesz m phi) memsz in
  p_type m phi = ELF_PROG_LOAD ->
  load_segment UTOP binary size ph i s = Next s' ->
  u64 (src + filesz) <= u64 (binary + size)
  /\ u64 (dst + memsz) <= UTOP
  /\ span_mem s' = memset (memcpy m dst src filesz) (u64 (dst + filesz)) x00 (memsz - filesz)
  /\ (forall k, 0 <= k < filesz -> span_mem s' (u64 (dst + k)) = m (u64 (src + k)))
  /\ (forall k, filesz <= k < memsz -> span_mem s' (u64 (dst + k)) = x00)
  /\ (forall a, memsz <= u64 (a - dst) -> span_mem s' a = m a).
Proof.
  intros m phi src dst memsz filesz Hty Hnext.
  unfold load_segment in Hnext. fold m phi in Hnext. rewrite Hty, Z.eqb_refl in Hnext.
  fold src dst memsz filesz in Hnext.
  destruct (Z.gtb_spec (u64 (src + filesz)) (u64 (binary + size))) as [|Hsrc]; [discriminate|].
  destruct (Z.gtb_spec (u64 (dst + memsz)) UTOP) as [|Hdst]; [discriminate|].
  injection Hnext as <-. cbn [span_mem].
  pose proof (load_range 8 m (phi + 40)) as Hmem.
  pose proof (load_range 8 m (phi + 32)) as Hfile.
  pose proof (load_range 8 m (phi + 16)) as Hva.
  change (2 ^ (8 * Z.of_nat 8)) with (2 ^ 64) in *.
  fold (p_memsz m phi) in Hmem. fold (p_filesz m phi) in Hfile. fold (p_va m phi) in Hva.
  fold memsz in Hmem. fold dst in Hva.
  assert (Hfs : 0 <= filesz <= memsz) by (unfold filesz; lia).
  repeat split; try assumption.
  - intros k Hk. rewrite memset_outside.
    + apply memcpy_inside; lia.
    + unfold u64, wrap. rewrite Zminus_mod_idemp_l, Zminus_mod_idemp_r.
      replace (dst + k - (dst + filesz)) with (k - filesz) by lia.
      fold (wrap 64 (k - filesz)). fold (u64 (k - filesz)).
      rewrite u64_negative by lia. lia.
  - intros k Hk.
    replace (u64 (dst + k)) with (u64 (u64 (dst + filesz) + (k - filesz))).
    + apply memset_inside; lia.
    + unfold u64, wrap. rewrite Zplus_mod_idemp_l. f_equal. lia.
  - intros a Ha. rewrite memset_outside.
    + apply memcpy_outside. lia.
    + unfold u64, wrap in *. rewrite Zminus_mod_idemp_r.
      replace (a - (dst + filesz)) with (a - dst - filesz) by lia.
      pose proof (Z.mod_pos_bound (a - dst) (2 ^ 64) eq_refl) as Hb.
      replace ((a - dst - filesz) mod 2 ^ 64) with ((a - dst) mod 2 ^ 64 - filesz); [lia|].
      symmetry. rewrite <- Zminus_mod_idemp_l. apply Z.mod_small. lia.
Qed.

(** When the sums do not wrap, the checks of an accepted entry bound the
    source range by the buffer and the destination range by [UTOP]. *)
Lemma load_segment_checked (binary size ph i : Z) (s s' : Span) :
  let m := span_mem s in
  let phi := elem ph sizeof_Proghdr i in
  let filesz := Z.min (p_filesz m phi) (p_memsz m phi) in
  p_type m phi = ELF_PROG_LOAD ->
  load_segment UTOP binary size ph i s = Next s' ->
  0 <= binary -> 0 <= size -> binary + size < 2 ^ 64 ->
  binary + p_offset m phi + filesz < 2 ^ 64 ->
  p_va m phi + p_memsz m phi < 2 ^ 64 ->
  p_offset m phi + filesz <= size /\ p_va m phi + p_memsz m phi <= UTOP.
Proof.
  intros m phi filesz Hty Hnext Hb Hs Hbs Hsrc Hdst.
  destruct (load_segment_accepted binary size ph i s s' Hty Hnext) as (H1 & H2 & _).
  fold m phi filesz in H1, H2.
  pose proof (load_range 8 m (phi + 8)) as Hoff.
  pose proof (load_range 8 m (phi + 40)) as Hmem.
  pose proof (load_range 8 m (phi + 32)) as Hfile.
  pose proof (load_range 8 m (phi + 16)) as Hva.
  change (2 ^ (8 * Z.of_nat 8)) with (2 ^ 64) in *.
  fold (p_offset m phi) in Hoff. fold (p_memsz m phi) in Hmem.
  fold (p_filesz m phi) in Hfile. fold (p_va m phi) in Hva.
  assert (Hfs : 0 <= filesz) by (unfold filesz; lia).
  rewrite (u64_small (binary + p_offset m phi)) in H1 by lia.
  rewrite !u64_small in H1 by lia. rewrite u64_small in H2 by lia. lia.
Qed.

(** An entry that fails a check is rejected before any byte is written. *)
Lemma load_segment_rejected (binary size ph i : Z) (s s' : Span) (r : Ret) :
  load_segment UTOP binary size ph i s = Return r s' ->
  r = Failure E_INVALID_EXE /\ span_mem s' = span_mem s.
Proof.
  unfold load_segment. intros H.
  destruct (_ =? _); [|discriminate].
  destruct (_ >? _); [now injection H as <- <-|].
  destruct (_ >? _); [now injection H as <- <-|discriminate].
Qed.


(** The checks on the headers, one by one, in the arithmetic of the
    code: sums of offsets and sizes are 64-bit sums. *)
Lemma bad_header_true_iff (m : Mem) (binary size : Z) :
  let sh := u64 (binary + e_shoff m binary) in
  let shstr_hdr := elem sh sizeof_Secthdr (e_shstrndx m binary) in
  let ph := u64 (binary + e_phoff m binary) in
  bad_header m binary size = true
  <-> (size < sizeof_Elf
       \/ e_magic m binary <> ELF_MAGIC
       \/ e_elf 0 m binary <> 2
       \/ e_elf 1 m binary <> 1
       \/ e_elf 2 m binary <> 1
       \/ e_type m binary <> ET_EXEC
       \/ e_machine m binary <> 0x3E
       \/ e_ehsize m binary < sizeof_Elf
       \/ e_shentsize m binary <> sizeof_Secthdr
       \/ e_phentsize m binary <> sizeof_Proghdr
       \/ e_shnum m binary <= e_shstrndx m binary
       \/ u64 (binary + size) < elem sh sizeof_Secthdr (e_shnum m binary)
       \/ sh_type m shstr_hdr <> ELF_SHT_STRTAB
       \/ size < u64 (sh_offset m shstr_hdr + sh_size m shstr_hdr)
       \/ sh_size m shstr_hdr = 0
       \/ load8 m (u64 (binary + u64 (sh_offset m shstr_hdr + sh_size m shstr_hdr - 1))) <> 0
       \/ u64 (binary + size) < elem ph sizeof_Proghdr (e_phnum m binary)).
Proof.
  intros sh shstr_hdr ph. unfold bad_header. fold sh. fold shstr_hdr. fold ph.
  destruct (Z.ltb_spec size sizeof_Elf); [intuition|].
  destruct (Z.eqb_spec (e_magic m binary) ELF_MAGIC); cbn [negb orb]; [|intuition].
  destruct (Z.eqb_spec (e_elf 0 m binary) 2); cbn [negb orb]; [|intuition].
  destruct (Z.eqb_spec (e_elf 1 m binary) 1); cbn [negb orb]; [|intuition].
  destruct (Z.eqb_spec (e_elf 2 m binary) 1); cbn [negb orb]; [|intuition].
  destruct (Z.eqb_spec (e_type m binary) ET_EXEC); cbn [negb orb]; [|intuition].
  destruct (Z.eqb_spec (e_machine m binary) 0x3E); cbn [negb orb]; [|intuition].
  destruct (Z.ltb_spec (e_ehsize m binary) sizeof_Elf); [intuition|].
  destruct (Z.eqb_spec (e_shentsize m binary) sizeof_Secthdr); cbn [negb]; [|intuition].
  destruct (Z.eqb_spec (e_phentsize m binary) sizeof_Proghdr); cbn [negb]; [|intuition].
  destruct (Z.geb_spec (e_shstrndx m binary) (e_shnum m binary)); [intuition|].
  destruct (Z.gtb_spec (elem sh sizeof_Secthdr (e_shnum m binary)) (u64 (binary + size)));
    [intuition|].
  destruct (Z.eqb_spec (sh_type m shstr_hdr) ELF_SHT_STRTAB); cbn [negb]; [|intuition].
  destruct (Z.gtb_spec (u64 (sh_offset m shstr_hdr + sh_size m shstr_hdr)) size); [intuition|].
  destruct (Z.eqb_spec (sh_size m shstr_hdr) 0); [intuition|].
  destruct (Z.eqb_spec
              (load8 m (u64 (binary + u64 (sh_offset m shstr_hdr + sh_size m shstr_hdr - 1)))) 0);
    cbn [negb]; [|intuition].
  destruct (Z.gtb_spec (elem ph sizeof_Proghdr (e_phnum m binary)) (u64 (binary + size)));
    [intuition|].
  split; [discriminate|]. intuition; try lia; try congruence.
Qed.

(** A failure of the checks on the headers leaves the environment and
    the memory as they were. *)
Lemma load_icode_bad_header (fuel : nat) (env : Env) (m : Mem) (binary size : Z) :
  bad_header m binary size = true ->
  load_icode UTOP find_function fuel env m binary size
  = Some (Failure E_INVALID_EXE, env, m).
Proof. intros H. unfold load_icode. now rewrite H. Qed.

(** After the segments are loaded, a span that is empty or reaches
    [UTOP], or an entry point outside the span, is rejected; the memory is
    then the one the accepted segments left. *)
Lemma load_icode_bad_span (fuel : nat) (env : Env) (m : Mem) (binary size : Z) (s : Span) :
  bad_header m binary size = false ->
  load_segments UTOP fuel m binary size (u64 (binary + e_phoff m binary)) = Next s ->
  max_addr s <= min_addr s \/ UTOP <= max_addr s
  \/ max_addr s <= e_entry (span_mem s) binary
  \/ e_entry (span_mem s) binary < min_addr s ->
  load_icode UTOP find_function fuel env m binary size
  = Some (Failure E_INVALID_EXE, env, span_mem s).
Proof.
  intros Hh Hseg Hbad. unfold load_icode. rewrite Hh, Hseg.
  destruct (Z.leb_spec (max_addr s) (min_addr s)); [reflexivity|].
  destruct (Z.geb_spec (max_addr s) UTOP); [reflexivity|]. cbn [orb].
  destruct (Z.geb_spec (e_entry (span_mem s) binary) (max_addr s)); [reflexivity|].
  destruct (Z.ltb_spec (e_entry (span_mem s) binary) (min_addr s)); [reflexivity|].
  lia.
Qed.

(** A segment that fails a check makes [load_icode] fail; the memory is
    then the one the segments accepted before it left. *)
Lemma load_icode_bad_segment (fuel : nat) (env : Env) (m : Mem) (binary size : Z)
    (r : Ret) (s : Span) :
  bad_header m binary size = false ->
  load_segments UTOP fuel m binary size (u64 (binary + e_phoff m binary)) = Return r s ->
  load_icode UTOP find_function fuel env m binary size
  = Some (Failure E_INVALID_EXE, env, span_mem s).
Proof. intros Hh Hseg. unfold load_icode. now rewrite Hh, Hseg. Qed.



(** More iterations do not change a result of [bind_functions]. *)
Lemma bind_functions_more_fuel (fuel fuel' : nat) (m : Mem) (binary size a b : Z) :
  (fuel <= fuel')%nat ->
  bind_functions find_function fuel m binary size a b <> OutOfFuel ->
  bind_functions find_function fuel' m binary size a b
  = bind_functions find_function fuel m binary size a b.
Proof.
  intros Hle Hend. unfold bind_functions in *.
  destruct (_ >? _); [reflexivity|]. unfold find_strtab in *.
  match type of Hend with
  | context [for_loop fuel ?bd ?body ?i ?st] =>
      assert (Hscan : for_loop fuel' bd body i st = for_loop fuel bd body i st);
      [apply for_loop_more_fuel; [assumption|];
       intros E; rewrite E in Hend; now apply Hend|]
  end.
  rewrite Hscan.
  match goal with |- context [for_loop fuel ?bd ?body ?i ?st] =>
    destruct (for_loop fuel bd body i st) as [t|t|r t|] end; try reflexivity.
  - destruct (_ =? _); [reflexivity|].
    destruct (_ >? _); [reflexivity|]. destruct (_ =? _); [reflexivity|].
    destruct (negb _); [reflexivity|].
    match type of Hend with
    | context [for_loop fuel ?bd ?body ?i ?st] =>
        assert (Hsec : for_loop fuel' bd body i st = for_loop fuel bd body i st);
        [apply for_loop_more_fuel; [assumption|];
         intros E; rewrite E in Hend; now apply Hend|]
    end.
    now rewrite Hsec.
  - destruct (_ =? _); [reflexivity|].
    destruct (_ >? _); [reflexivity|]. destruct (_ =? _); [reflexivity|].
    destruct (negb _); [reflexivity|].
    match type of Hend with
    | context [for_loop fuel ?bd ?body ?i ?st] =>
        assert (Hsec : for_loop fuel' bd body i st = for_loop fuel bd body i st);
        [apply for_loop_more_fuel; [assumption|];
         intros E; rewrite E in Hend; now apply Hend|]
    end.
    now rewrite Hsec.
Qed.

(** More iterations do not change a result of [load_icode]. *)
Lemma load_icode_more_fuel (fuel fuel' : nat) (env : Env) (m : Mem) (binary size : Z)
    (r : Ret * Env * Mem) :
  (fuel <= fuel')%nat ->
  load_icode UTOP find_function fuel env m binary size = Some r ->
  load_icode UTOP find_function fuel' env m binary size = Some r.
Proof.
  intros Hle Hr. unfold load_icode in *.
  destruct (bad_header m binary size); [assumption|]. unfold load_segments in *.
  match type of Hr with
  | context [for_loop fuel ?bd ?body ?i ?st] =>
      assert (Hseg : for_loop fuel' bd body i st = for_loop fuel bd body i st);
      [apply for_loop_more_fuel; [assumption|];
       intros E; rewrite E in Hr; discriminate|]
  end.
  rewrite Hseg.
  match goal with |- context [for_loop fuel ?bd ?body ?i ?st] =>
    destruct (for_loop fuel bd body i st) as [s|s|r0 s|] end; try assumption.
  - destruct (_ || _); [assumption|]. destruct (_ || _); [assumption|].
    rewrite (bind_functions_more_fuel fuel fuel'); [assumption|assumption|].
    intros E. rewrite E in Hr. discriminate.
  - destruct (_ || _); [assumption|]. destruct (_ || _); [assumption|].
    rewrite (bind_functions_more_fuel fuel fuel'); [assumption|assumption|].
    intros E. rewrite E in Hr. discriminate.
Qed.

(** What one sees of a run is seen of any run with more iterations. *)
Lemma observe_more_fuel (fuel fuel' : nat) (env : Env) (m : Mem) (binary size : Z)
    (addrs : list Z) (x : Ret * Z * list byte) :
  (fuel <= fuel')%nat ->
  observe (load_icode UTOP find_function fuel env m binary size) addrs = Some x ->
  observe (load_icode UTOP find_function fuel' env m binary size) addrs = Some x.
Proof.
  intros Hle Hx.
  destruct (load_icode UTOP find_function fuel env m binary size) as [r|] eqn:E;
    [|discriminate].
  now rewrite (load_icode_more_fuel fuel fuel' _ _ _ _ r Hle E).
Qed.

Lemma observe_span_more_fuel (fuel fuel' : nat) (m : Mem) (binary size ph : Z)
    (addrs : list Z) (x : Z * Z * list byte) :
  (fuel <= fuel')%nat ->
  observe_span (load_segments UTOP fuel m binary size ph) addrs = Some x ->
  observe_span (load_segments UTOP fuel' m binary size ph) addrs = Some x.
Proof.
  intros Hle Hx. unfold load_segments in *.
  rewrite (for_loop_more_fuel _ _ fuel fuel'); [assumption|assumption|].
  intros E. rewrite E in Hx. discriminate.
Qed.

End LoaderProperties.

(** ** load_icode on the example images *)

(** The minimal image loads: the [0x40] bytes of the file are at the
    destination, the [0x1000 - 0x40] bytes that follow are zero, the byte
    after them is untouched, and the saved instruction pointer is the
    entry point. *)
Example minimal_image_loads (fuel : nat) :
  (1 <= fuel)%nat ->
  observe (load_icode UTOP0 find_function0 fuel zero_env minimal_mem binary0 minimal_size)
          (addr_range 0x1000000 0x1000 ++ [0x1001000])
  = Some (Success, 0x1000000,
          firstn 0x40 minimal_image ++ repeat x00 (0x1000 - 0x40) ++ [xff]).
Proof.
  intros Hfuel. apply (observe_more_fuel _ _ 1 fuel); [assumption|].
  vm_compute. reflexivity.
Qed.

(** C4, at the input where the code departs from it.  The second program
    header of the wrapping image is loadable, with destination
    [0xFFFFFFFFFFFFF000] and memory size [0x1000], so that the destination
    range ends at [2 ^ 64], above [UTOP].  The loop over the program
    headers accepts it all the same, the sum being [0] in 64-bit
    arithmetic, and zero-fills the range: the bytes at its two ends, [0xff]
    before, are [0] afterwards. *)
Theorem wrapping_segment_loaded :
  let ph := u64 (binary0 + e_phoff wrapping_mem binary0) in
  let entry := elem ph sizeof_Proghdr 1 in
  p_type wrapping_mem entry = ELF_PROG_LOAD
  /\ p_va wrapping_mem entry = 0xFFFFFFFFFFFFF000
  /\ p_memsz wrapping_mem entry = 0x1000
  /\ UTOP0 < p_va wrapping_mem entry + p_memsz wrapping_mem entry
  /\ u64 (p_va wrapping_mem entry + p_memsz wrapping_mem entry) = 0
  /\ map wrapping_mem [0xFFFFFFFFFFFFF000; 0xFFFFFFFFFFFFFFFF] = [xff; xff]
  /\ (forall fuel, (2 <= fuel)%nat ->
        observe_span (load_segments UTOP0 fuel wrapping_mem binary0 wrapping_size ph)
                     [0xFFFFFFFFFFFFF000; 0xFFFFFFFFFFFFFFFF]
        = Some (0x1000000, 0x1001000, [x00; x00])).
Proof.
  do 6 (split; [vm_compute; reflexivity|]).
  intros fuel Hfuel. apply (observe_span_more_fuel _ 2 fuel); [assumption|].
  vm_compute. reflexivity.
Qed.

(** C5, at the input where the code departs from it.  [load_icode]
    returns 0 on the wrapping image, although the destination of its
    second loadable segment exceeds [UTOP], and has by then written that
    segment above [UTOP]. *)
Theorem wrapping_image_accepted :
  let ph := u64 (binary0 + e_phoff wrapping_mem binary0) in
  let entry := elem ph sizeof_Proghdr 1 in
  p_type wrapping_mem entry = ELF_PROG_LOAD
  /\ UTOP0 < p_va wrapping_mem entry + p_memsz wrapping_mem entry
  /\ map wrapping_mem [0xFFFFFFFFFFFFF000; 0xFFFFFFFFFFFFFFFF] = [xff; xff]
  /\ (forall fuel, (2 <= fuel)%nat ->
        observe (load_icode UTOP0 find_function0 fuel zero_env
                   wrapping_mem binary0 wrapping_size)
                [0xFFFFFFFFFFFFF000; 0xFFFFFFFFFFFFFFFF]
        = Some (Success, 0x1000000, [x00; x00])).
Proof.
  do 3 (split; [vm_compute; reflexivity|]).
  intros fuel Hfuel. apply (observe_more_fuel _ _ 2 fuel); [assumption|].
  vm_compute. reflexivity.
Qed.

(** ** bind_functions *)

Lemma bindable_cond (m : Mem) (sym : Z) :
  (ELF64_ST_BIND (st_info m sym) =? STB_GLOBAL)
  && (ELF64_ST_TYPE (st_info m sym) =? STT_OBJECT)
  && (st_other m sym =? STV_DEFAULT)
  && (st_size m sym =? sizeof_ptr) = bindable m sym.
Proof. reflexivity. Qed.

(** ** Loops as folds *)

(** A loop whose iterations all go on runs its body on every index. *)
Lemma for_loop_fold {S : Type} (P : S -> Prop) (b : Z) (bound : S -> Z)
    (body : Z -> S -> Flow S) (step : S -> Z -> S) :
  (forall s, P s -> bound s = b) ->
  (forall i s, 0 <= i < b -> P s -> body i s = Next (step s i) /\ P (step s i)) ->
  forall (n fuel : nat) (i : Z) (s : S),
    0 <= i -> i + Z.of_nat n = b -> (n <= fuel)%nat -> P s ->
    for_loop fuel bound body i s = Next (fold_left step (zseq i n) s)
    /\ P (fold_left step (zseq i n) s).
Proof.
  intros Hb Hbody. induction n as [|n IH]; intros fuel i s Hi Hn Hf Hs.
  - cbn [zseq fold_left]. split; [|exact Hs].
    destruct fuel; cbn [for_loop]; rewrite (Hb s Hs);
      destruct (Z.ltb_spec i b); try lia; reflexivity.
  - destruct fuel as [|fuel]; [lia|]. cbn [for_loop zseq fold_left].
    rewrite (Hb s Hs). destruct (Z.ltb_spec i b); [|lia].
    destruct (Hbody i s ltac:(lia) Hs) as [-> Hs'].
    apply IH; [lia|lia|lia|exact Hs'].
Qed.

(** A loop of which every iteration goes on or returns [r] ends in one of
    these two ways. *)
Lemma for_loop_next_or_return {S : Type} (P : S -> Prop) (b : Z) (bound : S -> Z)
    (body : Z -> S -> Flow S) (r : Ret) :
  (forall s, P s -> bound s = b) ->
  (forall i s, 0 <= i < b -> P s ->
     (exists s', body i s = Next s' /\ P s') \/ (exists s', body i s = Return r s')) ->
  forall (n fuel : nat) (i : Z) (s : S),
    0 <= i -> i + Z.of_nat n = b -> (n <= fuel)%nat -> P s ->
    (exists s', for_loop fuel bound body i s = Next s' /\ P s')
    \/ (exists s', for_loop fuel bound body i s = Return r s').
Proof.
  intros Hb Hbody. induction n as [|n IH]; intros fuel i s Hi Hn Hf Hs.
  - left. exists s. split; [|exact Hs].
    destruct fuel; cbn [for_loop]; rewrite (Hb s Hs);
      destruct (Z.ltb_spec i b); try lia; reflexivity.
  - destruct fuel as [|fuel]; [lia|]. cbn [for_loop].
    rewrite (Hb s Hs). destruct (Z.ltb_spec i b); [|lia].
    destruct (Hbody i s ltac:(lia) Hs) as [(s' & -> & Hs')|(s' & ->)].
    + apply IH; [lia|lia|lia|exact Hs'].
    + right. now exists s'.
Qed.

(** Such a loop returns [r] when one of its iterations does, in whichever
    state it is reached. *)
Lemma for_loop_returns {S : Type} (P : S -> Prop) (b : Z) (bound : S -> Z)
    (body : Z -> S -> Flow S) (r : Ret) (k : Z) :
  (forall s, P s -> bound s = b) ->
  (forall i s, 0 <= i < b -> P s ->
     (exists s', body i s = Next s' /\ P s') \/ (exists s', body i s = Return r s')) ->
  (forall s, P s -> exists s', body k s = Return r s') ->
  forall (n fuel : nat) (i : Z) (s : S),
    0 <= i -> i + Z.of_nat n = b -> (n <= fuel)%nat -> P s -> i <= k < b ->
    exists s', for_loop fuel bound body i s = Return r s'.
Proof.
  intros Hb Hbody Hk. induction n as [|n IH]; intros fuel i s Hi Hn Hf Hs Hik.
  - lia.
  - destruct fuel as [|fuel]; [lia|]. cbn [for_loop].
    rewrite (Hb s Hs). destruct (Z.ltb_spec i b); [|lia].
    destruct (Z.eq_dec i k) as [->|Hne].
    + destruct (Hk s Hs) as (s' & ->). now exists s'.
    + destruct (Hbody i s ltac:(lia) Hs) as [(s' & -> & Hs')|(s' & ->)].
      * apply IH; [lia|lia|lia|exact Hs'|lia].
      * now exists s'.
Qed.

(** A search loop that leaves the state alone until it breaks. *)
Lemma for_loop_break_at {S : Type} (b : Z) (body : Z -> S -> Flow S) (t : Z) (s s' : S) :
  (forall i, 0 <= i < t -> body i s = Next s) ->
  body t s = Break s' ->
  forall (n fuel : nat) (i : Z),
    0 <= i -> i + Z.of_nat n = t -> (n < fuel)%nat -> t < b ->
    for_loop fuel (fun _ => b) body i s = Next s'.
Proof.
  intros Hbefore Hat. induction n as [|n IH]; intros fuel i Hi Hn Hf Ht.
  - destruct fuel as [|fuel]; [lia|]. cbn [for_loop].
    destruct (Z.ltb_spec i b); [|lia].
    replace i with t by lia. now rewrite Hat.
  - destruct fuel as [|fuel]; [lia|]. cbn [for_loop].
    destruct (Z.ltb_spec i b); [|lia].
    rewrite (Hbefore i ltac:(lia)). apply IH; lia.
Qed.

Lemma zseq_In (k : Z) (n : nat) (i : Z) : In k (zseq i n) <-> i <= k < i + Z.of_nat n.
Proof.
  revert i. induction n as [|n IH]; intros i; cbn [zseq In].
  - lia.
  - rewrite IH. lia.
Qed.

Lemma fold_left_flat_map {A B C : Type} (f : A -> C -> A) (g : B -> list C)
    (l : list B) (a : A) :
  fold_left f (flat_map g l) a = fold_left (fun a b => fold_left f (g b) a) l a.
Proof.
  revert a. induction l as [|b l IH]; intros a; cbn [flat_map fold_left].
  - reflexivity.
  - now rewrite fold_left_app, IH.
Qed.

Lemma fold_left_map_list {A B C : Type} (f : A -> C -> A) (g : B -> C) (l : list B) (a : A) :
  fold_left f (map g l) a = fold_left (fun a b => f a (g b)) l a.
Proof.
  revert a. induction l as [|b l IH]; intros a; cbn [map fold_left];
    [reflexivity|apply IH].
Qed.

(** ** Reading the image while the span is written *)

Section BinderRun.

Variable ff : Mem -> Z -> Z.
Variables (m : Mem) (binary size image_start image_end t : Z).
Hypothesis Hlay : binder_layout m binary size image_start image_end t.

Lemma layout_buffer :
  (0 <= binary /\ sizeof_Elf <= size /\ binary + size < 2 ^ 64)
  /\ image_end + 8 <= 2 ^ 64
  /\ (binary + size <= image_start \/ image_end + 8 <= binary).
Proof. destruct Hlay as (H1 & (H2 & H3) & _). auto. Qed.

(** A read inside the buffer does not see the writes to the span. *)
Lemma load8_same (mm : Mem) (a : Z) :
  same_outside image_start (image_end + 8) m mm ->
  binary <= a < binary + size ->
  load8 mm a = load8 m a.
Proof.
  intros Hmm Ha. destruct layout_buffer as ((H0 & _ & H1) & H2 & H3).
  unfold load8. rewrite u64_small by lia. rewrite Hmm; [reflexivity|lia|lia].
Qed.

Lemma load_same (mm : Mem) (n : nat) (a : Z) :
  same_outside image_start (image_end + 8) m mm ->
  binary <= a -> a + Z.of_nat n <= binary + size ->
  load n mm a = load n m a.
Proof.
  intros Hmm. revert a. induction n as [|n IH]; intros a Ha Hn; cbn [load].
  - reflexivity.
  - rewrite (load8_same mm a Hmm) by lia. rewrite IH by lia. reflexivity.
Qed.

Lemma shdr_value (i : Z) :
  0 <= i < e_shnum m binary ->
  shdr m binary i = binary + e_shoff m binary + sizeof_Secthdr * i
  /\ binary <= shdr m binary i
  /\ shdr m binary i + sizeof_Secthdr <= binary + size.
Proof.
  intros Hi. destruct Hlay as ((H0 & _ & H1) & _ & Hsh & _).
  pose proof (load_range 8 m (binary + 40)) as Hoff. fold (e_shoff m binary) in Hoff.
  unfold sizeof_Secthdr in *.
  assert (Hv : shdr m binary i = binary + e_shoff m binary + 64 * i).
  { unfold shdr, elem, sizeof_Secthdr. rewrite (u64_small (binary + e_shoff m binary)) by lia.
    apply u64_small. lia. }
  rewrite Hv. lia.
Qed.

Lemma e_shnum_same (mm : Mem) :
  same_outside image_start (image_end + 8) m mm ->
  e_shnum mm binary = e_shnum m binary.
Proof.
  intros Hmm. destruct layout_buffer as ((H0 & Hs & H1) & _).
  unfold e_shnum, sizeof_Elf in *. apply load_same; [exact Hmm|lia|]. cbn. lia.
Qed.

Lemma shdr_same (mm : Mem) (i : Z) :
  same_outside image_start (image_end + 8) m mm ->
  0 <= i < e_shnum m binary ->
  sh_type mm (shdr m binary i) = sh_type m (shdr m binary i)
  /\ sh_offset mm (shdr m binary i) = sh_offset m (shdr m binary i)
  /\ sh_size mm (shdr m binary i) = sh_size m (shdr m binary i)
  /\ sh_entsize mm (shdr m binary i) = sh_entsize m (shdr m binary i).
Proof.
  intros Hmm Hi. destruct (shdr_value i Hi) as (_ & Hlo & Hhi).
  unfold sizeof_Secthdr in Hhi.
  unfold sh_type, sh_offset, sh_size, sh_entsize.
  repeat split; apply load_same; try exact Hmm; cbn; lia.
Qed.

(** The symbols of a symbol table lie in the buffer. *)
Lemma symbol_value (i j : Z) :
  0 <= i < e_shnum m binary ->
  sh_type m (shdr m binary i) = ELF_SHT_SYMTAB ->
  0 <= j < sh_size m (shdr m binary i) / sizeof_Sym ->
  let sym := elem (u64 (binary + sh_offset m (shdr m binary i))) sizeof_Sym j in
  binary <= sym /\ sym + sizeof_Sym <= binary + size.
Proof.
  intros Hi Hty Hj sym.
  destruct Hlay as ((H0 & _ & H1) & _ & _ & _ & _ & _ & _ & _ & _ & Hsym).
  destruct (Hsym i Hi Hty) as [Hin _].
  pose proof (load_range 8 m (shdr m binary i + 24)) as Hoff.
  fold (sh_offset m (shdr m binary i)) in Hoff.
  pose proof (load_range 8 m (shdr m binary i + 32)) as Hsz.
  fold (sh_size m (shdr m binary i)) in Hsz.
  unfold sizeof_Sym in *.
  assert (24 * (sh_size m (shdr m binary i) / 24) <= sh_size m (shdr m binary i))
    by (apply Z.mul_div_le; lia).
  assert (Hv : sym = binary + sh_offset m (shdr m binary i) + 24 * j).
  { unfold sym, elem. rewrite (u64_small (binary + _)) by lia. apply u64_small. lia. }
  rewrite Hv. lia.
Qed.

Lemma symbol_same (mm : Mem) (sym : Z) :
  same_outside image_start (image_end + 8) m mm ->
  binary <= sym -> sym + sizeof_Sym <= binary + size ->
  bindable mm sym = bindable m sym
  /\ st_name mm sym = st_name m sym
  /\ st_value mm sym = st_value m sym.
Proof.
  intros Hmm Hlo Hhi. unfold sizeof_Sym in Hhi.
  unfold bindable, st_info, st_other, st_size, st_name, st_value.
  rewrite !(load8_same mm) by (try exact Hmm; lia).
  rewrite !(load_same mm) by (try exact Hmm; cbn; lia).
  repeat split.
Qed.


Lemma store_same_outside (mm : Mem) (v addr : Z) :
  same_outside image_start (image_end + 8) m mm ->
  0 <= v -> image_start <= v <= image_end ->
  same_outside image_start (image_end + 8) m (store sizeof_ptr mm v addr).
Proof.
  intros Hmm Hv Hin a Ha Hout. destruct layout_buffer as (_ & Hend & _).
  rewrite store_outside; [now apply Hmm|].
  unfold sizeof_ptr. destruct Hout as [Hout|Hout].
  - rewrite u64_negative by lia. lia.
  - rewrite u64_small by lia. lia.
Qed.

Lemma bind_one_same_outside (mm : Mem) (sym : Z) :
  same_outside image_start (image_end + 8) m mm ->
  (bindable m sym = true -> value_in_span m image_start image_end sym) ->
  same_outside image_start (image_end + 8) m (bind_one ff m binary t mm sym).
Proof.
  intros Hmm Hin. unfold bind_one. destruct (bindable m sym); [|exact Hmm].
  cbv zeta. destruct (_ =? 0); [exact Hmm|].
  apply store_same_outside; [exact Hmm| |now apply Hin].
  pose proof (load_range 8 m (sym + 8)) as Hv. unfold st_value. lia.
Qed.

Lemma strtab_hdr_size_same (mm : Mem) :
  same_outside image_start (image_end + 8) m mm ->
  sh_size mm (shdr m binary t) = sh_size m (shdr m binary t).
Proof.
  intros Hmm. destruct Hlay as (_ & _ & _ & _ & Ht & _).
  exact (proj1 (proj2 (proj2 (shdr_same mm t Hmm Ht)))).
Qed.

(** One iteration of the loop over the symbols, on a symbol of the
    buffer, while the span is being written. *)
Lemma bind_symbol_same (mm : Mem) (syms j : Z) :
  same_outside image_start (image_end + 8) m mm ->
  binary <= elem syms sizeof_Sym j ->
  elem syms sizeof_Sym j + sizeof_Sym <= binary + size ->
  let sym := elem syms sizeof_Sym j in
  bind_symbol ff syms (strtab_strings m binary t) (shdr m binary t)
    image_start image_end j mm
  = if bindable m sym
       && ((symbol_name m binary t sym
            >? u64 (strtab_strings m binary t + sh_size m (shdr m binary t)))
           || (st_value m sym <? image_start) || (st_value m sym >? image_end))
    then Return (Failure E_INVALID_EXE) mm
    else Next (bind_one ff m binary t mm sym).
Proof.
  intros Hmm Hlo Hhi sym.
  destruct (symbol_same mm sym Hmm Hlo Hhi) as (Hb & Hn & Hv).
  unfold bind_symbol. cbv zeta. fold sym.
  rewrite bindable_cond, Hb, Hn, Hv, (strtab_hdr_size_same mm Hmm).
  unfold bind_one. fold (symbol_name m binary t sym).
  destruct (bindable m sym); cbn [andb]; [|reflexivity].
  destruct (_ >? _); cbn [orb]; [reflexivity|].
  destruct (_ || _); [reflexivity|]. cbv zeta.
  destruct (_ =? 0); reflexivity.
Qed.

(** The loop over the symbols of a symbol table. *)
Lemma symbol_loop_section (i : Z) :
  0 <= i < e_shnum m binary ->
  sh_type m (shdr m binary i) = ELF_SHT_SYMTAB ->
  section_symbols m binary i
  = map (elem (u64 (binary + sh_offset m (shdr m binary i))) sizeof_Sym)
        (zseq 0 (Z.to_nat (sh_size m (shdr m binary i) / sizeof_Sym))).
Proof. intros Hi Hty. unfold section_symbols. now rewrite Hty, Z.eqb_refl. Qed.

Lemma nsyms_nonneg (i : Z) : 0 <= sh_size m (shdr m binary i) / sizeof_Sym.
Proof.
  pose proof (load_range 8 m (shdr m binary i + 32)) as Hsz.
  fold (sh_size m (shdr m binary i)) in Hsz.
  apply Z.div_pos; [lia|unfold sizeof_Sym; lia].
Qed.

Lemma symbol_loop_binds (mm : Mem) (i : Z) :
  same_outside image_start (image_end + 8) m mm ->
  0 <= i < e_shnum m binary ->
  sh_type m (shdr m binary i) = ELF_SHT_SYMTAB ->
  (forall sym, In sym (section_symbols m binary i) -> bindable m sym = true ->
     name_in_table m binary t sym /\ value_in_span m image_start image_end sym) ->
  let nsyms := sh_size m (shdr m binary i) / sizeof_Sym in
  for_loop (Z.to_nat nsyms) (fun _ => nsyms)
    (bind_symbol ff (u64 (binary + sh_offset m (shdr m binary i)))
       (strtab_strings m binary t) (shdr m binary t) image_start image_end) 0 mm
  = Next (fold_left (bind_one ff m binary t) (section_symbols m binary i) mm)
  /\ same_outside image_start (image_end + 8) m
       (fold_left (bind_one ff m binary t) (section_symbols m binary i) mm).
Proof.
  intros Hmm Hi Hty Hok nsyms. pose proof (nsyms_nonneg i) as Hn. fold nsyms in Hn.
  rewrite (symbol_loop_section i Hi Hty) in *. fold nsyms in Hok |- *.
  rewrite fold_left_map_list.
  apply (for_loop_fold (same_outside image_start (image_end + 8) m) nsyms);
    [reflexivity| |lia|lia|lia|exact Hmm].
  intros j mm' Hj Hmm'.
  destruct (symbol_value i j Hi Hty Hj) as [Hlo Hhi].
  assert (Hin : In (elem (u64 (binary + sh_offset m (shdr m binary i))) sizeof_Sym j)
                   (map (elem (u64 (binary + sh_offset m (shdr m binary i))) sizeof_Sym)
                      (zseq 0 (Z.to_nat nsyms)))).
  { apply in_map. apply zseq_In. lia. }
  specialize (Hok _ Hin).
  rewrite (bind_symbol_same mm' _ j Hmm' Hlo Hhi). cbv zeta.
  split.
  - destruct (bindable m _) eqn:Hb; cbn [andb]; [|reflexivity].
    destruct (Hok eq_refl) as [Hname Hval]. unfold name_in_table, value_in_span in *.
    destruct (Z.gtb_spec (symbol_name m binary t
                (elem (u64 (binary + sh_offset m (shdr m binary i))) sizeof_Sym j))
                (u64 (strtab_strings m binary t + sh_size m (shdr m binary t)))); [lia|].
    destruct (Z.ltb_spec (st_value m
                (elem (u64 (binary + sh_offset m (shdr m binary i))) sizeof_Sym j))
                image_start); [lia|].
    destruct (Z.gtb_spec (st_value m
                (elem (u64 (binary + sh_offset m (shdr m binary i))) sizeof_Sym j))
                image_end); [lia|].
    reflexivity.
  - apply bind_one_same_outside; [exact Hmm'|]. intros Hb. now apply Hok.
Qed.

(** Each iteration of the loop over the symbols goes on, leaving the
    bytes outside the span as they were, or returns the error. *)
Lemma bind_symbol_next_or_return (mm : Mem) (i j : Z) :
  same_outside image_start (image_end + 8) m mm ->
  0 <= i < e_shnum m binary ->
  sh_type m (shdr m binary i) = ELF_SHT_SYMTAB ->
  0 <= j < sh_size m (shdr m binary i) / sizeof_Sym ->
  let body := bind_symbol ff (u64 (binary + sh_offset m (shdr m binary i)))
                (strtab_strings m binary t) (shdr m binary t) image_start image_end in
  (exists mm', body j mm = Next mm' /\ same_outside image_start (image_end + 8) m mm')
  \/ (exists mm', body j mm = Return (Failure E_INVALID_EXE) mm').
Proof.
  intros Hmm Hi Hty Hj body. unfold body.
  destruct (symbol_value i j Hi Hty Hj) as [Hlo Hhi].
  rewrite (bind_symbol_same mm _ j Hmm Hlo Hhi). cbv zeta.
  set (sym := elem (u64 (binary + sh_offset m (shdr m binary i))) sizeof_Sym j).
  destruct (bindable m sym) eqn:Hb; cbn [andb].
  - destruct (_ >? _); cbn [orb]; [right; now eexists|].
    destruct (Z.ltb_spec (st_value m sym) image_start); cbn [orb]; [right; now eexists|].
    destruct (Z.gtb_spec (st_value m sym) image_end); [right; now eexists|].
    left. eexists. split; [reflexivity|].
    apply bind_one_same_outside; [exact Hmm|]. intros _. unfold value_in_span. lia.
  - left. eexists. split; [reflexivity|].
    apply bind_one_same_outside; [exact Hmm|]. congruence.
Qed.

(** The body of the loop over the sections, while the span is being
    written: the checks on a symbol table pass, and its symbols are
    looped over. *)
Lemma bind_section_same (mm : Mem) (i : Z) :
  same_outside image_start (image_end + 8) m mm ->
  0 <= i < e_shnum m binary ->
  bind_section ff binary size (u64 (binary + e_shoff m binary))
    (strtab_strings m binary t) (shdr m binary t) image_start image_end i mm
  = if sh_type m (shdr m binary i) =? ELF_SHT_SYMTAB then
      for_loop (Z.to_nat (sh_size m (shdr m binary i) / sizeof_Sym))
        (fun _ => sh_size m (shdr m binary i) / sizeof_Sym)
        (bind_symbol ff (u64 (binary + sh_offset m (shdr m binary i)))
           (strtab_strings m binary t) (shdr m binary t) image_start image_end) 0 mm
    else Next mm.
Proof.
  intros Hmm Hi. destruct (shdr_same mm i Hmm Hi) as (Hty & Hoff & Hsz & Hent).
  unfold bind_section. cbv zeta.
  change (elem (u64 (binary + e_shoff m binary)) sizeof_Secthdr i) with (shdr m binary i).
  rewrite Hty, Hoff, Hsz, Hent.
  destruct (Z.eqb_spec (sh_type m (shdr m binary i)) ELF_SHT_SYMTAB) as [Hsym|]; [|reflexivity].
  destruct Hlay as ((H0 & _ & H1) & _ & _ & _ & _ & _ & _ & _ & _ & Hsymtab).
  destruct (Hsymtab i Hi Hsym) as [Hin Hentsize].
  pose proof (load_range 8 m (shdr m binary i + 24)) as Hoffr.
  fold (sh_offset m (shdr m binary i)) in Hoffr.
  pose proof (load_range 8 m (shdr m binary i + 32)) as Hszr.
  fold (sh_size m (shdr m binary i)) in Hszr.
  rewrite (u64_small (sh_offset m (shdr m binary i) + sh_size m (shdr m binary i))) by lia.
  destruct (Z.gtb_spec (sh_offset m (shdr m binary i) + sh_size m (shdr m binary i)) size); [lia|].
  rewrite Hentsize, Z.eqb_refl. reflexivity.
Qed.

(** The search for the string table finds the section of index [t]. *)
Lemma find_strtab_finds (fuel : nat) :
  e_shnum m binary <= Z.of_nat fuel ->
  find_strtab fuel m binary (u64 (binary + e_shoff m binary))
    (u64 (binary + sh_offset m (shdr m binary (e_shstrndx m binary))))
  = Next t.
Proof.
  intros Hfuel. destruct Hlay as (_ & _ & _ & _ & Ht & Hnames & (Hty & Hcmp) & Hfirst & _).
  unfold find_strtab.
  apply (for_loop_break_at (e_shnum m binary) _ t strtab_none t) with (n := Z.to_nat t);
    [| |lia|lia|lia|lia].
  - intros i Hi. unfold find_strtab_body.
    change (elem (u64 (binary + e_shoff m binary)) sizeof_Secthdr i) with (shdr m binary i).
    change (elem (u64 (binary + e_shoff m binary)) sizeof_Secthdr (e_shstrndx m binary))
      with (shdr m binary (e_shstrndx m binary)).
    specialize (Hnames i ltac:(lia)). specialize (Hfirst i Hi).
    destruct (Z.gtb_spec (sh_name m (shdr m binary i))
                (sh_size m (shdr m binary (e_shstrndx m binary)))); [lia|].
    destruct (Z.eqb_spec (sh_type m (shdr m binary i)) ELF_SHT_STRTAB) as [Hs|]; [|reflexivity].
    now rewrite (Hfirst Hs).
  - unfold find_strtab_body.
    change (elem (u64 (binary + e_shoff m binary)) sizeof_Secthdr t) with (shdr m binary t).
    change (elem (u64 (binary + e_shoff m binary)) sizeof_Secthdr (e_shstrndx m binary))
      with (shdr m binary (e_shstrndx m binary)).
    specialize (Hnames t ltac:(lia)).
    destruct (Z.gtb_spec (sh_name m (shdr m binary t))
                (sh_size m (shdr m binary (e_shstrndx m binary)))); [lia|].
    now rewrite Hty, Z.eqb_refl, Hcmp.
Qed.

(** [bind_functions] on such an image comes to its loop over the
    sections. *)
Lemma bind_functions_reaches_loop (fuel : nat) :
  e_shnum m binary <= Z.of_nat fuel ->
  bind_functions ff fuel m binary size image_start image_end
  = match for_loop fuel (fun m' => e_shnum m' binary)
            (bind_section ff binary size (u64 (binary + e_shoff m binary))
               (strtab_strings m binary t) (shdr m binary t) image_start image_end) 0 m with
    | Next m' | Break m' => Return Success m'
    | Return r m' => Return r m'
    | OutOfFuel => OutOfFuel
    end.
Proof.
  intros Hfuel. pose proof (find_strtab_finds fuel Hfuel) as Hfind.
  destruct Hlay as (_ & _ & _ & Hshstr & Ht & _ & _ & _ & (Hstr & Hnz & Hnul) & _).
  unfold bind_functions. cbv zeta.
  change (elem (u64 (binary + e_shoff m binary)) sizeof_Secthdr (e_shstrndx m binary))
    with (shdr m binary (e_shstrndx m binary)).
  destruct (Z.gtb_spec (u64 (u64 (binary + sh_offset m (shdr m binary (e_shstrndx m binary)))
                             + sh_size m (shdr m binary (e_shstrndx m binary))))
              (u64 (binary + size))); [lia|].
  rewrite Hfind.
  pose proof (load2_lt m (binary + 60)) as Hnum. fold (e_shnum m binary) in Hnum.
  destruct (Z.eqb_spec t strtab_none) as [E|_].
  { exfalso. unfold strtab_none in E. rewrite u64_negative in E by lia. lia. }
  change (elem (u64 (binary + e_shoff m binary)) sizeof_Secthdr t) with (shdr m binary t).
  change (u64 (binary + sh_offset m (shdr m binary t))) with (strtab_strings m binary t).
  destruct (Z.gtb_spec (u64 (strtab_strings m binary t + sh_size m (shdr m binary t)))
              (u64 (binary + size))); [lia|].
  destruct (Z.eqb_spec (sh_size m (shdr m binary t)) 0); [contradiction|].
  rewrite Hnul. reflexivity.
Qed.

Lemma same_outside_refl : same_outside image_start (image_end + 8) m m.
Proof. intros a _ _. reflexivity. Qed.

(** When every symbol passes the two checks, [bind_functions] binds
    them all. *)
Lemma bind_functions_binds (fuel : nat) :
  e_shnum m binary <= Z.of_nat fuel ->
  (forall sym, In sym (image_symbols m binary) -> bindable m sym = true ->
     name_in_table m binary t sym /\ value_in_span m image_start image_end sym) ->
  bind_functions ff fuel m binary size image_start image_end
  = Return Success (bind_all ff m binary t).
Proof.
  intros Hfuel Hok. rewrite (bind_functions_reaches_loop fuel Hfuel).
  pose proof (load_range 2 m (binary + 60)) as Hnum. fold (e_shnum m binary) in Hnum.
  destruct (for_loop_fold (same_outside image_start (image_end + 8) m) (e_shnum m binary)
              (fun m' => e_shnum m' binary)
              (bind_section ff binary size (u64 (binary + e_shoff m binary))
                 (strtab_strings m binary t) (shdr m binary t) image_start image_end)
              (fun mm i => fold_left (bind_one ff m binary t) (section_symbols m binary i) mm))
    with (n := Z.to_nat (e_shnum m binary)) (fuel := fuel) (i := 0) (s := m)
    as [Hrun _]; try lia.
  - intros mm Hmm. now apply e_shnum_same.
  - intros i mm Hi Hmm. rewrite (bind_section_same mm i Hmm Hi).
    assert (Hsec : forall sym, In sym (section_symbols m binary i) ->
              bindable m sym = true ->
              name_in_table m binary t sym /\ value_in_span m image_start image_end sym).
    { intros sym Hin. apply Hok. unfold image_symbols. apply in_flat_map.
      exists i. split; [|exact Hin]. apply zseq_In. lia. }
    destruct (Z.eqb_spec (sh_type m (shdr m binary i)) ELF_SHT_SYMTAB) as [Hsym|Hsym].
    + exact (symbol_loop_binds mm i Hmm Hi Hsym Hsec).
    + unfold section_symbols.
      rewrite (proj2 (Z.eqb_neq _ _) Hsym). cbn [fold_left]. split; [reflexivity|exact Hmm].
  - exact same_outside_refl.
  - rewrite Hrun. unfold bind_all, image_symbols. now rewrite fold_left_flat_map.
Qed.

(** When the value of a symbol that is handled lies outside the span,
    [bind_functions] returns the error. *)
Lemma bind_functions_rejects (fuel : nat) (sym : Z) :
  e_shnum m binary <= Z.of_nat fuel ->
  In sym (image_symbols m binary) ->
  bindable m sym = true ->
  st_value m sym < image_start \/ image_end < st_value m sym ->
  exists m', bind_functions ff fuel m binary size image_start image_end
             = Return (Failure E_INVALID_EXE) m'.
Proof.
  intros Hfuel Hin Hb Hout. rewrite (bind_functions_reaches_loop fuel Hfuel).
  pose proof (load_range 2 m (binary + 60)) as Hnum. fold (e_shnum m binary) in Hnum.
  unfold image_symbols in Hin. apply in_flat_map in Hin as (i0 & Hi0 & Hin).
  apply zseq_In in Hi0.
  assert (Hi0' : 0 <= i0 < e_shnum m binary) by lia.
  destruct (Z.eqb_spec (sh_type m (shdr m binary i0)) ELF_SHT_SYMTAB) as [Hsym0|Hsym0].
  2:{ unfold section_symbols in Hin. rewrite (proj2 (Z.eqb_neq _ _) Hsym0) in Hin.
      destruct Hin. }
  rewrite (symbol_loop_section i0 Hi0' Hsym0) in Hin.
  apply in_map_iff in Hin as (j0 & Hsym & Hj0). apply zseq_In in Hj0.
  pose proof (nsyms_nonneg i0) as Hn0.
  assert (Hj0' : 0 <= j0 < sh_size m (shdr m binary i0) / sizeof_Sym) by lia.
  assert (Hsection : forall mm i,
            same_outside image_start (image_end + 8) m mm ->
            0 <= i < e_shnum m binary ->
            sh_type m (shdr m binary i) = ELF_SHT_SYMTAB ->
            forall n fuel' j mm',
              0 <= j -> j + Z.of_nat n = sh_size m (shdr m binary i) / sizeof_Sym ->
              (n <= fuel')%nat ->
              same_outside image_start (image_end + 8) m mm' ->
              (exists mm'',
                 for_loop fuel' (fun _ => sh_size m (shdr m binary i) / sizeof_Sym)
                   (bind_symbol ff (u64 (binary + sh_offset m (shdr m binary i)))
                      (strtab_strings m binary t) (shdr m binary t) image_start image_end)
                   j mm' = Next mm''
                 /\ same_outside image_start (image_end + 8) m mm'')
              \/ (exists mm'',
                    for_loop fuel' (fun _ => sh_size m (shdr m binary i) / sizeof_Sym)
                      (bind_symbol ff (u64 (binary + sh_offset m (shdr m binary i)))
                         (strtab_strings m binary t) (shdr m binary t) image_start image_end)
                      j mm' = Return (Failure E_INVALID_EXE) mm'')).
  { intros mm i Hmm Hi Hty.
    apply (for_loop_next_or_return (same_outside image_start (image_end + 8) m)
             (sh_size m (shdr m binary i) / sizeof_Sym)); [reflexivity|].
    intros j mm' Hj Hmm'. exact (bind_symbol_next_or_return mm' i j Hmm' Hi Hty Hj). }
  destruct (for_loop_returns (same_outside image_start (image_end + 8) m) (e_shnum m binary)
              (fun m' => e_shnum m' binary)
              (bind_section ff binary size (u64 (binary + e_shoff m binary))
                 (strtab_strings m binary t) (shdr m binary t) image_start image_end)
              (Failure E_INVALID_EXE) i0)
    with (n := Z.to_nat (e_shnum m binary)) (fuel := fuel) (i := 0) (s := m)
    as (m' & Hrun); try lia.
  - intros mm Hmm. now apply e_shnum_same.
  - intros i mm Hi Hmm. rewrite (bind_section_same mm i Hmm Hi).
    destruct (Z.eqb_spec (sh_type m (shdr m binary i)) ELF_SHT_SYMTAB) as [Hty|Hty].
    + pose proof (nsyms_nonneg i) as Hn.
      apply (Hsection mm i Hmm Hi Hty (Z.to_nat (sh_size m (shdr m binary i) / sizeof_Sym)));
        [lia|lia|lia|exact Hmm].
    + left. exists mm. split; [reflexivity|exact Hmm].
  - intros mm Hmm. rewrite (bind_section_same mm i0 Hmm Hi0').
    rewrite Hsym0, Z.eqb_refl.
    apply (for_loop_returns (same_outside image_start (image_end + 8) m)
             (sh_size m (shdr m binary i0) / sizeof_Sym) _ _ _ j0)
      with (n := Z.to_nat (sh_size m (shdr m binary i0) / sizeof_Sym));
      [reflexivity| | |lia|lia|lia|exact Hmm|lia].
    + intros j mm' Hj Hmm'. exact (bind_symbol_next_or_return mm' i0 j Hmm' Hi0' Hsym0 Hj).
    + intros mm' Hmm'.
      destruct (symbol_value i0 j0 Hi0' Hsym0 Hj0') as [Hlo Hhi].
      rewrite (bind_symbol_same mm' _ j0 Hmm' Hlo Hhi). cbv zeta.
      rewrite Hsym, Hb. cbn [andb].
      destruct (_ >? _); cbn [orb]; [now eexists|].
      destruct (Z.ltb_spec (st_value m sym) image_start); cbn [orb]; [now eexists|].
      destruct (Z.gtb_spec (st_value m sym) image_end); [now eexists|]. lia.
  - exact same_outside_refl.
  - exists m'. now rewrite Hrun.
Qed.

End BinderRun.

(** The bytes from [a] on are not touched by the binding of symbols whose
    slots end at [a] or below. *)
Lemma bind_below_keeps (ff : Mem -> Z -> Z) (m : Mem) (binary t a : Z) (post : list Z) :
  0 <= a < 2 ^ 64 ->
  Forall (fun sym => bindable m sym = true -> st_value m sym + 8 <= a) post ->
  forall mm, fold_left (bind_one ff m binary t) post mm a = mm a.
Proof.
  intros Ha. induction 1 as [|sym post Hsym _ IH]; intros mm; cbn [fold_left].
  - reflexivity.
  - rewrite IH. unfold bind_one. destruct (bindable m sym); [|reflexivity].
    cbv zeta. destruct (_ =? 0); [reflexivity|].
    apply store_outside. specialize (Hsym eq_refl).
    pose proof (load_range 8 m (sym + 8)) as Hv. fold (st_value m sym) in Hv.
    unfold sizeof_ptr. rewrite u64_small by lia. lia.
Qed.

(** One iteration of the loop over the symbols, for a symbol that
    [bind_functions] handles and whose name
    offset has passed its check, the check on the value rejects exactly
    the values strictly below the start of the span or strictly above its
    end.  A value equal to the end of the span therefore passes, and when
    the resolver answers an address the eight bytes written are those at
    the end of the span and after it. *)
Lemma bind_symbol_checks_value (ff : Mem -> Z -> Z)
    (syms strings strtab_hdr image_start image_end j : Z) (m : Mem) :
  let sym := elem syms sizeof_Sym j in
  let name := u64 (strings + st_name m sym) in
  let value := st_value m sym in
  let addr := ff m name in
  bindable m sym = true ->
  name <= u64 (strings + sh_size m strtab_hdr) ->
  (bind_symbol ff syms strings strtab_hdr image_start image_end j m
   = Return (Failure E_INVALID_EXE) m
   <-> value < image_start \/ image_end < value)
  /\ (value = image_end -> image_start <= image_end -> addr <> 0 ->
      bind_symbol ff syms strings strtab_hdr image_start image_end j m
      = Next (store sizeof_ptr m image_end addr)
      /\ (forall k, 0 <= k < sizeof_ptr ->
                    store sizeof_ptr m image_end addr (u64 (image_end + k))
                    = byte_of_Z (Z.shiftr addr (8 * k)))).
Proof.
  intros sym name value addr Hb Hname.
  assert (Hrun : bind_symbol ff syms strings strtab_hdr image_start image_end j m
                 = if (value <? image_start) || (value >? image_end)
                   then Return (Failure E_INVALID_EXE) m
                   else if negb (addr =? 0) then Next (store sizeof_ptr m value addr)
                        else Next m).
  { unfold bind_symbol. fold sym. rewrite bindable_cond, Hb. fold name value.
    destruct (Z.gtb_spec name (u64 (strings + sh_size m strtab_hdr))); [lia|].
    reflexivity. }
  rewrite Hrun. split.
  - destruct (Z.ltb_spec value image_start); destruct (Z.gtb_spec value image_end);
      cbn [orb]; split; intros H1; try reflexivity; try lia;
      destruct (negb (addr =? 0)); discriminate.
  - intros Hv Hle Haddr.
    destruct (Z.ltb_spec value image_start); [lia|].
    destruct (Z.gtb_spec value image_end); [lia|]. cbn [orb].
    destruct (Z.eqb_spec addr 0); [contradiction|]. cbn [negb]. rewrite Hv.
    split; [reflexivity|]. intros k Hk. apply store_inside; [assumption|].
    unfold sizeof_ptr. lia.
Qed.

(** C6.  [bind_functions] handles the symbols that are global objects of
    default visibility and pointer size, and passes over every other
    one.  In the loop over the symbols: a symbol that is not of this kind
    is passed over; for one that is, once its name offset and its value
    have passed their checks, the resolver is asked for the name, and when
    it answers an address the eight bytes at the value of the symbol
    become that address and no other byte changes, while when it answers 0
    the symbol is skipped and the memory is left as it was; in both cases
    the loop goes on.  When the search for a section named [".strtab"]
    finds none, the section names being within the section-name string
    table and that table within the buffer, [bind_functions] returns 0 and
    leaves the memory as it was.  And on an image that is well laid out,
    with string table the section [t], and whose handled symbols all pass
    the two checks, [bind_functions] runs this loop on every symbol of
    every symbol table: it returns 0 and the memory it leaves is the one
    obtained by binding the symbols of the image one after the other, in
    the order of the section headers and of the tables. *)
Theorem bind_functions_spec (ff : Mem -> Z -> Z)
    (syms strings strtab_hdr image_start image_end j : Z) (m : Mem)
    (fuel : nat) (binary size : Z) :
  let sym := elem syms sizeof_Sym j in
  let name := u64 (strings + st_name m sym) in
  let value := st_value m sym in
  let addr := ff m name in
  let sh := u64 (binary + e_shoff m binary) in
  let shstr_hdr := elem sh sizeof_Secthdr (e_shstrndx m binary) in
  let shstr := u64 (binary + sh_offset m shstr_hdr) in
  (bindable m sym = false ->
   bind_symbol ff syms strings strtab_hdr image_start image_end j m = Next m)
  /\ (bindable m sym = true ->
      name <= u64 (strings + sh_size m strtab_hdr) ->
      image_start <= value <= image_end ->
      bind_symbol ff syms strings strtab_hdr image_start image_end j m
      = (if addr =? 0 then Next m else Next (store sizeof_ptr m value addr))
      /\ load 8 (store sizeof_ptr m value addr) value = u64 addr
      /\ (forall a, sizeof_ptr <= u64 (a - value) ->
                    store sizeof_ptr m value addr a = m a))
  /\ (e_shnum m binary <= Z.of_nat fuel ->
      u64 (shstr + sh_size m shstr_hdr) <= u64 (binary + size) ->
      (forall i, 0 <= i < e_shnum m binary ->
                 sh_name m (elem sh sizeof_Secthdr i) <= sh_size m shstr_hdr) ->
      (forall i, 0 <= i < e_shnum m binary ->
                 sh_type m (elem sh sizeof_Secthdr i) = ELF_SHT_STRTAB ->
                 strcmp_eq dot_strtab m (u64 (shstr + sh_name m (elem sh sizeof_Secthdr i)))
                 = false) ->
      bind_functions ff fuel m binary size image_start image_end = Return Success m)
  /\ (forall t,
        e_shnum m binary <= Z.of_nat fuel ->
        binder_layout m binary size image_start image_end t ->
        Forall (fun sym => bindable m sym = true ->
                  name_in_table m binary t sym
                  /\ value_in_span m image_start image_end sym)
               (image_symbols m binary) ->
        bind_functions ff fuel m binary size image_start image_end
        = Return Success (bind_all ff m binary t)).
Proof.
  intros sym name value addr sh shstr_hdr shstr. split; [|split; [|split]].
  - intros Hb. unfold bind_symbol. fold sym. rewrite bindable_cond, Hb. reflexivity.
  - intros Hb Hname Hval. split; [|split].
    + unfold bind_symbol. fold sym. rewrite bindable_cond, Hb. fold name value.
      destruct (Z.gtb_spec name (u64 (strings + sh_size m strtab_hdr))); [lia|].
      destruct (Z.ltb_spec value image_start); [lia|].
      destruct (Z.gtb_spec value image_end); [lia|]. cbn [orb]. fold addr.
      destruct (addr =? 0); reflexivity.
    + apply load_store_ptr.
    + intros a Ha. now apply store_outside.
  - intros Hfuel Hshstr Hnames Habsent. unfold bind_functions. fold sh shstr_hdr shstr.
    destruct (Z.gtb_spec (u64 (shstr + sh_size m shstr_hdr)) (u64 (binary + size))); [lia|].
    unfold find_strtab. rewrite for_loop_idle; [reflexivity| |lia].
    intros i Hi. unfold find_strtab_body. fold shstr_hdr.
    specialize (Hnames i Hi). specialize (Habsent i Hi).
    destruct (Z.gtb_spec (sh_name m (elem sh sizeof_Secthdr i)) (sh_size m shstr_hdr)); [lia|].
    destruct (Z.eqb_spec (sh_type m (elem sh sizeof_Secthdr i)) ELF_SHT_STRTAB) as [Ht|]; [|reflexivity].
    now rewrite (Habsent Ht).
  - intros t Hfuel Hlay Hok.
    apply (bind_functions_binds ff m binary size image_start image_end t Hlay fuel Hfuel).
    intros s Hin. exact (proj1 (List.Forall_forall _ _) Hok s Hin).
Qed.

(** C10.  The check of [bind_functions] on the value of a symbol is
    inclusive at both ends of the span.  On an image that is well laid
    out and whose handled symbols have their names within the string
    table: if some handled symbol has its value strictly below
    [image_start] or strictly above [image_end], [bind_functions] returns
    [-E_INVALID_EXE]; if every handled symbol has its value from
    [image_start] to [image_end], both included, [bind_functions] returns
    0 and binds them all.  In particular a handled symbol whose value is
    [image_end] itself is accepted, and when the resolver answers an
    address for it and no later symbol is bound over it, the eight bytes
    from [image_end] to [image_end + 7], which begin where the span ends,
    hold that address when [bind_functions] returns. *)
Theorem bind_functions_span_end (ff : Mem -> Z -> Z) (m : Mem) (fuel : nat)
    (binary size image_start image_end t : Z) :
  e_shnum m binary <= Z.of_nat fuel ->
  binder_layout m binary size image_start image_end t ->
  Forall (fun sym => bindable m sym = true -> name_in_table m binary t sym)
         (image_symbols m binary) ->
  (Exists (fun sym => bindable m sym = true
                      /\ (st_value m sym < image_start \/ image_end < st_value m sym))
          (image_symbols m binary) ->
   exists m', bind_functions ff fuel m binary size image_start image_end
              = Return (Failure E_INVALID_EXE) m')
  /\ (Forall (fun sym => bindable m sym = true ->
                image_start <= st_value m sym <= image_end)
             (image_symbols m binary) ->
      bind_functions ff fuel m binary size image_start image_end
      = Return Success (bind_all ff m binary t)
      /\ forall pre sym post,
           image_symbols m binary = pre ++ sym :: post ->
           bindable m sym = true ->
           st_value m sym = image_end ->
           Forall (fun sym' => bindable m sym' = true -> st_value m sym' + 8 <= image_end)
                  post ->
           let mm := fold_left (bind_one ff m binary t) pre m in
           let addr := ff mm (symbol_name m binary t sym) in
           addr <> 0 ->
           forall k, 0 <= k < sizeof_ptr ->
             bind_all ff m binary t (image_end + k) = byte_of_Z (Z.shiftr addr (8 * k))).
Proof.
  intros Hfuel Hlay Hnames. split.
  - intros Hex. apply List.Exists_exists in Hex as (sym & Hin & Hb & Hout).
    exact (bind_functions_rejects ff m binary size image_start image_end t Hlay fuel sym
             Hfuel Hin Hb Hout).
  - intros Hin. split.
    + apply (bind_functions_binds ff m binary size image_start image_end t Hlay fuel Hfuel).
      intros s Hs Hb. split.
      * exact (proj1 (List.Forall_forall _ _) Hnames s Hs Hb).
      * exact (proj1 (List.Forall_forall _ _) Hin s Hs Hb).
    + intros pre sym post Hsplit Hb Hval Hpost mm addr Haddr k Hk.
      destruct Hlay as (_ & (Hend & _) & _).
      pose proof (load_range 8 m (sym + 8)) as Hv. fold (st_value m sym) in Hv.
      unfold sizeof_ptr in Hk.
      unfold bind_all. rewrite Hsplit, fold_left_app. cbn [fold_left]. fold mm.
      assert (Hpost' : Forall (fun s => bindable m s = true ->
                                       st_value m s + 8 <= image_end + k) post).
      { apply (List.Forall_impl _ (P := fun s => bindable m s = true ->
                                               st_value m s + 8 <= image_end));
          [|exact Hpost].
        intros s Hs Hbs. specialize (Hs Hbs). lia. }
      rewrite (bind_below_keeps ff m binary t (image_end + k) post ltac:(lia) Hpost').
      unfold bind_one. rewrite Hb. cbv zeta. fold addr.
      destruct (Z.eqb_spec addr 0); [contradiction|]. rewrite Hval.
      rewrite <- (u64_small (image_end + k)) by lia.
      apply store_inside; unfold sizeof_ptr; lia.
Qed.

(** ** The statements at work on the examples *)

(** In the table of four slots the identifier 4099 names the grandchild
    of the current environment, and is looked up with permission
    checking. *)
Lemma envid2env_nonzero_witness :
  exists env,
    envs demo_state !! Z.to_nat (ENVX 2 4099) = Some env
    /\ ((rejected 2 demo_state 4099 true env
         /\ envid2env 2 4099 true demo_state = Returns (Failure E_BAD_ENV, None) demo_state)
        \/ (~ rejected 2 demo_state 4099 true env
            /\ envid2env 2 4099 true demo_state
               = Returns (Success, Some (Z.to_nat (ENVX 2 4099))) demo_state)).
Proof.
  apply (envid2env_nonzero 2 demo_state 4099 true).
  - lia.
  - reflexivity.
  - lia.
  - intros env _ _ _ _. exists 4096. reflexivity.
Defined.

(** Slot 2 of the table held 8194 and heads the free list: allocating it
    again stores 12290, and the lookup of 8194 then fails. *)
Lemma env_alloc_reuse_witness :
  exists s' env',
    env_alloc 2 0x08 0x10 0x200 0 0x2000 4096 0 demo_state = Returns (inr 2%nat) s'
    /\ envs s' !! 2%nat = Some env'
    /\ env_id env' = 12290
    /\ envid2env 2 8194 false s' = Returns (Failure E_BAD_ENV, None) s'.
Proof.
  destruct (env_alloc_reuse 2 0x08 0x10 0x200 0 0x2000 4096 0 demo_state 2
              (demo_env 8194 0 ENV_FREE))
    as (s' & env' & Hrun & Henv & Hid & _ & _ & _ & _ & _ & _ & _ & Hstale).
  - unfold ENVGENSHIFT. lia.
  - reflexivity.
  - reflexivity.
  - reflexivity.
  - simpl. lia.
  - exists s', env'. split; [exact Hrun|]. split; [exact Henv|]. split; [exact Hid|].
    apply Hstale; [lia| |reflexivity]. vm_compute. discriminate.
Defined.

(** Destroying the child, which is not the current environment, returns
    with the child DYING. *)
Lemma env_destroy_spec_witness :
  env_destroy 1 demo_state
  = Returns tt (set_envs (<[1%nat := set_env_status ENV_DYING (demo_env 4097 4096 ENV_RUNNABLE)]>
                            (envs demo_state)) demo_state).
Proof.
  destruct (env_destroy_spec 1 demo_state (demo_env 4097 4096 ENV_RUNNABLE) eq_refl)
    as (_ & _ & _ & H & _).
  exact H.
Defined.

(** Running the child: the current environment, RUNNING, becomes
    RUNNABLE, and the child is dispatched. *)
Lemma env_run_spec_witness :
  exists env1,
    envs (retire_current demo_state) !! 1%nat = Some env1
    /\ env_run 1 demo_state
       = Resumes (env_tf env1)
           (mkState (<[1%nat := running_env env1]> (envs (retire_current demo_state)))
                    (env_free_list (retire_current demo_state)) (Some 1%nat)
                    (stack_top (retire_current demo_state)))
    /\ env_status (running_env env1) = ENV_RUNNING
    /\ env_runs (running_env env1) = u32 (env_runs env1 + 1)
    /\ env_tf (running_env env1) = env_tf env1.
Proof.
  refine (env_run_spec 1 demo_state (demo_env 4097 4096 ENV_RUNNABLE) eq_refl _).
  intros c Hc. injection Hc as <-. eexists. reflexivity.
Defined.

(** Closed facts are settled by evaluation. *)
Ltac ground := vm_compute; repeat split; first [reflexivity | discriminate].

Ltac each_symbol tac :=
  repeat first [apply List.Forall_nil | apply List.Forall_cons; [tac|]].

Lemma symbol_image_symbols :
  image_symbols symbol_mem binary0
  = [symbol_syms; symbol_syms + 24; symbol_syms + 48; symbol_syms + 72].
Proof. vm_compute. reflexivity. Defined.

(** The symbol image can be bound into any span that ends below the
    buffer. *)
Lemma symbol_image_layout (image_end : Z) :
  image_end + 8 <= binary0 ->
  binder_layout symbol_mem binary0 symbol_size symbol_start image_end 1.
Proof.
  intros Hend.
  assert (Hnum : e_shnum symbol_mem binary0 = 3) by (vm_compute; reflexivity).
  unfold binder_layout. cbv zeta. rewrite Hnum.
  split; [ground|]. split; [unfold binary0 in *; lia|].
  split; [ground|]. split; [ground|]. split; [lia|].
  split.
  { intros i Hi. assert (i = 0 \/ i = 1) as [->| ->] by lia; ground. }
  split; [ground|]. split.
  { intros i Hi. assert (i = 0) as -> by lia. intros _. ground. }
  split; [ground|].
  intros i Hi Hty. assert (i = 0 \/ i = 1 \/ i = 2) as [->|[->| ->]] by lia;
    try (vm_compute in Hty; discriminate). ground.
Defined.

Lemma symbol_image_names :
  Forall (fun sym => bindable symbol_mem sym = true -> name_in_table symbol_mem binary0 1 sym)
         (image_symbols symbol_mem binary0).
Proof.
  rewrite symbol_image_symbols.
  each_symbol ltac:(intros _; vm_compute; discriminate).
Defined.

(** The symbols of the symbol image: the null symbol is passed over,
    [sys_yield] is bound, [nosuch] is skipped; the minimal image, which
    has no section named [".strtab"], is left alone; and [bind_functions]
    on the symbol image binds the two symbols named [sys_yield] and leaves
    the slot of [nosuch] as it was. *)
Lemma bind_functions_spec_witness :
  bind_symbol find_function0 symbol_syms symbol_strings symbol_strtab_hdr
    symbol_start symbol_end 0 symbol_mem = Next symbol_mem
  /\ bind_symbol find_function0 symbol_syms symbol_strings symbol_strtab_hdr
       symbol_start symbol_end 1 symbol_mem
     = Next (store sizeof_ptr symbol_mem 0x1000100 sys_yield_addr)
  /\ load 8 (store sizeof_ptr symbol_mem 0x1000100 sys_yield_addr) 0x1000100 = sys_yield_addr
  /\ bind_symbol find_function0 symbol_syms symbol_strings symbol_strtab_hdr
       symbol_start symbol_end 2 symbol_mem = Next symbol_mem
  /\ bind_functions find_function0 1 minimal_mem binary0 minimal_size
       symbol_start symbol_end = Return Success minimal_mem
  /\ bind_functions find_function0 4 symbol_mem binary0 symbol_size symbol_start symbol_end
     = Return Success (bind_all find_function0 symbol_mem binary0 1)
  /\ load 8 (bind_all find_function0 symbol_mem binary0 1) 0x1000100 = sys_yield_addr
  /\ load 8 (bind_all find_function0 symbol_mem binary0 1) 0x1000108
     = load 8 symbol_mem 0x1000108
  /\ load 8 (bind_all find_function0 symbol_mem binary0 1) 0x1001000 = sys_yield_addr.
Proof.
  split; [|split; [|split; [|split; [|split; [|split; [|split; [|split]]]]]]].
  - apply (proj1 (bind_functions_spec find_function0 symbol_syms symbol_strings symbol_strtab_hdr
             symbol_start symbol_end 0 symbol_mem 1 binary0 symbol_size)).
    vm_compute. reflexivity.
  - apply (proj1 (proj2 (bind_functions_spec find_function0 symbol_syms symbol_strings symbol_strtab_hdr
             symbol_start symbol_end 1 symbol_mem 1 binary0 symbol_size))).
    + vm_compute. reflexivity.
    + vm_compute. discriminate.
    + vm_compute. split; discriminate.
  - apply (proj1 (proj2 (bind_functions_spec find_function0 symbol_syms symbol_strings symbol_strtab_hdr
             symbol_start symbol_end 1 symbol_mem 1 binary0 symbol_size))).
    + vm_compute. reflexivity.
    + vm_compute. discriminate.
    + vm_compute. split; discriminate.
  - apply (proj1 (proj2 (bind_functions_spec find_function0 symbol_syms symbol_strings symbol_strtab_hdr
             symbol_start symbol_end 2 symbol_mem 1 binary0 symbol_size))).
    + vm_compute. reflexivity.
    + vm_compute. discriminate.
    + vm_compute. split; discriminate.
  - apply (proj1 (proj2 (proj2 (bind_functions_spec find_function0 symbol_syms symbol_strings
             symbol_strtab_hdr symbol_start symbol_end 0 minimal_mem 1 binary0 minimal_size)))).
    + vm_compute. discriminate.
    + vm_compute. discriminate.
    + intros i Hi. change (e_shnum minimal_mem binary0) with 1 in Hi.
      assert (i = 0) as -> by lia. vm_compute. discriminate.
    + intros i Hi _. change (e_shnum minimal_mem binary0) with 1 in Hi.
      assert (i = 0) as -> by lia. vm_compute. reflexivity.
  - apply (proj2 (proj2 (proj2 (bind_functions_spec find_function0 symbol_syms symbol_strings
             symbol_strtab_hdr symbol_start symbol_end 0 symbol_mem 4 binary0 symbol_size))) 1).
    + vm_compute. discriminate.
    + apply symbol_image_layout. vm_compute. discriminate.
    + rewrite symbol_image_symbols.
      each_symbol ltac:(intros Hb;
        first [vm_compute in Hb; discriminate Hb
              | split; vm_compute; [discriminate|split; discriminate]]).
  - vm_compute. reflexivity.
  - vm_compute. reflexivity.
  - vm_compute. reflexivity.
Defined.

(** The last symbol of the symbol image has the end of the span as its
    value.  [bind_functions] accepts it and binds it there, in the eight
    bytes that follow the span; with a span one byte shorter the value is
    above the end, and [bind_functions] returns the error. *)
Lemma bind_functions_span_end_witness :
  (exists m', bind_functions find_function0 4 symbol_mem binary0 symbol_size
                symbol_start (symbol_end - 1)
              = Return (Failure E_INVALID_EXE) m')
  /\ bind_functions find_function0 4 symbol_mem binary0 symbol_size symbol_start symbol_end
     = Return Success (bind_all find_function0 symbol_mem binary0 1)
  /\ st_value symbol_mem (symbol_syms + 72) = symbol_end
  /\ map (bind_all find_function0 symbol_mem binary0 1) (addr_range symbol_end 8)
     = map (fun k => byte_of_Z (Z.shiftr sys_yield_addr (8 * k))) [0; 1; 2; 3; 4; 5; 6; 7].
Proof.
  split; [|split; [|split]].
  - apply (proj1 (bind_functions_span_end find_function0 symbol_mem 4 binary0 symbol_size
                    symbol_start (symbol_end - 1) 1 ltac:(vm_compute; discriminate)
                    (symbol_image_layout (symbol_end - 1) ltac:(vm_compute; discriminate))
                    symbol_image_names)).
    rewrite symbol_image_symbols.
    apply Exists_cons_tl, Exists_cons_tl, Exists_cons_tl, Exists_cons_hd.
    split; [vm_compute; reflexivity|right; vm_compute; reflexivity].
  - apply (proj2 (bind_functions_span_end find_function0 symbol_mem 4 binary0 symbol_size
                    symbol_start symbol_end 1 ltac:(vm_compute; discriminate)
                    (symbol_image_layout symbol_end ltac:(vm_compute; discriminate))
                    symbol_image_names)).
    rewrite symbol_image_symbols.
    each_symbol ltac:(intros Hb;
      first [vm_compute in Hb; discriminate Hb | vm_compute; split; discriminate]).
  - vm_compute. reflexivity.
  - vm_compute. reflexivity.
Defined.

(** * Further properties *)

(** ** env_init and the free list *)

(** The loop of [env_init] over the [n] first slots. *)
Lemma env_init_loop_spec (n : nat) : forall s : State,
  (n <= length (envs s))%nat ->
  exists l',
    env_init_loop n s
      = Returns tt (mkState l' (match n with O => env_free_list s | S _ => Some O end)
                      (curenv s) (stack_top s))
    /\ length l' = length (envs s)
    /\ forall i e, envs s !! i = Some e ->
         l' !! i = Some (if (i <? n)%nat
                         then set_env_id 0 (set_env_link
                                (if (S i <? n)%nat then Some (S i) else env_free_list s) e)
                         else e).
Proof.
  induction n as [|n IH]; intros s Hn.
  - exists (envs s). split; [destruct s; reflexivity|]. split; [reflexivity|].
    intros i e He. exact He.
  - destruct (lookup_lt_is_Some_2 (envs s) n ltac:(lia)) as [en Hen].
    cbn [env_init_loop].
    unfold bind at 1. unfold gets at 1.
    unfold bind at 1. rewrite (update_env_Some _ _ _ _ Hen).
    unfold bind at 1.
    rewrite (update_env_Some n (set_env_id 0) _ (set_env_link (env_free_list s) en)).
    2:{ cbn. apply list_lookup_insert_eq. eapply lookup_lt_Some; eauto. }
    unfold bind at 1. unfold modify at 1.
    cbn [envs set_envs set_env_free_list curenv stack_top env_free_list].
    rewrite list_insert_insert_eq.
    match goal with |- context [env_init_loop n ?s1] => destruct (IH s1) as (l' & Hrun & Hlen & Hl) end.
    { cbn. rewrite length_insert. lia. }
    exists l'. split.
    { rewrite Hrun. cbn. destruct n; reflexivity. }
    split. { rewrite Hlen. cbn. now rewrite length_insert. }
    intros i e He.
    destruct (decide (i = n)) as [->|Hne].
    + rewrite (Hl n (set_env_id 0 (set_env_link (env_free_list s) en))).
      2:{ cbn. apply list_lookup_insert_eq. eapply lookup_lt_Some; eauto. }
      rewrite Hen in He. inversion He; subst e.
      replace (n <? n)%nat with false by (symmetry; apply Nat.ltb_ge; lia).
      replace (n <? S n)%nat with true by (symmetry; apply Nat.ltb_lt; lia).
      replace (S n <? S n)%nat with false by (symmetry; apply Nat.ltb_ge; lia).
      reflexivity.
    + rewrite (Hl i e).
      2:{ cbn. rewrite list_lookup_insert_ne by congruence. exact He. }
      cbn [env_free_list].
      destruct (i <? n)%nat eqn:Hin.
      * apply Nat.ltb_lt in Hin.
        replace (i <? S n)%nat with true by (symmetry; apply Nat.ltb_lt; lia).
        destruct (S i <? n)%nat eqn:Hsn.
        -- replace (S i <? S n)%nat with true by (symmetry; apply Nat.ltb_lt; apply Nat.ltb_lt in Hsn; lia).
           reflexivity.
        -- apply Nat.ltb_ge in Hsn. assert (S i = n) by lia. subst n.
           replace (S i <? S (S i))%nat with true by (symmetry; apply Nat.ltb_lt; lia).
           reflexivity.
      * apply Nat.ltb_ge in Hin.
        assert (n <= length (envs s))%nat by lia.
        assert (i < length (envs s))%nat by (eapply lookup_lt_Some; eauto).
        replace (i <? S n)%nat with false by (symmetry; apply Nat.ltb_ge; lia).
        reflexivity.
Qed.

(** ** The free list under env_alloc and env_free *)

(** Writing a slot that is not on the list does not change the list. *)
Lemma free_chain_insert (l : list Env) (p : EnvPtr) (fl : list nat) (i : nat) (x : Env) :
  free_chain l p fl -> i ∉ fl -> free_chain (<[i := x]> l) p fl.
Proof.
  induction 1 as [|j e rest Hj Hc IH]; intros Hi.
  - constructor.
  - apply not_elem_of_cons in Hi as [Hij Hi].
    apply (free_chain_cons _ j e rest).
    + rewrite list_lookup_insert_ne by congruence. exact Hj.
    + now apply IH.
Qed.

Lemma free_chain_head (l : list Env) (p : EnvPtr) (fl : list nat) :
  free_chain l p fl -> p = head fl.
Proof. destruct 1; reflexivity. Qed.

Lemma free_chain_links (l : list Env) (n : nat) :
  (forall i, (i < n)%nat ->
     exists e, l !! i = Some e
               /\ env_link e = if (S i <? n)%nat then Some (S i) else None) ->
  forall d k, (k + d = n)%nat ->
    free_chain l (if (k <? n)%nat then Some k else None) (seq k d).
Proof.
  intros Hl. induction d as [|d IH]; intros k Hk.
  - replace (k <? n)%nat with false by (symmetry; apply Nat.ltb_ge; lia).
    constructor.
  - replace (k <? n)%nat with true by (symmetry; apply Nat.ltb_lt; lia).
    destruct (Hl k ltac:(lia)) as (e & He & Hlink).
    cbn [seq]. apply (free_chain_cons _ k e); [exact He|].
    rewrite Hlink. apply IH. lia.
Qed.

(** [env_alloc] on a well-formed free list. *)
Lemma env_alloc_free_list (L KT KD IF IOPL USS parent type : Z) (s : State)
    (i : nat) (rest : list nat) :
  free_list_ok s (i :: rest) ->
  exists env,
    envs s !! i = Some env
    /\ env_alloc L KT KD IF IOPL USS parent type s
       = Returns (inr i)
           (mkState
              (<[i := mkEnv (fresh_tf KT KD IF IOPL (stack_top s)) (env_link env)
                        (next_env_id L (env_id env) i) parent type ENV_RUNNABLE 0]>
                 (envs s))
              (env_link env) (curenv s) (u64 (stack_top s - USS)))
    /\ free_list_ok
         (mkState
              (<[i := mkEnv (fresh_tf KT KD IF IOPL (stack_top s)) (env_link env)
                        (next_env_id L (env_id env) i) parent type ENV_RUNNABLE 0]>
                 (envs s))
              (env_link env) (curenv s) (u64 (stack_top s - USS))) rest.
Proof.
  intros (Hc & Hnd & Hfree).
  inversion Hc as [|i' env rest' Hi Hrest Hp]; subst.
  apply NoDup_cons in Hnd as [Hnotin Hnd].
  exists env. split; [exact Hi|]. split.
  - rewrite env_alloc_closed_form. rewrite <- Hp. now rewrite Hi.
  - split; [|split]; cbn [envs env_free_list].
    + now apply free_chain_insert.
    + exact Hnd.
    + intros j Hj. destruct (Hfree j) as (e & He & Hs); [now right|].
      exists e. split; [|exact Hs].
      rewrite list_lookup_insert_ne; [exact He|]. intros ->. contradiction.
Qed.

Lemma env_alloc_empty (L KT KD IF IOPL USS parent type : Z) (s : State) :
  free_list_ok s [] ->
  env_alloc L KT KD IF IOPL USS parent type s = Returns (inl E_NO_FREE_ENV) s.
Proof.
  intros (Hc & _). inversion Hc as [Hp|]. rewrite env_alloc_closed_form.
  now rewrite <- Hp.
Qed.

(** [env_free] of a slot that is not FREE. *)
Lemma env_free_free_list (e : nat) (s : State) (env : Env) (fl : list nat) :
  free_list_ok s fl ->
  envs s !! e = Some env ->
  env_status env <> ENV_FREE ->
  free_list_ok (mkState (<[e := freed_env (env_free_list s) env]> (envs s))
                        (Some e) (curenv s) (stack_top s)) (e :: fl).
Proof.
  intros (Hc & Hnd & Hfree) He Hst.
  pose proof (lookup_lt_Some _ _ _ He) as Hlt.
  assert (Hnotin : e ∉ fl).
  { intros Hin. destruct (Hfree e Hin) as (e' & He' & Hs'). congruence. }
  split; [|split]; cbn [envs env_free_list].
  - apply (free_chain_cons _ e (freed_env (env_free_list s) env)).
    + now apply list_lookup_insert_eq.
    + cbn. now apply free_chain_insert.
  - now apply NoDup_cons.
  - intros j Hj. apply elem_of_cons in Hj as [->|Hj].
    + exists (freed_env (env_free_list s) env). split; [|reflexivity].
      now apply list_lookup_insert_eq.
    + destruct (Hfree j Hj) as (e' & He' & Hs'). exists e'. split; [|exact Hs'].
      rewrite list_lookup_insert_ne; [exact He'|]. intros ->. contradiction.
Qed.

Lemma alloc_many_free_list (L KT KD IF IOPL USS parent type : Z) (n : nat) :
  forall (s : State) (fl : list nat),
    free_list_ok s fl ->
    exists s',
      alloc_many L KT KD IF IOPL USS parent type n s
      = Returns (map inr (take n fl)
                 ++ replicate (n - length fl) (inl E_NO_FREE_ENV)) s'
      /\ free_list_ok s' (drop n fl).
Proof.
  induction n as [|n IH]; intros s fl Hok.
  - exists s. split; [reflexivity|]. now rewrite drop_0.
  - cbn [alloc_many]. destruct fl as [|i rest].
    + rewrite (bind_Returns _ _ _ _ _ (env_alloc_empty L KT KD IF IOPL USS parent type s Hok)).
      destruct (IH s [] Hok) as (s' & Hrun & Hok').
      exists s'. rewrite (bind_Returns _ _ _ _ _ Hrun).
      split; [|now rewrite drop_nil in *].
      rewrite take_nil in *. cbn. now rewrite Nat.sub_0_r.
    + destruct (env_alloc_free_list L KT KD IF IOPL USS parent type s i rest Hok)
        as (env & Hi & Hrun1 & Hok1).
      rewrite (bind_Returns _ _ _ _ _ Hrun1).
      destruct (IH _ rest Hok1) as (s' & Hrun & Hok').
      exists s'. rewrite (bind_Returns _ _ _ _ _ Hrun).
      split; [|exact Hok']. reflexivity.
Qed.

Lemma env_init_net (L : Z) (s : State) :
  0 <= L ->
  length (envs s) = Z.to_nat (NENV L) ->
  exists l',
    env_init L s = Returns tt (mkState l' (Some O) (curenv s) (stack_top s))
    /\ length l' = length (envs s)
    /\ forall i e, envs s !! i = Some e ->
         l' !! i = Some (set_env_id 0 (set_env_link
                     (if (S i <? Z.to_nat (NENV L))%nat then Some (S i) else None) e)).
Proof.
  intros HL Hlen. pose proof (NENV_pos L HL) as Hpos.
  unfold env_init. unfold bind at 1, modify at 1.
  destruct (env_init_loop_spec (Z.to_nat (NENV L)) (set_env_free_list None s))
    as (l' & Hrun & Hlen' & Hl).
  { cbn. lia. }
  exists l'. split; [|split].
  - rewrite Hrun. cbn. destruct (Z.to_nat (NENV L)) eqn:E; [lia|reflexivity].
  - exact Hlen'.
  - intros i e He. rewrite (Hl i e He).
    pose proof (lookup_lt_Some _ _ _ He) as Hlt.
    replace (i <? Z.to_nat (NENV L))%nat with true by (symmetry; apply Nat.ltb_lt; lia).
    reflexivity.
Qed.

(** X1.  [env_init] on a table of [NENV] slots threads the whole table
    on the free list in the order of the table: the head is slot 0, every
    slot links to the next one and the last one to the null pointer.  It
    sets every identifier to 0 and writes nothing else: the status, the
    trap frame, the parent, the type and the run counter of every slot,
    [curenv] and the stack watermark are as before. *)
Theorem env_init_free_list (L : Z) (s : State) :
  0 <= L ->
  length (envs s) = Z.to_nat (NENV L) ->
  exists s',
    env_init L s = Returns tt s'
    /\ env_free_list s' = Some O
    /\ free_chain (envs s') (env_free_list s') (seq 0 (Z.to_nat (NENV L)))
    /\ length (envs s') = length (envs s)
    /\ curenv s' = curenv s
    /\ stack_top s' = stack_top s
    /\ forall i e, envs s !! i = Some e ->
         envs s' !! i
         = Some (mkEnv (env_tf e)
                       (if (S i <? Z.to_nat (NENV L))%nat then Some (S i) else None)
                       0 (env_parent_id e) (env_type e) (env_status e) (env_runs e)).
Proof.
  intros HL Hlen. pose proof (NENV_pos L HL) as Hpos.
  destruct (env_init_net L s HL Hlen) as (l' & Hrun & Hlen' & Hl).
  eexists. split; [exact Hrun|]. cbn [envs env_free_list curenv stack_top].
  split; [reflexivity|]. split; [|split; [exact Hlen'|split; [reflexivity|split; [reflexivity|]]]].
  - pose proof (free_chain_links l' (Z.to_nat (NENV L))) as Hch.
    specialize (Hch ltac:(
      intros i Hi;
      destruct (lookup_lt_is_Some_2 (envs s) i ltac:(lia)) as [e He];
      eexists; split; [exact (Hl i e He)|reflexivity])).
    specialize (Hch (Z.to_nat (NENV L)) O ltac:(lia)).
    replace (0 <? Z.to_nat (NENV L))%nat with true in Hch
      by (symmetry; apply Nat.ltb_lt; lia).
    exact Hch.
  - intros i e He. rewrite (Hl i e He). destruct e; reflexivity.
Qed.

Lemma env_init_free_list_ok (L : Z) (s s' : State) :
  0 <= L ->
  length (envs s) = Z.to_nat (NENV L) ->
  (forall i e, envs s !! i = Some e -> env_status e = ENV_FREE) ->
  env_init L s = Returns tt s' ->
  free_list_ok s' (seq 0 (Z.to_nat (NENV L))).
Proof.
  intros HL Hlen Hfree Hrun.
  destruct (env_init_net L s HL Hlen) as (l' & Hrun' & Hlen' & Hl).
  rewrite Hrun' in Hrun. inversion Hrun; subst s'. clear Hrun.
  split; [|split]; cbn [envs env_free_list].
  - pose proof (free_chain_links l' (Z.to_nat (NENV L))) as Hch.
    specialize (Hch ltac:(
      intros i Hi;
      destruct (lookup_lt_is_Some_2 (envs s) i ltac:(lia)) as [e He];
      eexists; split; [exact (Hl i e He)|reflexivity])).
    specialize (Hch (Z.to_nat (NENV L)) O ltac:(lia)).
    pose proof (NENV_pos L HL).
    replace (0 <? Z.to_nat (NENV L))%nat with true in Hch
      by (symmetry; apply Nat.ltb_lt; lia).
    exact Hch.
  - apply NoDup_seq.
  - intros i Hi. apply elem_of_seq in Hi.
    destruct (lookup_lt_is_Some_2 (envs s) i ltac:(lia)) as [e He].
    eexists. split; [exact (Hl i e He)|]. cbn. exact (Hfree i e He).
Qed.

(** X2.  After [env_init] on a table whose slots are all FREE, successive
    calls of [env_alloc] hand out the slots 0, 1, ..., [NENV - 1] in this
    order, and every later call returns [-E_NO_FREE_ENV]. *)
Theorem env_init_then_alloc_all (L KT KD IF IOPL USS parent type : Z) (s : State) (n : nat) :
  0 <= L ->
  length (envs s) = Z.to_nat (NENV L) ->
  Forall (fun e => env_status e = ENV_FREE) (envs s) ->
  exists s1 s2,
    env_init L s = Returns tt s1
    /\ alloc_many L KT KD IF IOPL USS parent type n s1
       = Returns (map inr (seq 0 (n `min` Z.to_nat (NENV L)))
                  ++ replicate (n - Z.to_nat (NENV L)) (inl E_NO_FREE_ENV)) s2.
Proof.
  intros HL Hlen Hfree.
  destruct (env_init_net L s HL Hlen) as (l' & Hrun & _).
  pose proof (env_init_free_list_ok L s _ HL Hlen (proj1 (Forall_lookup _ _) Hfree) Hrun)
    as Hok.
  destruct (alloc_many_free_list L KT KD IF IOPL USS parent type n _ _ Hok)
    as (s2 & Hrun2 & _).
  eexists. exists s2. split; [exact Hrun|]. rewrite Hrun2.
  rewrite take_seq, length_seq. reflexivity.
Qed.

Lemma free_list_ok_not_in (s : State) (fl : list nat) (i : nat) (e : Env) :
  free_list_ok s fl -> envs s !! i = Some e -> env_status e <> ENV_FREE -> i ∉ fl.
Proof.
  intros (_ & _ & Hfree) He Hst Hin.
  destruct (Hfree i Hin) as (e' & He' & Hs'). congruence.
Qed.

Lemma free_list_ok_insert (s : State) (fl : list nat) (i : nat) (x : Env)
    (cur : EnvPtr) (st : Z) :
  free_list_ok s fl -> i ∉ fl ->
  free_list_ok (mkState (<[i := x]> (envs s)) (env_free_list s) cur st) fl.
Proof.
  intros (Hc & Hnd & Hfree) Hi. split; [|split]; cbn [envs env_free_list].
  - now apply free_chain_insert.
  - exact Hnd.
  - intros j Hj. destruct (Hfree j Hj) as (e & He & Hs). exists e.
    split; [|exact Hs]. rewrite list_lookup_insert_ne; [exact He|].
    intros ->. contradiction.
Qed.

(** The net effect of [env_destroy]. *)
Lemma env_destroy_net (e : nat) (s : State) (env : Env) :
  envs s !! e = Some env ->
  env_destroy e s
  = if decide (curenv s = Some e)
    then Yields (mkState (<[e := freed_env (env_free_list s) env]> (envs s))
                         (Some e) (curenv s) (stack_top s))
    else Returns tt (set_envs (<[e := set_env_status ENV_DYING env]> (envs s)) s).
Proof.
  intros Henv. pose proof (lookup_lt_Some _ _ _ Henv) as Hlt.
  unfold env_destroy. unfold bind at 1. rewrite (update_env_Some _ _ _ _ Henv).
  unfold bind at 1, gets. cbn [curenv set_envs].
  rewrite ptr_eqb_decide.
  repeat case_decide; try congruence; [|reflexivity].
  unfold bind.
  rewrite (env_free_Some e _ (set_env_status ENV_DYING env))
    by (cbn; now apply list_lookup_insert_eq).
  cbn. now rewrite list_insert_insert_eq.
Qed.

(** The commit step of [env_run]. *)
Lemma env_run_commit (e : nat) (s : State) (env : Env) :
  envs s !! e = Some env ->
  (do* modify (set_curenv (Some e)) in
   do* update_env e (set_env_status ENV_RUNNING) in
   let* env := read_env e in
   do* update_env e (set_env_runs (u32 (env_runs env + 1))) in
   let* env' := read_env e in
   env_pop_tf (env_tf env') : M unit) s
  = Resumes (env_tf env)
      (mkState (<[e := running_env env]> (envs s))
               (env_free_list s) (Some e) (stack_top s)).
Proof.
  intros H1. pose proof (lookup_lt_Some _ _ _ H1) as Hlt1.
  unfold bind at 1, modify at 1.
  unfold bind at 1.
  rewrite (update_env_Some _ _ (set_curenv (Some e) s) env) by exact H1.
  run_slot Hlt1. reflexivity.
Qed.

(** The net effect of [env_run]. *)
Lemma env_run_net (e : nat) (s : State) (env : Env) :
  envs s !! e = Some env ->
  (forall c, curenv s = Some c -> is_Some (envs s !! c)) ->
  env_run e s
  = if decide (curenv s = Some e /\ env_status env = ENV_DYING)
    then Yields (retire_current s)
    else
      match envs (retire_current s) !! e with
      | Some env1 =>
          Resumes (env_tf env1)
            (mkState (<[e := running_env env1]> (envs (retire_current s)))
                     (env_free_list (retire_current s)) (Some e)
                     (stack_top (retire_current s)))
      | None => Faults
      end.
Proof.
  intros Henv Hcur.
  pose proof (lookup_lt_Some _ _ _ Henv) as Hlt.
  unfold env_run. rewrite (bind_Returns _ _ _ _ _ (read_env_Some _ _ _ Henv)).
  rewrite (bind_Returns (gets curenv) _ s s (curenv s) eq_refl).
  unfold retire_current.
  destruct (curenv s) as [c|] eqn:Hc.
  2:{ rewrite decide_False by (intros [? _]; discriminate).
      rewrite Henv. unfold bind at 1, ret at 1. now apply env_run_commit. }
  destruct (Hcur c eq_refl) as [cenv Hcenv]. rewrite Hcenv.
  pose proof (lookup_lt_Some _ _ _ Hcenv) as Hltc.
  unfold bind at 1. rewrite (bind_Returns _ _ _ _ _ (read_env_Some _ _ _ Hcenv)).
  destruct (decide (c = e)) as [->|Hne].
  - assert (cenv = env) as -> by congruence.
    destruct (env_status env) eqn:Hst; cbn [bool_decide decide_rel];
      try (rewrite decide_False by (intros [_ ?]; discriminate)).
    + rewrite bool_decide_eq_false_2 by discriminate.
      rewrite bool_decide_eq_false_2 by discriminate.
      unfold ret at 1. rewrite Henv. now apply env_run_commit.
    + rewrite decide_True by (split; congruence).
      rewrite bool_decide_eq_true_2 by reflexivity.
      unfold bind. rewrite (env_free_Some _ _ _ Henv), Hc.
      cbn. rewrite Nat.eqb_refl. reflexivity.
    + rewrite bool_decide_eq_false_2 by discriminate.
      rewrite bool_decide_eq_false_2 by discriminate.
      unfold ret at 1. rewrite Henv. now apply env_run_commit.
    + rewrite bool_decide_eq_false_2 by discriminate.
      rewrite bool_decide_eq_true_2 by reflexivity.
      rewrite (update_env_Some _ _ _ _ Henv).
      cbn [envs set_envs]. rewrite list_lookup_insert_eq by exact Hlt.
      apply env_run_commit. now apply lookup_set_envs_eq.
    + rewrite bool_decide_eq_false_2 by discriminate.
      rewrite bool_decide_eq_false_2 by discriminate.
      unfold ret at 1. rewrite Henv. now apply env_run_commit.
  - rewrite decide_False by (intros [? _]; congruence).
    destruct (env_status cenv) eqn:Hst.
    + rewrite bool_decide_eq_false_2 by discriminate.
      rewrite bool_decide_eq_false_2 by discriminate.
      unfold ret at 1. rewrite Henv. now apply env_run_commit.
    + rewrite bool_decide_eq_true_2 by reflexivity.
      unfold bind at 1. rewrite (env_free_Some _ _ _ Hcenv), Hc.
      cbn [ptr_eqb]. rewrite (proj2 (Nat.eqb_neq c e) Hne). unfold ret at 1.
      cbn [envs]. rewrite list_lookup_insert_ne by exact Hne. rewrite Henv.
      apply env_run_commit. cbn. now rewrite list_lookup_insert_ne.
    + rewrite bool_decide_eq_false_2 by discriminate.
      rewrite bool_decide_eq_false_2 by discriminate.
      unfold ret at 1. rewrite Henv. now apply env_run_commit.
    + rewrite bool_decide_eq_false_2 by discriminate.
      rewrite bool_decide_eq_true_2 by reflexivity.
      rewrite (update_env_Some _ _ _ _ Hcenv).
      cbn [envs set_envs]. rewrite list_lookup_insert_ne by exact Hne. rewrite Henv.
      apply env_run_commit. cbn. now rewrite list_lookup_insert_ne.
    + rewrite bool_decide_eq_false_2 by discriminate.
      rewrite bool_decide_eq_false_2 by discriminate.
      unfold ret at 1. rewrite Henv. now apply env_run_commit.
Qed.

(** X3.  [env_alloc] keeps the free list well formed.  On an empty list
    it returns [-E_NO_FREE_ENV] and changes nothing; otherwise it returns
    the head of the list, which is then RUNNABLE and no longer on the
    list, the list that remains is the tail, and no other slot of the
    table has changed. *)
Theorem env_alloc_pops_free_list (L KT KD IF IOPL USS parent type : Z) (s : State)
    (fl : list nat) :
  free_list_ok s fl ->
  match fl with
  | [] => env_alloc L KT KD IF IOPL USS parent type s = Returns (inl E_NO_FREE_ENV) s
  | i :: rest =>
      exists s' env',
        env_alloc L KT KD IF IOPL USS parent type s = Returns (inr i) s'
        /\ free_list_ok s' rest
        /\ (i ∉ rest)
        /\ envs s' !! i = Some env'
        /\ env_status env' = ENV_RUNNABLE
        /\ (forall j, j <> i -> envs s' !! j = envs s !! j)
  end.
Proof.
  intros Hok. destruct fl as [|i rest].
  - now apply env_alloc_empty.
  - destruct (env_alloc_free_list L KT KD IF IOPL USS parent type s i rest Hok)
      as (env & Hi & Hrun & Hok').
    pose proof (lookup_lt_Some _ _ _ Hi) as Hlt.
    destruct Hok as (_ & Hnd & _). apply NoDup_cons in Hnd as [Hnotin _].
    eexists _, _. split; [exact Hrun|]. split; [exact Hok'|].
    split; [exact Hnotin|]. cbn [envs].
    split; [now apply list_lookup_insert_eq|]. split; [reflexivity|].
    intros j Hj. now apply list_lookup_insert_ne.
Qed.

(** X4.  [env_free] of a slot that is not FREE keeps the free list well
    formed and pushes the slot at its head; [curenv], the stack watermark
    and every other slot are unchanged. *)
Theorem env_free_pushes_free_list (e : nat) (s : State) (env : Env) (fl : list nat) :
  free_list_ok s fl ->
  envs s !! e = Some env ->
  env_status env <> ENV_FREE ->
  exists s',
    env_free e s = Returns tt s'
    /\ free_list_ok s' (e :: fl)
    /\ curenv s' = curenv s
    /\ stack_top s' = stack_top s
    /\ (forall j, j <> e -> envs s' !! j = envs s !! j).
Proof.
  intros Hok He Hst. eexists. split; [exact (env_free_Some e s env He)|].
  split; [now apply env_free_free_list|].
  split; [reflexivity|]. split; [reflexivity|].
  intros j Hj. cbn. now apply list_lookup_insert_ne.
Qed.

(** X5.  [env_free] does not check that its target is in use.  Freeing
    a slot twice in a row leaves it linked to itself at the head of the
    free list, and from then on every call of [env_alloc] returns this one
    slot again: [n] allocations give [n] times the same environment. *)
Theorem env_free_twice (L KT KD IF IOPL USS parent type : Z) (e : nat) (s : State)
    (env : Env) (n : nat) :
  envs s !! e = Some env ->
  exists s2 env2 s3,
    bind (env_free e) (fun _ => env_free e) s = Returns tt s2
    /\ env_free_list s2 = Some e
    /\ envs s2 !! e = Some env2
    /\ env_link env2 = Some e
    /\ alloc_many L KT KD IF IOPL USS parent type n s2
       = Returns (replicate n (inr e)) s3
    /\ env_free_list s3 = Some e.
Proof.
  intros He. pose proof (lookup_lt_Some _ _ _ He) as Hlt.
  rewrite (bind_Returns _ _ _ _ _ (env_free_Some e s env He)).
  rewrite (env_free_Some e _ (freed_env (env_free_list s) env))
    by (cbn; now apply list_lookup_insert_eq).
  cbn [envs env_free_list curenv stack_top]. rewrite list_insert_insert_eq.
  match goal with |- context [Returns tt ?t] => set (s2 := t) end.
  assert (Hloop : forall k (t : State) (x : Env),
            env_free_list t = Some e -> envs t !! e = Some x -> env_link x = Some e ->
            exists t', alloc_many L KT KD IF IOPL USS parent type k t
                       = Returns (replicate k (inr e)) t'
                       /\ env_free_list t' = Some e).
  { induction k as [|k IH]; intros t x Hfl Hx Hlink.
    - exists t. split; [reflexivity|exact Hfl].
    - cbn [alloc_many].
      pose proof (env_alloc_closed_form L KT KD IF IOPL USS parent type t) as Hrun.
      rewrite Hfl, Hx in Hrun. rewrite (bind_Returns _ _ _ _ _ Hrun).
      match goal with |- ex (fun _ => bind _ _ ?t1 = _ /\ _) =>
        destruct (IH t1 (mkEnv (fresh_tf KT KD IF IOPL (stack_top t)) (env_link x)
                           (next_env_id L (env_id x) e) parent type ENV_RUNNABLE 0))
          as (t' & Hrun' & Hfl') end.
      + cbn. exact Hlink.
      + cbn. apply list_lookup_insert_eq. eapply lookup_lt_Some; eauto.
      + cbn. exact Hlink.
      + exists t'. rewrite (bind_Returns _ _ _ _ _ Hrun'). split; [reflexivity|exact Hfl']. }
  destruct (Hloop n s2 (freed_env (Some e) (freed_env (env_free_list s) env)))
    as (s3 & Hrun3 & Hfl3).
  - reflexivity.
  - cbn. now apply list_lookup_insert_eq.
  - reflexivity.
  - exists s2, (freed_env (Some e) (freed_env (env_free_list s) env)), s3.
    split; [reflexivity|]. split; [reflexivity|].
    split; [cbn; now apply list_lookup_insert_eq|]. split; [reflexivity|].
    split; [exact Hrun3|exact Hfl3].
Qed.

(** ** Allocation, lookup and reuse *)

(** X6.  The identifier [env_alloc] stores resolves to the slot it
    returns: it is not 0, [envid2env] without permission check finds the
    new environment, and so does [envid2env] with permission check when
    the parent identifier given to [env_alloc] is that of the current
    environment. *)
Theorem env_alloc_then_lookup (L KT KD IF IOPL USS parent type : Z) (s : State)
    (i : nat) (env : Env) :
  0 <= L <= ENVGENSHIFT ->
  length (envs s) = Z.to_nat (NENV L) ->
  env_free_list s = Some i ->
  envs s !! i = Some env ->
  exists s' env',
    env_alloc L KT KD IF IOPL USS parent type s = Returns (inr i) s'
    /\ envs s' !! i = Some env'
    /\ env_id env' <> 0
    /\ envid2env L (env_id env') false s' = Returns (Success, Some i) s'
    /\ (curenv_id s = Some parent \/ curenv s = Some i ->
        envid2env L (env_id env') true s' = Returns (Success, Some i) s').
Proof.
  intros HL Hlen Hfl Henv.
  pose proof (lookup_lt_Some _ _ _ Henv) as Hlt.
  assert (Hi : Z.of_nat i < NENV L).
  { rewrite Hlen in Hlt. pose proof (NENV_pos L (proj1 HL)). lia. }
  destruct (next_env_id_value L (env_id env) i HL Hi) as (Hval & Hpos & Hx & Hgen).
  pose proof (env_alloc_closed_form L KT KD IF IOPL USS parent type s) as Hrun.
  rewrite Hfl, Henv in Hrun.
  eexists _, _. split; [exact Hrun|].
  split; [cbn; now apply list_lookup_insert_eq|].
  cbn [env_id]. split; [lia|].
  match goal with |- context [envid2env _ _ _ ?t] => set (s' := t) end.
  assert (Hslot : envs s' !! Z.to_nat (ENVX L (next_env_id L (env_id env) i))
                  = Some (mkEnv (fresh_tf KT KD IF IOPL (stack_top s)) (env_link env)
                            (next_env_id L (env_id env) i) parent type ENV_RUNNABLE 0)).
  { rewrite Hx, Nat2Z.id. cbn. now apply list_lookup_insert_eq. }
  assert (Hhead : forall chk,
            envid2env L (next_env_id L (env_id env) i) chk s'
            = (let* cur := gets curenv in
               if chk && negb (ptr_eqb (Some i) cur) then
                 let* c := deref cur in
                 let* cenv := read_env c in
                 if negb (parent =? env_id cenv) then ret (Failure E_BAD_ENV, None)
                 else ret (Success, Some i)
               else ret (Success, Some i)) s').
  { intros chk. unfold envid2env.
    destruct (Z.eqb_spec (next_env_id L (env_id env) i) 0) as [E|_]; [lia|].
    cbv zeta. rewrite (bind_Returns _ _ _ _ _ (read_env_Some _ _ _ Hslot)).
    cbn [env_status env_id env_parent_id].
    rewrite bool_decide_eq_false_2 by discriminate.
    rewrite Z.eqb_refl. cbn [orb negb]. rewrite Hx, Nat2Z.id. reflexivity. }
  split.
  - rewrite Hhead. reflexivity.
  - intros Hperm. rewrite Hhead. unfold bind at 1, gets at 1.
    cbn [andb]. rewrite ptr_eqb_decide.
    change (curenv s') with (curenv s).
    case_decide as E; [reflexivity|].
    cbn [negb]. destruct Hperm as [Hperm|Hperm]; [|congruence].
    unfold curenv_id in Hperm.
    destruct (curenv s) as [c|] eqn:Hc; [|discriminate].
    destruct (envs s !! c) as [cenv|] eqn:Hcenv; [|discriminate].
    inversion Hperm; subst parent.
    assert (Hci : c <> i) by congruence.
    unfold deref. rewrite (bind_Returns (ret c) _ s' s' c eq_refl).
    rewrite (bind_Returns _ _ _ _ _ (read_env_Some c s' cenv
               ltac:(cbn; now rewrite list_lookup_insert_ne by congruence))).
    rewrite Z.eqb_refl. reflexivity.
Qed.

(** X7.  Once an environment is freed its identifier no longer resolves:
    [envid2env] returns [-E_BAD_ENV] for it, with or without permission
    check. *)
Theorem env_free_then_lookup (L : Z) (e : nat) (s : State) (env : Env)
    (need_check_perm : bool) :
  envs s !! e = Some env ->
  env_id env <> 0 ->
  Z.to_nat (ENVX L (env_id env)) = e ->
  exists s',
    env_free e s = Returns tt s'
    /\ envid2env L (env_id env) need_check_perm s' = Returns (Failure E_BAD_ENV, None) s'.
Proof.
  intros He Hnz Hslot. pose proof (lookup_lt_Some _ _ _ He) as Hlt.
  set (s' := mkState (<[e := freed_env (env_free_list s) env]> (envs s))
                     (Some e) (curenv s) (stack_top s)).
  assert (He' : envs s' !! e = Some (freed_env (env_free_list s) env))
    by (cbn; now apply list_lookup_insert_eq).
  exists s'. split; [exact (env_free_Some e s env He)|].
  unfold envid2env.
  destruct (Z.eqb_spec (env_id env) 0) as [|_]; [contradiction|].
  cbv zeta. rewrite Hslot.
  rewrite (bind_Returns _ _ _ _ _ (read_env_Some _ _ _ He')).
  cbn [freed_env env_status set_env_link set_env_status].
  rewrite bool_decide_eq_true_2 by reflexivity. reflexivity.
Qed.

(** X8.  The free list is last-in first-out, and stacks are not
    reclaimed: [env_alloc] right after [env_free] of a slot returns that
    slot and leaves the free list as it was before the two calls, but the
    new environment gets its stack at the current watermark, which goes
    down by [USTACKSIZE] once more. *)
Theorem env_free_then_alloc (L KT KD IF IOPL USS parent type : Z) (e : nat) (s : State)
    (env : Env) :
  envs s !! e = Some env ->
  exists s' env',
    bind (env_free e) (fun _ => env_alloc L KT KD IF IOPL USS parent type) s
    = Returns (inr e) s'
    /\ env_free_list s' = env_free_list s
    /\ curenv s' = curenv s
    /\ stack_top s' = u64 (stack_top s - USS)
    /\ envs s' !! e = Some env'
    /\ tf_rsp (env_tf env') = stack_top s
    /\ env_status env' = ENV_RUNNABLE
    /\ env_runs env' = 0
    /\ (forall j, j <> e -> envs s' !! j = envs s !! j).
Proof.
  intros He. pose proof (lookup_lt_Some _ _ _ He) as Hlt.
  rewrite (bind_Returns _ _ _ _ _ (env_free_Some e s env He)).
  rewrite env_alloc_closed_form. cbn [env_free_list envs curenv stack_top].
  rewrite list_lookup_insert_eq by exact Hlt.
  eexists _, _. split; [reflexivity|]. cbn [env_free_list envs curenv stack_top].
  split; [reflexivity|]. split; [reflexivity|]. split; [reflexivity|].
  split; [apply list_lookup_insert_eq; now rewrite length_insert|].
  split; [reflexivity|]. split; [reflexivity|]. split; [reflexivity|].
  intros j Hj. now rewrite !list_lookup_insert_ne by congruence.
Qed.

(** ** The system calls *)

(** X9.  [csys_yield] saves the given trap frame in the current
    environment and nothing else, then hands control to [sched_yield];
    when the scheduler next runs this environment, [env_run] resumes it
    with exactly that frame. *)
Theorem csys_yield_then_run (tf : Trapframe) (s : State) (c : nat) (cenv : Env) :
  curenv s = Some c ->
  envs s !! c = Some cenv ->
  env_status cenv <> ENV_DYING ->
  exists s1 s2,
    csys_yield tf s = Yields s1
    /\ envs s1 !! c = Some (set_env_tf tf cenv)
    /\ (forall j, j <> c -> envs s1 !! j = envs s !! j)
    /\ env_free_list s1 = env_free_list s
    /\ curenv s1 = curenv s
    /\ stack_top s1 = stack_top s
    /\ env_run c s1 = Resumes tf s2.
Proof.
  intros Hc Hcenv Hst. pose proof (lookup_lt_Some _ _ _ Hcenv) as Hlt.
  set (s1 := set_envs (<[c := set_env_tf tf cenv]> (envs s)) s).
  assert (H1 : envs s1 !! c = Some (set_env_tf tf cenv))
    by (now apply lookup_set_envs_eq).
  assert (Hy : csys_yield tf s = Yields s1).
  { unfold csys_yield. unfold bind at 1, gets at 1. rewrite Hc.
    unfold deref. unfold bind at 1, ret at 1.
    unfold bind. now rewrite (update_env_Some _ _ _ _ Hcenv). }
  pose proof (env_run_net c s1 (set_env_tf tf cenv) H1) as Hrun.
  specialize (Hrun ltac:(intros c' Hc'; cbn in Hc'; rewrite Hc in Hc';
                         inversion Hc'; subst c'; now rewrite H1)).
  rewrite decide_False in Hrun by (intros [_ ?]; now destruct cenv).
  assert (Hr : exists env1, envs (retire_current s1) !! c = Some env1
                            /\ env_tf env1 = tf).
  { unfold retire_current. change (curenv s1) with (curenv s). rewrite Hc, H1.
    destruct cenv as [? ? ? ? ? [] ?]; cbn;
      try (eexists; split; [rewrite list_lookup_insert_eq by exact Hlt; reflexivity|reflexivity]);
      try (eexists; split; [rewrite list_insert_insert_eq;
                            rewrite list_lookup_insert_eq by exact Hlt; reflexivity|reflexivity]). }
  destruct Hr as (env1 & Hr1 & Htf). rewrite Hr1, Htf in Hrun.
  eexists s1, _. split; [exact Hy|]. split; [exact H1|].
  split; [intros j Hj; cbn; now apply list_lookup_insert_ne|].
  split; [reflexivity|]. split; [reflexivity|]. split; [reflexivity|].
  exact Hrun.
Qed.

(** X10.  [csys_exit] never returns to its caller.  Without a current
    environment it panics.  Otherwise the current environment is freed,
    being FREE at the head of the free list with its link to the previous
    head, control goes to [sched_yield], and [curenv] still designates
    the freed slot. *)
Theorem csys_exit_never_returns (s : State) :
  match csys_exit s with
  | Panics => curenv s = None
  | Continues (Yields s') =>
      exists c cenv,
        curenv s = Some c
        /\ envs s !! c = Some cenv
        /\ envs s' !! c = Some (set_env_link (env_free_list s)
                                  (set_env_status ENV_FREE cenv))
        /\ env_free_list s' = Some c
        /\ curenv s' = Some c
        /\ stack_top s' = stack_top s
        /\ (forall j, j <> c -> envs s' !! j = envs s !! j)
  | Continues Faults => exists c, curenv s = Some c /\ envs s !! c = None
  | Continues (Returns _ _) => False
  | Continues (Resumes _ _) => False
  end.
Proof.
  unfold csys_exit. destruct (curenv s) as [c|] eqn:Hc; [|reflexivity].
  destruct (envs s !! c) as [cenv|] eqn:Hcenv.
  - pose proof (lookup_lt_Some _ _ _ Hcenv) as Hlt.
    rewrite (env_destroy_net c s cenv Hcenv).
    rewrite decide_True by exact Hc.
    exists c, cenv. cbn [envs env_free_list curenv stack_top].
    split; [reflexivity|]. split; [exact Hcenv|].
    split; [now apply list_lookup_insert_eq|]. split; [reflexivity|].
    split; [exact Hc|]. split; [reflexivity|].
    intros j Hj. now apply list_lookup_insert_ne.
  - unfold env_destroy, bind, update_env. rewrite Hcenv. now exists c.
Qed.

(** ** env_run and the invariants of the table *)

Lemma retire_current_no_running (s : State) :
  (forall c, curenv s = Some c -> is_Some (envs s !! c)) ->
  only_current_runs s ->
  forall i x, envs (retire_current s) !! i = Some x -> env_status x <> ENV_RUNNING.
Proof.
  intros Hcur Hinv i x Hx Hrun. unfold retire_current in Hx.
  destruct (curenv s) as [c|] eqn:Hc.
  2:{ specialize (Hinv i x Hx Hrun). congruence. }
  destruct (Hcur c eq_refl) as [cenv Hcenv]. rewrite Hcenv in Hx.
  pose proof (lookup_lt_Some _ _ _ Hcenv) as Hlt.
  assert (Hother : i <> c -> envs s !! i = Some x -> False).
  { intros Hne Hi. specialize (Hinv i x Hi Hrun). congruence. }
  destruct (decide (i = c)) as [->|Hne].
  - destruct (env_status cenv) eqn:Hst; cbn in Hx;
      rewrite ?list_lookup_insert_eq in Hx by exact Hlt;
      try (rewrite Hcenv in Hx); inversion Hx; subst x; cbn in Hrun; try congruence.

  - destruct (env_status cenv) eqn:Hst; cbn in Hx;
      rewrite ?list_lookup_insert_ne in Hx by congruence; now apply Hother.
Qed.

Lemma retire_current_free_list (s : State) (fl : list nat) :
  (forall c, curenv s = Some c -> is_Some (envs s !! c)) ->
  free_list_ok s fl ->
  (exists c cenv,
     curenv s = Some c /\ envs s !! c = Some cenv /\ env_status cenv = ENV_DYING
     /\ free_list_ok (retire_current s) (c :: fl))
  \/ ((forall c cenv, curenv s = Some c -> envs s !! c = Some cenv ->
                      env_status cenv <> ENV_DYING)
      /\ free_list_ok (retire_current s) fl).
Proof.
  intros Hcur Hok. unfold retire_current.
  destruct (curenv s) as [c|] eqn:Hc.
  2:{ right. split; [discriminate|exact Hok]. }
  destruct (Hcur c eq_refl) as [cenv Hcenv]. rewrite Hcenv.
  destruct (env_status cenv) eqn:Hst.
  - right. split; [|exact Hok]. intros ? ? [= <-] ?. congruence.
  - left. exists c, cenv. split; [reflexivity|]. split; [exact Hcenv|].
    split; [exact Hst|].
    apply env_free_free_list; [assumption..|]. congruence.
  - right. split; [|exact Hok]. intros ? ? [= <-] ?. congruence.
  - right. split; [intros ? ? [= <-] ?; congruence|].
    apply free_list_ok_insert; [exact Hok|].
    apply (free_list_ok_not_in s fl c cenv Hok Hcenv). congruence.
  - right. split; [|exact Hok]. intros ? ? [= <-] ?. congruence.
Qed.

(** X11.  [env_run] keeps at most one environment RUNNING.  If no
    environment but the current one is RUNNING before the call, then
    after a dispatch the target is current and it is the only RUNNING
    environment, and after the yield of a dying target no environment is
    RUNNING.  The call neither returns nor follows a bad pointer. *)
Theorem env_run_single_running (e : nat) (s : State) (env : Env) :
  envs s !! e = Some env ->
  (forall c, curenv s = Some c -> is_Some (envs s !! c)) ->
  only_current_runs s ->
  match env_run e s with
  | Resumes _ s' =>
      curenv s' = Some e
      /\ forall i x, envs s' !! i = Some x -> (env_status x = ENV_RUNNING <-> i = e)
  | Yields s' =>
      forall i x, envs s' !! i = Some x -> env_status x <> ENV_RUNNING
  | Returns _ _ => False
  | Faults => False
  end.
Proof.
  intros Henv Hcur Hinv.
  pose proof (retire_current_no_running s Hcur Hinv) as Hno.
  rewrite (env_run_net e s env Henv Hcur).
  case_decide as Hd; [exact Hno|].
  destruct (envs (retire_current s) !! e) as [env1|] eqn:H1.
  - pose proof (lookup_lt_Some _ _ _ H1) as Hlt.
    split; [reflexivity|]. cbn [envs]. intros i x Hx.
    destruct (decide (i = e)) as [->|Hne].
    + rewrite list_lookup_insert_eq in Hx by exact Hlt. inversion Hx; subst x.
      split; reflexivity.
    + rewrite list_lookup_insert_ne in Hx by congruence.
      split; [intros Hr; now destruct (Hno i x Hx)|congruence].
  - assert (Hlen : length (envs (retire_current s)) = length (envs s)).
    { unfold retire_current. destruct (curenv s) as [c|]; [|reflexivity].
      destruct (envs s !! c) as [cenv|]; [|reflexivity].
      destruct (env_status cenv); cbn; rewrite ?length_insert; reflexivity. }
    apply lookup_ge_None in H1. apply lookup_lt_Some in Henv. lia.
Qed.

(** X12.  [env_run] of a target that is not FREE keeps the free list
    well formed: the list is as before, or has the previously current
    environment pushed at its head when that one was DYING. *)
Theorem env_run_keeps_free_list (e : nat) (s : State) (env : Env) (fl : list nat) :
  envs s !! e = Some env ->
  (forall c, curenv s = Some c -> is_Some (envs s !! c)) ->
  free_list_ok s fl ->
  env_status env <> ENV_FREE ->
  match env_run e s with
  | Resumes _ s' | Yields s' =>
      exists fl',
        free_list_ok s' fl'
        /\ (fl' = fl \/ exists c, curenv s = Some c /\ fl' = c :: fl)
  | Returns _ _ => False
  | Faults => False
  end.
Proof.
  intros Henv Hcur Hok Hst.
  pose proof (free_list_ok_not_in s fl e env Hok Henv Hst) as Hnotin.
  rewrite (env_run_net e s env Henv Hcur).
  destruct (retire_current_free_list s fl Hcur Hok)
    as [(c & cenv & Hc & Hcenv & Hdy & Hok1)|(Hnd & Hok1)].
  - case_decide as Hd.
    + exists (c :: fl). split; [exact Hok1|]. right. now exists c.
    + assert (Hne : c <> e).
      { intros ->. apply Hd. split; [exact Hc|]. congruence. }
      destruct (envs (retire_current s) !! e) as [env1|] eqn:H1.
      * exists (c :: fl). split; [|right; now exists c].
        apply free_list_ok_insert; [exact Hok1|].
        apply not_elem_of_cons. split; [congruence|exact Hnotin].
      * unfold retire_current in H1. rewrite Hc, Hcenv, Hdy in H1. cbn in H1.
        rewrite list_lookup_insert_ne in H1 by exact Hne. congruence.
  - rewrite decide_False by (intros [Hc Hd]; exact (Hnd e env Hc Henv Hd)).
    destruct (envs (retire_current s) !! e) as [env1|] eqn:H1.
    + exists fl. split; [|now left]. now apply free_list_ok_insert.
    + assert (Hlen : length (envs (retire_current s)) = length (envs s)).
      { unfold retire_current. destruct (curenv s) as [c|]; [|reflexivity].
        destruct (envs s !! c) as [cenv|]; [|reflexivity].
        destruct (env_status cenv); cbn; rewrite ?length_insert; reflexivity. }
      apply lookup_ge_None in H1. apply lookup_lt_Some in Henv. lia.
Qed.

(** X13.  [env_run] does not look at the status of its target.  An
    environment that [env_destroy] has marked DYING while another one was
    current is dispatched like any other: [env_run] resumes it at its
    saved frame, RUNNING and current, and the mark is lost. *)
Theorem env_destroy_then_run (e : nat) (s : State) (env : Env) :
  envs s !! e = Some env ->
  curenv s <> Some e ->
  (forall c, curenv s = Some c -> is_Some (envs s !! c)) ->
  exists s1 s2,
    env_destroy e s = Returns tt s1
    /\ envs s1 !! e = Some (set_env_status ENV_DYING env)
    /\ env_run e s1 = Resumes (env_tf env) s2
    /\ curenv s2 = Some e
    /\ envs s2 !! e = Some (running_env (set_env_status ENV_DYING env))
    /\ env_free_list s2 = env_free_list (retire_current s1).
Proof.
  intros Henv Hne Hcur. pose proof (lookup_lt_Some _ _ _ Henv) as Hlt.
  set (s1 := set_envs (<[e := set_env_status ENV_DYING env]> (envs s)) s).
  assert (H1 : envs s1 !! e = Some (set_env_status ENV_DYING env))
    by (now apply lookup_set_envs_eq).
  assert (Hcur1 : forall c, curenv s1 = Some c -> is_Some (envs s1 !! c)).
  { intros c Hc. cbn in Hc. destruct (Hcur c Hc) as [cenv Hcenv].
    apply lookup_lt_is_Some_2. cbn. rewrite length_insert.
    eapply lookup_lt_Some; eauto. }
  pose proof (env_run_net e s1 _ H1 Hcur1) as Hrun.
  rewrite decide_False in Hrun by (intros [? _]; cbn in *; congruence).
  assert (Hr : envs (retire_current s1) !! e = Some (set_env_status ENV_DYING env)).
  { unfold retire_current. change (curenv s1) with (curenv s).
    destruct (curenv s) as [c|] eqn:Hc; [|exact H1].
    destruct (envs s1 !! c) as [cenv|]; [|exact H1].
    assert (c <> e) by congruence.
    destruct (env_status cenv); cbn [envs set_envs];
      rewrite ?list_lookup_insert_ne by assumption; exact H1. }
  rewrite Hr in Hrun.
  exists s1. eexists. split.
  { rewrite (env_destroy_net e s env Henv). now rewrite decide_False by exact Hne. }
  split; [exact H1|]. split; [exact Hrun|]. split; [reflexivity|].
  split; [|reflexivity]. cbn [envs].
  apply list_lookup_insert_eq. eapply lookup_lt_Some; eauto.
Qed.

(** ** envid2env reads only *)

(** X19.  [envid2env] only reads: it returns with the state it was
    given, or stops on a bad pointer, and never hands control away.  Its
    only error is [-E_BAD_ENV], with a null result.  On success for a
    nonzero identifier the result is the slot the identifier decodes to,
    which holds that identifier and is not FREE; for the identifier 0 it
    is [curenv]. *)
Theorem envid2env_reads_only (L : Z) (envid : Z) (need_check_perm : bool) (s : State) :
  match envid2env L envid need_check_perm s with
  | Returns (Success, p) s' =>
      s' = s
      /\ (if envid =? 0 then p = curenv s
          else exists env,
                 p = Some (Z.to_nat (ENVX L envid))
                 /\ envs s !! Z.to_nat (ENVX L envid) = Some env
                 /\ env_id env = envid
                 /\ env_status env <> ENV_FREE)
  | Returns (Failure err, p) s' => s' = s /\ err = E_BAD_ENV /\ p = None
  | Faults => envid <> 0
  | Yields _ => False
  | Resumes _ _ => False
  end.
Proof.
  unfold envid2env. destruct (Z.eqb_spec envid 0) as [->|Hnz].
  - cbn. split; reflexivity.
  - cbv zeta. unfold bind at 1. unfold read_env at 1.
    destruct (envs s !! Z.to_nat (ENVX L envid)) as [env|] eqn:Henv; [|exact Hnz].
    assert (Hok : env_status env <> ENV_FREE -> env_id env = envid ->
                  s = s /\ exists env0, Some (Z.to_nat (ENVX L envid)) = Some (Z.to_nat (ENVX L envid))
                    /\ Some env = Some env0 /\ env_id env0 = envid
                    /\ env_status env0 <> ENV_FREE).
    { intros. split; [reflexivity|]. now exists env. }
    case_bool_decide as Hst; [cbn; now repeat split|].
    destruct (Z.eqb_spec (env_id env) envid) as [Hid|Hid]; [|cbn; now repeat split].
    cbn [orb negb]. unfold bind at 1, gets at 1.
    destruct need_check_perm; cbn [andb]; [|now apply Hok].
    destruct (ptr_eqb (Some (Z.to_nat (ENVX L envid))) (curenv s)); cbn [negb];
      [now apply Hok|].
    destruct (curenv s) as [c|]; [|exact Hnz].
    unfold deref. unfold bind at 1, ret at 1. unfold bind at 1, read_env at 1.
    destruct (envs s !! c) as [cenv|]; [|exact Hnz].
    destruct (env_parent_id env =? env_id cenv); cbn [negb];
      [now apply Hok|cbn; now repeat split].
Qed.

(** ** The loader, further *)

Lemma for_loop_preserves {S : Type} (P : S -> Prop) (bound : S -> Z)
    (body : Z -> S -> Flow S) :
  (forall i s, P s ->
     match body i s with
     | Next s' | Break s' | Return _ s' => P s'
     | OutOfFuel => True
     end) ->
  forall (fuel : nat) (i : Z) (s : S), P s ->
    match for_loop fuel bound body i s with
    | Next s' | Break s' | Return _ s' => P s'
    | OutOfFuel => True
    end.
Proof.
  intros Hbody. induction fuel as [|fuel IH]; intros i s Hs; cbn [for_loop].
  - destruct (i <? bound s); [exact I|exact Hs].
  - destruct (i <? bound s); [|exact Hs].
    specialize (Hbody i s Hs). destruct (body i s) as [s'|s'|r s'|]; try assumption.
    now apply IH.
Qed.

Section LoaderExtras.

Variable UTOP : Z.
Variable find_function : Mem -> Z -> Z.


(** X16.  A loadable program header that passes the two checks of the
    loop of [load_icode] is loaded: the first [min (p_filesz, p_memsz)]
    bytes at [p_va] become those at [p_offset] in the image, the bytes
    after them up to [p_memsz] become zero, no other byte changes, and the
    span of the image grows to contain [p_va] and [p_va + p_memsz]. *)
Theorem load_segment_loads (binary size ph i : Z) (s : Span) :
  let m := span_mem s in
  let phi := elem ph sizeof_Proghdr i in
  let src := u64 (binary + p_offset m phi) in
  let dst := p_va m phi in
  let memsz := p_memsz m phi in
  let filesz := Z.min (p_filesz m phi) memsz in
  p_type m phi = ELF_PROG_LOAD ->
  u64 (src + filesz) <= u64 (binary + size) ->
  u64 (dst + memsz) <= UTOP ->
  exists s',
    load_segment UTOP binary size ph i s = Next s'
    /\ min_addr s' = Z.min (min_addr s) dst
    /\ max_addr s' = Z.max (max_addr s) (u64 (dst + memsz))
    /\ (forall k, 0 <= k < filesz -> span_mem s' (u64 (dst + k)) = m (u64 (src + k)))
    /\ (forall k, filesz <= k < memsz -> span_mem s' (u64 (dst + k)) = x00)
    /\ (forall a, memsz <= u64 (a - dst) -> span_mem s' a = m a).
Proof.
  intros m phi src dst memsz filesz Hty Hsrc Hdst.
  assert (Hnext : load_segment UTOP binary size ph i s
                  = Next (mkSpan (memset (memcpy m dst src filesz) (u64 (dst + filesz))
                                    x00 (memsz - filesz))
                            (Z.min (min_addr s) dst)
                            (Z.max (max_addr s) (u64 (dst + memsz))))).
  { unfold load_segment. fold m phi. rewrite Hty, Z.eqb_refl.
    fold src dst memsz filesz.
    destruct (Z.gtb_spec (u64 (src + filesz)) (u64 (binary + size))); [lia|].
    destruct (Z.gtb_spec (u64 (dst + memsz)) UTOP); [lia|]. reflexivity. }
  eexists. split; [exact Hnext|]. split; [reflexivity|]. split; [reflexivity|].
  destruct (load_segment_accepted UTOP binary size ph i s _ Hty Hnext)
    as (_ & _ & _ & H1 & H2 & H3).
  split; [exact H1|]. split; [exact H2|exact H3].
Qed.


(** X18.  [bind_functions] writes only into the program image: when the
    image ends at least 8 bytes before the top of the address space, a
    byte below [image_start] or at [image_end + 8] or above is the same
    after the call as before, whatever the call returns. *)
Theorem bind_functions_frame (fuel : nat) (m : Mem) (binary size image_start image_end : Z)
    (a : Z) :
  image_end + 8 <= 2 ^ 64 ->
  0 <= a < 2 ^ 64 ->
  a < image_start \/ image_end + 8 <= a ->
  match bind_functions find_function fuel m binary size image_start image_end with
  | Next m' | Break m' | Return _ m' => m' a = m a
  | OutOfFuel => True
  end.
Proof.
  intros Hend Ha Hout.
  cut (match bind_functions find_function fuel m binary size image_start image_end with
       | Next m' | Break m' | Return _ m' =>
           forall a, 0 <= a < 2 ^ 64 -> a < image_start \/ image_end + 8 <= a -> m' a = m a
       | OutOfFuel => True
       end).
  { destruct (bind_functions _ _ _ _ _ _ _); intros H; try exact I; now apply H. }
  clear a Ha Hout.
  set (P := fun m' : Mem =>
              forall a, 0 <= a < 2 ^ 64 -> a < image_start \/ image_end + 8 <= a ->
                        m' a = m a).
  assert (HP : P m) by (intros a _ _; reflexivity).
  assert (Hsym : forall syms strings hdr j m0, P m0 ->
            match bind_symbol find_function syms strings hdr image_start image_end j m0 with
            | Next m' | Break m' | Return _ m' => P m'
            | OutOfFuel => True
            end).
  { intros syms strings hdr j m0 H0. unfold bind_symbol. cbv zeta.
    destruct (_ && _); [|exact H0].
    destruct (_ >? _); [exact H0|].
    destruct (Z.ltb_spec (st_value m0 (elem syms sizeof_Sym j)) image_start) as [|Hlo];
      [exact H0|].
    destruct (Z.gtb_spec (st_value m0 (elem syms sizeof_Sym j)) image_end) as [|Hhi];
      [exact H0|].
    cbn [orb]. destruct (negb _); [|exact H0].
    intros a Ha Hout. rewrite store_outside; [now apply H0|].
    pose proof (load_range 8 m0 (elem syms sizeof_Sym j + 8)) as Hv.
    unfold st_value in Hlo, Hhi |- *.
    set (v := load 8 m0 (elem syms sizeof_Sym j + 8)) in *.
    unfold sizeof_ptr. destruct Hout as [Hout|Hout].
    - rewrite u64_negative by lia. lia.
    - rewrite u64_small by lia. lia. }
  assert (Hsec : forall sh strings hdr i m0, P m0 ->
            match bind_section find_function binary size sh strings hdr
                    image_start image_end i m0 with
            | Next m' | Break m' | Return _ m' => P m'
            | OutOfFuel => True
            end).
  { intros sh strings hdr i m0 H0. unfold bind_section. cbv zeta.
    destruct (_ =? _); [|exact H0].
    destruct (_ >? _); [exact H0|].
    destruct (negb _); [exact H0|].
    apply (for_loop_preserves P); [|exact H0].
    intros j m1 H1. now apply Hsym. }
  unfold bind_functions. cbv zeta.
  destruct (_ >? _); [exact HP|].
  destruct (find_strtab _ _ _ _ _) as [t|t|r t|]; try exact HP; try exact I.
  all: destruct (_ =? _); [exact HP|].
  all: destruct (_ >? _); [exact HP|].
  all: destruct (_ =? _); [exact HP|].
  all: destruct (negb _); [exact HP|].
  all: match goal with |- context [for_loop ?f ?b ?body ?i ?s] =>
         pose proof (for_loop_preserves P b body
                       ltac:(intros i0 s0 Hs0; now apply Hsec) f i s HP) as Hloop;
         destruct (for_loop f b body i s); exact Hloop
       end.
Qed.

End LoaderExtras.

(** ** env_create *)


(** ** Instances of the statements above *)

Lemma demo_free_list_ok : free_list_ok demo_state [2%nat].
Proof.
  split; [|split].
  - apply (free_chain_cons _ 2%nat (demo_env 8194 0 ENV_FREE)); [reflexivity|].
    constructor.
  - apply NoDup_singleton.
  - intros i Hi. apply list_elem_of_singleton in Hi as ->.
    now exists (demo_env 8194 0 ENV_FREE).
Defined.

Lemma demo_curenv_valid : forall c, curenv demo_state = Some c -> is_Some (envs demo_state !! c).
Proof. intros c [= <-]. now eexists. Defined.

Lemma demo_only_current_runs : only_current_runs demo_state.
Proof.
  intros i e Hi Hst.
  destruct i as [|[|[|[|i]]]]; cbn in Hi; try discriminate;
    injection Hi as <-; cbn in Hst; try discriminate. reflexivity.
Defined.

Lemma env_init_free_list_witness :
  exists s',
    env_init 2 (boot_state 2) = Returns tt s'
    /\ env_free_list s' = Some O
    /\ free_chain (envs s') (env_free_list s') (seq 0 (Z.to_nat (NENV 2)))
    /\ length (envs s') = length (envs (boot_state 2))
    /\ curenv s' = curenv (boot_state 2)
    /\ stack_top s' = stack_top (boot_state 2)
    /\ forall i e, envs (boot_state 2) !! i = Some e ->
         envs s' !! i
         = Some (mkEnv (env_tf e)
                       (if (S i <? Z.to_nat (NENV 2))%nat then Some (S i) else None)
                       0 (env_parent_id e) (env_type e) (env_status e) (env_runs e)).
Proof. apply (env_init_free_list 2 (boot_state 2)); [lia|reflexivity]. Defined.

Lemma env_init_then_alloc_all_witness :
  exists s1 s2,
    env_init 2 (boot_state 2) = Returns tt s1
    /\ alloc_many 2 0x08 0x10 0x200 0 0x2000 0 0 5 s1
       = Returns (map inr (seq 0 (5 `min` Z.to_nat (NENV 2)))
                  ++ replicate (5 - Z.to_nat (NENV 2)) (inl E_NO_FREE_ENV)) s2.
Proof.
  apply (env_init_then_alloc_all 2 0x08 0x10 0x200 0 0x2000 0 0 (boot_state 2) 5);
    [lia|reflexivity|].
  vm_compute. repeat constructor.
Defined.

Lemma env_alloc_pops_free_list_witness :
  exists s' env',
    env_alloc 2 0x08 0x10 0x200 0 0x2000 4096 0 demo_state = Returns (inr 2%nat) s'
    /\ free_list_ok s' []
    /\ (2%nat ∉ ([] : list nat))
    /\ envs s' !! 2%nat = Some env'
    /\ env_status env' = ENV_RUNNABLE
    /\ (forall j, j <> 2%nat -> envs s' !! j = envs demo_state !! j).
Proof.
  exact (env_alloc_pops_free_list 2 0x08 0x10 0x200 0 0x2000 4096 0 demo_state [2%nat]
           demo_free_list_ok).
Defined.

Lemma env_free_pushes_free_list_witness :
  exists s',
    env_free 1 demo_state = Returns tt s'
    /\ free_list_ok s' [1%nat; 2%nat]
    /\ curenv s' = curenv demo_state
    /\ stack_top s' = stack_top demo_state
    /\ (forall j, j <> 1%nat -> envs s' !! j = envs demo_state !! j).
Proof.
  apply (env_free_pushes_free_list 1 demo_state (demo_env 4097 4096 ENV_RUNNABLE) [2%nat]);
    [exact demo_free_list_ok|reflexivity|discriminate].
Defined.

Lemma env_free_twice_witness :
  exists s2 env2 s3,
    bind (env_free 1) (fun _ => env_free 1) demo_state = Returns tt s2
    /\ env_free_list s2 = Some 1%nat
    /\ envs s2 !! 1%nat = Some env2
    /\ env_link env2 = Some 1%nat
    /\ alloc_many 2 0x08 0x10 0x200 0 0x2000 0 0 3 s2
       = Returns (replicate 3 (inr 1%nat)) s3
    /\ env_free_list s3 = Some 1%nat.
Proof.
  apply (env_free_twice 2 0x08 0x10 0x200 0 0x2000 0 0 1 demo_state
           (demo_env 4097 4096 ENV_RUNNABLE) 3).
  reflexivity.
Defined.

Lemma env_alloc_then_lookup_witness :
  exists s' env',
    env_alloc 2 0x08 0x10 0x200 0 0x2000 4096 0 demo_state = Returns (inr 2%nat) s'
    /\ envs s' !! 2%nat = Some env'
    /\ env_id env' <> 0
    /\ envid2env 2 (env_id env') false s' = Returns (Success, Some 2%nat) s'
    /\ (curenv_id demo_state = Some 4096 \/ curenv demo_state = Some 2%nat ->
        envid2env 2 (env_id env') true s' = Returns (Success, Some 2%nat) s').
Proof.
  apply (env_alloc_then_lookup 2 0x08 0x10 0x200 0 0x2000 4096 0 demo_state 2
           (demo_env 8194 0 ENV_FREE));
    [unfold ENVGENSHIFT; lia|reflexivity|reflexivity|reflexivity].
Defined.

Lemma env_free_then_lookup_witness :
  exists s',
    env_free 1 demo_state = Returns tt s'
    /\ envid2env 2 (env_id (demo_env 4097 4096 ENV_RUNNABLE)) true s'
       = Returns (Failure E_BAD_ENV, None) s'.
Proof.
  apply (env_free_then_lookup 2 1 demo_state (demo_env 4097 4096 ENV_RUNNABLE) true);
    [reflexivity|discriminate|reflexivity].
Defined.

Lemma env_free_then_alloc_witness :
  exists s' env',
    bind (env_free 1) (fun _ => env_alloc 2 0x08 0x10 0x200 0 0x2000 4096 0) demo_state
    = Returns (inr 1%nat) s'
    /\ env_free_list s' = env_free_list demo_state
    /\ curenv s' = curenv demo_state
    /\ stack_top s' = u64 (stack_top demo_state - 0x2000)
    /\ envs s' !! 1%nat = Some env'
    /\ tf_rsp (env_tf env') = stack_top demo_state
    /\ env_status env' = ENV_RUNNABLE
    /\ env_runs env' = 0
    /\ (forall j, j <> 1%nat -> envs s' !! j = envs demo_state !! j).
Proof.
  apply (env_free_then_alloc 2 0x08 0x10 0x200 0 0x2000 4096 0 1 demo_state
           (demo_env 4097 4096 ENV_RUNNABLE)).
  reflexivity.
Defined.

Lemma csys_yield_then_run_witness :
  exists s1 s2,
    csys_yield (set_tf_rip 0x1000040 zero_tf) demo_state = Yields s1
    /\ envs s1 !! 0%nat
       = Some (set_env_tf (set_tf_rip 0x1000040 zero_tf) (demo_env 4096 0 ENV_RUNNING))
    /\ (forall j, j <> 0%nat -> envs s1 !! j = envs demo_state !! j)
    /\ env_free_list s1 = env_free_list demo_state
    /\ curenv s1 = curenv demo_state
    /\ stack_top s1 = stack_top demo_state
    /\ env_run 0 s1 = Resumes (set_tf_rip 0x1000040 zero_tf) s2.
Proof.
  apply (csys_yield_then_run (set_tf_rip 0x1000040 zero_tf) demo_state 0
           (demo_env 4096 0 ENV_RUNNING));
    [reflexivity|reflexivity|discriminate].
Defined.

Lemma env_run_single_running_witness :
  match env_run 1 demo_state with
  | Resumes _ s' =>
      curenv s' = Some 1%nat
      /\ forall i x, envs s' !! i = Some x -> (env_status x = ENV_RUNNING <-> i = 1%nat)
  | Yields s' =>
      forall i x, envs s' !! i = Some x -> env_status x <> ENV_RUNNING
  | Returns _ _ => False
  | Faults => False
  end.
Proof.
  apply (env_run_single_running 1 demo_state (demo_env 4097 4096 ENV_RUNNABLE));
    [reflexivity|exact demo_curenv_valid|exact demo_only_current_runs].
Defined.

Lemma env_run_keeps_free_list_witness :
  match env_run 1 demo_state with
  | Resumes _ s' | Yields s' =>
      exists fl',
        free_list_ok s' fl'
        /\ (fl' = [2%nat] \/ exists c, curenv demo_state = Some c /\ fl' = c :: [2%nat])
  | Returns _ _ => False
  | Faults => False
  end.
Proof.
  apply (env_run_keeps_free_list 1 demo_state (demo_env 4097 4096 ENV_RUNNABLE) [2%nat]);
    [reflexivity|exact demo_curenv_valid|exact demo_free_list_ok|discriminate].
Defined.

Lemma env_destroy_then_run_witness :
  exists s1 s2,
    env_destroy 1 demo_state = Returns tt s1
    /\ envs s1 !! 1%nat = Some (set_env_status ENV_DYING (demo_env 4097 4096 ENV_RUNNABLE))
    /\ env_run 1 s1 = Resumes (env_tf (demo_env 4097 4096 ENV_RUNNABLE)) s2
    /\ curenv s2 = Some 1%nat
    /\ envs s2 !! 1%nat
       = Some (running_env (set_env_status ENV_DYING (demo_env 4097 4096 ENV_RUNNABLE)))
    /\ env_free_list s2 = env_free_list (retire_current s1).
Proof.
  apply (env_destroy_then_run 1 demo_state (demo_env 4097 4096 ENV_RUNNABLE));
    [reflexivity|discriminate|exact demo_curenv_valid].
Defined.




Lemma bind_functions_frame_witness :
  match bind_functions find_function0 4 symbol_mem binary0 symbol_size
          symbol_start symbol_end with
  | Next m' | Break m' | Return _ m' => m' (symbol_end + 8) = symbol_mem (symbol_end + 8)
  | OutOfFuel => True
  end.
Proof.
  apply (bind_functions_frame find_function0 4 symbol_mem binary0 symbol_size
           symbol_start symbol_end (symbol_end + 8));
    unfold symbol_end; lia.
Defined.

Lemma load_segment_loads_witness :
  exists s',
    load_segment UTOP0 binary0 minimal_size (binary0 + 64) 0 (mkSpan minimal_mem UTOP0 0)
    = Next s'
    /\ min_addr s' = Z.min UTOP0 (p_va minimal_mem (elem (binary0 + 64) sizeof_Proghdr 0))
    /\ max_addr s' = 0x1001000.
Proof.
  destruct (load_segment_loads UTOP0 binary0 minimal_size (binary0 + 64) 0
              (mkSpan minimal_mem UTOP0 0))
    as (s' & Hrun & Hmin & Hmax & _).
  - vm_compute. reflexivity.
  - vm_compute. discriminate.
  - vm_compute. discriminate.
  - exists s'. split; [exact Hrun|]. split; [exact Hmin|].
    rewrite Hmax. vm_compute. reflexivity.
Defined.

(** ** The real-time clock *)

Lemma u8_land (z : Z) : u8 z = Z.land z 255.
Proof. unfold u8, wrap. now rewrite <- (Z.land_ones z 8) by lia. Qed.

Lemma u8_range (z : Z) : 0 <= u8 z < 256.
Proof. unfold u8, wrap. apply Z.mod_pos_bound. lia. Qed.

Lemma u8_idem (z : Z) : u8 (u8 z) = u8 z.
Proof. unfold u8, wrap. apply Z.mod_mod. lia. Qed.

Lemma byte_high_bits (b n : Z) : 0 <= b < 256 -> 8 <= n -> Z.testbit b n = false.
Proof.
  intros Hb Hn. destruct (Z.eq_dec b 0) as [->|Hnz]; [apply Z.bits_0|].
  apply Z.bits_above_log2; [lia|].
  assert (Z.log2 b < 8); [|lia]. apply Z.log2_lt_pow2; lia.
Qed.

(** Setting the bits of a byte [b] in a byte: they are set, and no other
    bit changes. *)
Lemma u8_lor_sets (x b : Z) :
  0 <= b < 256 ->
  Z.land (u8 (Z.lor x b)) b = b
  /\ Z.land (u8 (Z.lor x b)) (Z.lnot b) = Z.land (u8 x) (Z.lnot b).
Proof.
  intros Hb. rewrite !u8_land. split; apply Z.bits_inj'; intros n Hn;
    rewrite ?Z.land_spec, ?Z.lor_spec, ?Z.lnot_spec by lia.
  - destruct (Z.lt_ge_cases n 8) as [Hlt|Hge].
    + replace (Z.testbit 255 n) with true
        by (symmetry; change 255 with (Z.ones 8); apply Z.ones_spec_low; lia).
      destruct (Z.testbit x n), (Z.testbit b n); reflexivity.
    + rewrite (byte_high_bits b n Hb Hge). now rewrite andb_false_r.
  - destruct (Z.testbit x n), (Z.testbit b n), (Z.testbit 255 n); reflexivity.
Qed.

(** The events of [rtc_init]. *)
Lemma rtc_init_events (CMND DATA AREG BREG PIE LOCK : Z) (a b : Z) :
  run_io (rtc_init CMND DATA AREG BREG PIE LOCK) [a; b]
  = ([EvNmiDisable;
      EvOutb CMND (u8 (Z.lor AREG LOCK));
      EvInb DATA a;
      EvOutb CMND (u8 (Z.lor AREG LOCK));
      EvOutb DATA (u8 (u8 (Z.lor (u8 a) 0x0F)));
      EvOutb CMND (u8 (Z.lor BREG LOCK));
      EvInb DATA b;
      EvOutb CMND (u8 (Z.lor BREG LOCK));
      EvOutb DATA (u8 (u8 (Z.lor (u8 b) PIE)));
      EvNmiEnable], Some tt).
Proof. reflexivity. Qed.

(** X20.  [rtc_init] keeps the non-maskable interrupt off while it works:
    it calls [nmi_disable] first and [nmi_enable] last and neither in
    between, every byte it writes to the command port carries the bits of
    [NMI_LOCK], and every access to the data port comes right after a
    write to the command port. *)
Theorem rtc_init_keeps_nmi_locked (CMND DATA AREG BREG PIE LOCK : Z) (a b : Z) :
  CMND <> DATA ->
  0 <= LOCK < 256 ->
  exists tr,
    run_io (rtc_init CMND DATA AREG BREG PIE LOCK) [a; b] = (tr, Some tt)
    /\ filter is_nmi_event tr = [EvNmiDisable; EvNmiEnable]
    /\ head tr = Some EvNmiDisable
    /\ last tr = Some EvNmiEnable
    /\ forallb (nmi_locked CMND LOCK) tr = true
    /\ data_follows_select CMND DATA false tr = true.
Proof.
  intros Hports Hlock. eexists. split; [apply rtc_init_events|].
  split; [reflexivity|]. split; [reflexivity|]. split; [reflexivity|].
  assert (Hne : (DATA =? CMND) = false) by (apply Z.eqb_neq; congruence).
  split.
  - cbn [forallb nmi_locked]. rewrite !Z.eqb_refl, Hne.
    rewrite !(proj1 (u8_lor_sets _ LOCK Hlock)), Z.eqb_refl. reflexivity.
  - cbn [data_follows_select]. rewrite !Z.eqb_refl, Hne. reflexivity.
Qed.

(** X21.  [rtc_init] changes only the bits it means to.  It accesses
    the data port four times: with register A selected it reads a byte
    and writes it back with its four low bits set, then with register B
    selected it reads a byte and writes it back with the bits of
    [RTC_PIE] set; every other bit is written back as read, and nothing
    else is written to the data port. *)
Theorem rtc_init_sets_rate_and_pie (CMND DATA AREG BREG PIE LOCK : Z) (a b : Z) :
  CMND <> DATA ->
  0 <= PIE < 256 ->
  exists wa wb,
    data_accesses CMND DATA None
      (fst (run_io (rtc_init CMND DATA AREG BREG PIE LOCK) [a; b]))
    = [RegRead (Some (u8 (Z.lor AREG LOCK))) a;
       RegWrite (Some (u8 (Z.lor AREG LOCK))) wa;
       RegRead (Some (u8 (Z.lor BREG LOCK))) b;
       RegWrite (Some (u8 (Z.lor BREG LOCK))) wb]
    /\ 0 <= wa < 256
    /\ Z.land wa 0x0F = 0x0F
    /\ Z.land wa (Z.lnot 0x0F) = Z.land (u8 a) (Z.lnot 0x0F)
    /\ 0 <= wb < 256
    /\ Z.land wb PIE = PIE
    /\ Z.land wb (Z.lnot PIE) = Z.land (u8 b) (Z.lnot PIE).
Proof.
  intros Hports Hpie. rewrite rtc_init_events. cbn [fst data_accesses].
  assert (Hne : (DATA =? CMND) = false) by (apply Z.eqb_neq; congruence).
  rewrite !Z.eqb_refl, Hne. rewrite !u8_idem.
  eexists _, _. split; [reflexivity|].
  split; [apply u8_range|].
  split; [exact (proj1 (u8_lor_sets (u8 a) 0x0F ltac:(lia)))|].
  split; [rewrite (proj2 (u8_lor_sets (u8 a) 0x0F ltac:(lia))); now rewrite u8_idem|].
  split; [apply u8_range|].
  split; [exact (proj1 (u8_lor_sets (u8 b) PIE Hpie))|].
  rewrite (proj2 (u8_lor_sets (u8 b) PIE Hpie)). now rewrite u8_idem.
Qed.

(** X22.  [rtc_check_status] does three things: it writes to the
    command port the number of register C with the bits of [NMI_LOCK]
    set, it reads the data port once, with that register selected, and
    it calls [nmi_enable].  It returns the byte read, writes nothing to
    the data port, and never calls [nmi_disable]: on return the
    non-maskable interrupt is on, whatever it was before. *)
Theorem rtc_check_status_enables_nmi (CMND DATA CREG LOCK : Z) (v : Z) :
  CMND <> DATA ->
  0 <= LOCK < 256 ->
  exists tr status,
    run_io (rtc_check_status CMND DATA CREG LOCK) [v] = (tr, Some status)
    /\ status = u8 v
    /\ 0 <= status < 256
    /\ length tr = 3%nat
    /\ head tr = Some (EvOutb CMND (u8 (Z.lor CREG LOCK)))
    /\ Z.land (u8 (Z.lor CREG LOCK)) LOCK = LOCK
    /\ data_accesses CMND DATA None tr = [RegRead (Some (u8 (Z.lor CREG LOCK))) v]
    /\ filter is_nmi_event tr = [EvNmiEnable]
    /\ last tr = Some EvNmiEnable
    /\ forallb (nmi_locked CMND LOCK) tr = true
    /\ data_follows_select CMND DATA false tr = true.
Proof.
  intros Hports Hlock. eexists _, _. split; [reflexivity|].
  split; [reflexivity|]. split; [apply u8_range|].
  split; [reflexivity|]. split; [reflexivity|].
  split; [exact (proj1 (u8_lor_sets _ LOCK Hlock))|].
  assert (Hne : (DATA =? CMND) = false) by (apply Z.eqb_neq; congruence).
  split; [cbn [data_accesses]; rewrite !Z.eqb_refl, ?Hne; reflexivity|].
  split; [reflexivity|]. split; [reflexivity|].
  split.
  - cbn [forallb nmi_locked]. rewrite !Z.eqb_refl.
    rewrite !(proj1 (u8_lor_sets _ LOCK Hlock)), Z.eqb_refl. reflexivity.
  - cbn [data_follows_select]. rewrite !Z.eqb_refl, ?Hne. reflexivity.
Qed.

Lemma rtc_init_keeps_nmi_locked_witness :
  exists tr,
    run_io (rtc_init 0x70 0x71 0x0A 0x0B 0x40 0x80) [0x26; 0x02] = (tr, Some tt)
    /\ filter is_nmi_event tr = [EvNmiDisable; EvNmiEnable]
    /\ head tr = Some EvNmiDisable
    /\ last tr = Some EvNmiEnable
    /\ forallb (nmi_locked 0x70 0x80) tr = true
    /\ data_follows_select 0x70 0x71 false tr = true.
Proof.
  apply (rtc_init_keeps_nmi_locked 0x70 0x71 0x0A 0x0B 0x40 0x80 0x26 0x02); lia.
Defined.

Lemma rtc_init_sets_rate_and_pie_witness :
  exists wa wb,
    data_accesses 0x70 0x71 None
      (fst (run_io (rtc_init 0x70 0x71 0x0A 0x0B 0x40 0x80) [0x26; 0x02]))
    = [RegRead (Some (u8 (Z.lor 0x0A 0x80))) 0x26;
       RegWrite (Some (u8 (Z.lor 0x0A 0x80))) wa;
       RegRead (Some (u8 (Z.lor 0x0B 0x80))) 0x02;
       RegWrite (Some (u8 (Z.lor 0x0B 0x80))) wb]
    /\ 0 <= wa < 256
    /\ Z.land wa 0x0F = 0x0F
    /\ Z.land wa (Z.lnot 0x0F) = Z.land (u8 0x26) (Z.lnot 0x0F)
    /\ 0 <= wb < 256
    /\ Z.land wb 0x40 = 0x40
    /\ Z.land wb (Z.lnot 0x40) = Z.land (u8 0x02) (Z.lnot 0x40).
Proof.
  apply (rtc_init_sets_rate_and_pie 0x70 0x71 0x0A 0x0B 0x40 0x80 0x26 0x02); lia.
Defined.

Lemma rtc_check_status_enables_nmi_witness :
  exists tr status,
    run_io (rtc_check_status 0x70 0x71 0x0C 0x80) [0x50] = (tr, Some status)
    /\ status = u8 0x50
    /\ 0 <= status < 256
    /\ length tr = 3%nat
    /\ head tr = Some (EvOutb 0x70 (u8 (Z.lor 0x0C 0x80)))
    /\ Z.land (u8 (Z.lor 0x0C 0x80)) 0x80 = 0x80
    /\ data_accesses 0x70 0x71 None tr = [RegRead (Some (u8 (Z.lor 0x0C 0x80))) 0x50]
    /\ filter is_nmi_event tr = [EvNmiEnable]
    /\ last tr = Some EvNmiEnable
    /\ forallb (nmi_locked 0x70 0x80) tr = true
    /\ data_follows_select 0x70 0x71 false tr = true.
Proof.
  apply (rtc_check_status_enables_nmi 0x70 0x71 0x0C 0x80 0x50); lia.
Defined.
